(** * Prompt templates, response extraction, path planning and file generation

    A shallow embedding of the template engine ([command/promptUtils.js]),
    of the response interpretation and path planning functions
    ([command/generatePaths.js]) and of the generation loop
    ([command/storePrompt.js]), with the properties that were checked
    against them.

    JavaScript strings are sequences of UTF-16 code units; none of the
    regular expressions of the program carries the [u] flag, so every string
    operation below works on code units.  *)

From Stdlib Require Import NArith ZArith Ascii String Lia Sorted.
From stdpp Require Import base list gmap.

#[local] Set Warnings "-clear-no-such-hyp".

Local Open Scope nat_scope.

(** ** JavaScript strings *)

Module JS.

Definition code_unit := N.
Abbreviation jsstring := (list N).

Definition ch (a : ascii) : N := N_of_ascii a.
Arguments ch a%_char.

(** An ASCII literal as a JavaScript string. *)
Definition lit (s : string) : jsstring := map N_of_ascii (list_ascii_of_string s).
Arguments lit s%_string.

Definition code_eqb (a b : N) : bool := N.eqb a b.

Fixpoint str_eqb (a b : jsstring) : bool :=
  match a, b with
  | [], [] => true
  | x :: a', y :: b' => code_eqb x y && str_eqb a' b'
  | _, _ => false
  end.

(** [s.startsWith(p)] *)
Fixpoint startsWith (s p : jsstring) {struct p} : bool :=
  match p, s with
  | [], _ => true
  | y :: p', x :: s' => code_eqb x y && startsWith s' p'
  | _ :: _, [] => false
  end.

(** [s.indexOf(p)]: the least index at which [p] occurs, or -1. *)
Fixpoint indexOf_from (s p : jsstring) (i : Z) : Z :=
  if startsWith s p then i
  else match s with
       | [] => (-1)%Z
       | _ :: s' => indexOf_from s' p (i + 1)%Z
       end.

Definition indexOf (s p : jsstring) : Z := indexOf_from s p 0%Z.

(** [s.lastIndexOf(p)]: the greatest index at which [p] occurs, or -1. *)
Fixpoint lastIndexOf_from (s p : jsstring) (i : Z) (best : Z) : Z :=
  let best' := if startsWith s p then i else best in
  match s with
  | [] => best'
  | _ :: s' => lastIndexOf_from s' p (i + 1)%Z best'
  end.

Definition lastIndexOf (s p : jsstring) : Z := lastIndexOf_from s p 0%Z (-1)%Z.

(** [s.slice(b, e)] for indices that are not negative. *)
Definition slice (s : jsstring) (b e : Z) : jsstring :=
  take (Z.to_nat e - Z.to_nat b) (drop (Z.to_nat b) s).

(** [s.slice(0, n)] *)
Definition slice_to (s : jsstring) (n : nat) : jsstring := take n s.

(** WhiteSpace and LineTerminator code units: what [trim] removes and what
    [\s] matches. *)
Definition is_space (c : N) : bool :=
  ((9 <=? c) && (c <=? 13) || (c =? 32) || (c =? 160) || (c =? 5760)
   || (8192 <=? c) && (c <=? 8202) || (c =? 8232) || (c =? 8233)
   || (c =? 8239) || (c =? 8287) || (c =? 12288) || (c =? 65279))%N.

Fixpoint trimStart (s : jsstring) : jsstring :=
  match s with
  | c :: s' => if is_space c then trimStart s' else s
  | [] => []
  end.

Definition trimEnd (s : jsstring) : jsstring := rev (trimStart (rev s)).

Definition trim (s : jsstring) : jsstring := trimEnd (trimStart s).

(** [s.split(sep)] for a separator that is one code unit or a class of
    single code units: the pieces between separators, empty pieces kept;
    the empty string yields one empty piece. *)
Fixpoint split_on (sep : N -> bool) (s : jsstring) : list jsstring :=
  match s with
  | [] => [[]]
  | c :: s' =>
      if sep c then [] :: split_on sep s'
      else match split_on sep s' with
           | p :: ps => (c :: p) :: ps
           | [] => [[c]]
           end
  end.

(** [a.join(sep)] *)
Fixpoint join (sep : jsstring) (l : list jsstring) : jsstring :=
  match l with
  | [] => []
  | [x] => x
  | x :: l' => x ++ sep ++ join sep l'
  end.

(** A literal between double quotes. *)
Definition quoted (s : string) : jsstring := 34%N :: lit s ++ [34%N].
Arguments quoted s%_string.

(** [a || b] on strings: the empty string is falsy. *)
Definition str_or (a b : jsstring) : jsstring :=
  match a with [] => b | _ => a end.

(** [a.sort(cmp)]: the sort is stable, and for a comparator that is a
    difference of keys every stable sort returns the same array. *)
Fixpoint sort_insert {A} (cmp : A -> A -> Z) (x : A) (l : list A) : list A :=
  match l with
  | [] => [x]
  | y :: l' => if (0 <? cmp x y)%Z then y :: sort_insert cmp x l' else x :: l
  end.

Definition Array_sort {A} (cmp : A -> A -> Z) (l : list A) : list A :=
  fold_right (sort_insert cmp) [] l.

End JS.

Import JS.

(** ** Regular expressions

    The backtracking matcher of ECMAScript for the constructs the program
    uses: single code unit classes, sequence, ordered alternation, greedy and
    lazy repetition, capturing groups and the [^] assertion.  A continuation
    receives the state after a sub-match and decides whether the rest
    succeeds; the first success in priority order wins. *)

Module Regex.

Inductive regex :=
| Eps
| Chr (p : N -> bool)
| Bol
| Seq (r1 r2 : regex)
| Alt (r1 r2 : regex)
| Star (greedy : bool) (r : regex)
| Grp (i : nat) (r : regex).

Definition captures := list (nat * jsstring).

Record mstate := MState {
  ms_pos : nat;            (* index of the next code unit *)
  ms_rest : jsstring;      (* input from [ms_pos] on *)
  ms_caps : captures
}.

Definition cont := mstate -> option mstate.

(** The iterations of [r*] and [r*?], [step] being the matcher of [r]:
    an iteration that consumed nothing is rejected, so the fuel, the
    length of the input that is left, bounds the iterations. *)
Fixpoint star_loop (step : mstate -> cont -> option mstate) (greedy : bool) (k : cont)
    (fuel : nat) (x : mstate) : option mstate :=
  match fuel with
  | O => k x
  | S fuel' =>
      let again :=
        step x (fun y =>
          if ms_pos x <? ms_pos y then star_loop step greedy k fuel' y else None) in
      if greedy
      then match again with Some z => Some z | None => k x end
      else match k x with Some z => Some z | None => again end
  end.

Fixpoint rmatch (r : regex) (x : mstate) (k : cont) : option mstate :=
  match r with
  | Eps => k x
  | Chr p =>
      match ms_rest x with
      | c :: s' => if p c then k (MState (S (ms_pos x)) s' (ms_caps x)) else None
      | [] => None
      end
  | Bol => if ms_pos x =? 0 then k x else None
  | Seq r1 r2 => rmatch r1 x (fun y => rmatch r2 y k)
  | Alt r1 r2 =>
      match rmatch r1 x k with
      | Some z => Some z
      | None => rmatch r2 x k
      end
  | Star greedy r1 => star_loop (rmatch r1) greedy k (length (ms_rest x)) x
  | Grp i r1 =>
      rmatch r1 x (fun y =>
        k (MState (ms_pos y) (ms_rest y)
             ((i, take (ms_pos y - ms_pos x) (ms_rest x)) :: ms_caps y)))
  end.

(** The words a pattern matches at a position, whatever the order in which
    the matcher tries them: the declarative reading of a pattern. *)
Inductive lang : regex -> nat -> jsstring -> Prop :=
| lang_eps pos : lang Eps pos []
| lang_chr p pos c : p c = true -> lang (Chr p) pos [c]
| lang_bol : lang Bol 0 []
| lang_seq r1 r2 pos w1 w2 :
    lang r1 pos w1 -> lang r2 (pos + length w1) w2 -> lang (Seq r1 r2) pos (w1 ++ w2)
| lang_alt_l r1 r2 pos w : lang r1 pos w -> lang (Alt r1 r2) pos w
| lang_alt_r r1 r2 pos w : lang r2 pos w -> lang (Alt r1 r2) pos w
| lang_star_nil greedy r pos : lang (Star greedy r) pos []
| lang_star_cons greedy r pos w1 w2 :
    w1 <> [] -> lang r pos w1 -> lang (Star greedy r) (pos + length w1) w2 ->
    lang (Star greedy r) pos (w1 ++ w2)
| lang_grp i r pos w : lang r pos w -> lang (Grp i r) pos w.

(** Two readings of a pattern's syntax, for comparing patterns: a pattern
    without [^] matches the same words at every position, and the groups
    of a pattern have no part in the words it matches. *)
Fixpoint bol_free (r : regex) : bool :=
  match r with
  | Eps | Chr _ => true
  | Bol => false
  | Seq r1 r2 | Alt r1 r2 => bol_free r1 && bol_free r2
  | Star _ r1 | Grp _ r1 => bol_free r1
  end.

Fixpoint erase (r : regex) : regex :=
  match r with
  | Eps => Eps
  | Chr p => Chr p
  | Bol => Bol
  | Seq r1 r2 => Seq (erase r1) (erase r2)
  | Alt r1 r2 => Alt (erase r1) (erase r2)
  | Star greedy r1 => Star greedy (erase r1)
  | Grp _ r1 => erase r1
  end.

(** [r+], [r+?], [r?] *)
Definition plus (greedy : bool) (r : regex) : regex := Seq r (Star greedy r).
Definition opt (r : regex) : regex := Alt r Eps.

Fixpoint seqs (l : list regex) : regex :=
  match l with
  | [] => Eps
  | [r] => r
  | r :: l' => Seq r (seqs l')
  end.

Definition one (c : N) : regex := Chr (N.eqb c).
Definition none_of (l : list N) : regex := Chr (fun c => negb (existsb (N.eqb c) l)).

(** A match as [exec] returns it: [m.index], [m[0]] and the groups. *)
Record rmatch_result := RMatch {
  m_index : nat;
  m_0 : jsstring;
  m_groups : captures
}.

Definition m_end (m : rmatch_result) : nat := m_index m + length (m_0 m).

(** [m[i]]: [None] is [undefined], a group that took no part. *)
Fixpoint group (i : nat) (c : captures) : option jsstring :=
  match c with
  | [] => None
  | (j, s) :: c' => if i =? j then Some s else group i c'
  end.

Definition match_at (r : regex) (pos : nat) (s : jsstring) : option rmatch_result :=
  match rmatch r (MState pos s []) Some with
  | Some y => Some (RMatch pos (take (ms_pos y - pos) s) (ms_caps y))
  | None => None
  end.

(** The leftmost match at or after [pos], [s] being the input from [pos]. *)
Fixpoint search (r : regex) (pos : nat) (s : jsstring) : option rmatch_result :=
  match match_at r pos s with
  | Some m => Some m
  | None =>
      match s with
      | [] => None
      | _ :: s' => search r (S pos) s'
      end
  end.

(** [re.exec(s)] of a regular expression whose [lastIndex] is [lastIndex]. *)
Definition exec (r : regex) (s : jsstring) (lastIndex : nat) : option rmatch_result :=
  if lastIndex <=? length s then search r lastIndex (drop lastIndex s) else None.

(** [s.match(re)] and [re.test(s)] without the [g] flag. *)
Definition match_first (r : regex) (s : jsstring) : option rmatch_result := exec r s 0.
Definition test (r : regex) (s : jsstring) : bool :=
  match exec r s 0 with Some _ => true | None => false end.

(** [while ((m = re.exec(s))) body] with the [g] flag: [exec] resumes at
    [lastIndex], the end of the previous match.  An empty match leaves
    [lastIndex] where it is and the loop never ends: [None].  The fuel
    bounds the number of matches, each of which moves [lastIndex] forward. *)
Fixpoint exec_loop {St} (fuel : nat) (r : regex) (s : jsstring) (lastIndex : nat)
    (body : rmatch_result -> St -> St) (st : St) : option St :=
  match exec r s lastIndex with
  | None => Some st
  | Some m =>
      if lastIndex <? m_end m
      then match fuel with
           | O => None
           | S fuel' => exec_loop fuel' r s (m_end m) body (body m st)
           end
      else None
  end.

Definition while_exec {St} (r : regex) (s : jsstring)
    (body : rmatch_result -> St -> St) (st : St) : option St :=
  exec_loop (length s) r s 0 body st.

(** The matches [s.replace(re, f)] collects for a [g] regular expression:
    as above, but after an empty match [lastIndex] moves one further. *)
Fixpoint replace_matches (fuel : nat) (r : regex) (s : jsstring) (lastIndex : nat)
    : list rmatch_result :=
  match fuel with
  | O => []
  | S fuel' =>
      match exec r s lastIndex with
      | None => []
      | Some m =>
          let next := if length (m_0 m) =? 0 then S (m_end m) else m_end m in
          m :: replace_matches fuel' r s next
      end
  end.

(** The second half of [replace]: the replacer is called once per match, in
    order, and may update a state of its own (a closure variable); the
    pieces of the input between the matches are kept. *)
Fixpoint replace_build {St} (s : jsstring) (ms : list rmatch_result)
    (f : rmatch_result -> St -> jsstring * St) (st : St)
    (acc : jsstring) (nextSourcePosition : nat) : jsstring * St :=
  match ms with
  | [] => (acc ++ drop nextSourcePosition s, st)
  | m :: ms' =>
      let '(replacement, st') := f m st in
      if nextSourcePosition <=? m_index m
      then replace_build s ms' f st'
             (acc ++ take (m_index m - nextSourcePosition) (drop nextSourcePosition s)
                  ++ replacement)
             (m_end m)
      else replace_build s ms' f st' acc nextSourcePosition
  end.

Definition replace_st {St} (r : regex) (s : jsstring)
    (f : rmatch_result -> St -> jsstring * St) (st : St) : jsstring * St :=
  replace_build s (replace_matches (length s + 2) r s 0) f st [] 0.

Definition replace (r : regex) (s : jsstring) (f : rmatch_result -> jsstring) : jsstring :=
  fst (replace_st r s (fun m (_ : unit) => (f m, tt)) tt).

End Regex.

Import Regex.

(** ** command/promptUtils.js *)

Module PromptUtils.

(** Character classes of the template grammar. *)
Definition is_word (c : N) : bool :=
  ((65 <=? c) && (c <=? 90) || (97 <=? c) && (c <=? 122)
   || (48 <=? c) && (c <=? 57) || (c =? 95))%N.

Definition ws : regex := Chr is_space.                               (* \s *)
Definition is_name_char (c : N) : bool :=
  is_word c || N.eqb c (ch ".") || N.eqb c (ch "-").
Definition name_char : regex := Chr is_name_char.                    (* [\w.-] *)
Definition not_brace_bar : regex := none_of (lit "}|").              (* [^}|] *)
Definition not_braces_colon_bar : regex := none_of (lit "{}:|").     (* [^{}:|] *)
Definition not_close : regex := none_of (lit "}").                   (* [^}] *)
Definition word (s : string) : regex := seqs (map one (lit s)).

Definition open_braces : regex := Seq (one (ch "{")) (one (ch "{")).
Definition close_braces : regex := Seq (one (ch "}")) (one (ch "}")).

(** [X+(?:\s*,\s*X+)+]: a comma separated list of at least two items. *)
Definition comma_list (x : regex) : regex :=
  Seq (plus true x)
      (plus true (seqs [Star true ws; one (ch ","); Star true ws; plus true x])).

(** [(?:\|\s*([^}]+?))?], the group numbered [i] when it captures. *)
Definition default_part (i : option nat) : regex :=
  let d := plus false not_close in
  opt (seqs [one (ch "|"); Star true ws;
             match i with Some n => Grp n d | None => d end]).

(** [/\{\{\s*([^{}:|,]+)\s*\}\}/g] *)
Definition simpleRe : regex :=
  seqs [open_braces; Star true ws; Grp 1 (plus true (none_of (lit "{}:|,")));
        Star true ws; close_braces].

(** [/\{\{\s*([\w.-]+)\s*\}\}/g] *)
Definition fillRe : regex :=
  seqs [open_braces; Star true ws; Grp 1 (plus true name_char);
        Star true ws; close_braces].

(** [/\{\{\s*([\w.-]+)\s*:\s*([^}|]+(?:\s*,\s*[^}|]+)+)\s*(?:\|\s*([^}]+?))?\s*\}\}/g] *)
Definition namedRe : regex :=
  seqs [open_braces; Star true ws; Grp 1 (plus true name_char); Star true ws;
        one (ch ":"); Star true ws; Grp 2 (comma_list not_brace_bar);
        Star true ws; default_part (Some 3); Star true ws; close_braces].

(** [/\{\{\s*([^{}:|]+(?:\s*,\s*[^{}:|]+)+)\s*(?:\|\s*([^}]+?))?\s*\}\}/g] *)
Definition anonRe : regex :=
  seqs [open_braces; Star true ws; Grp 1 (comma_list not_braces_colon_bar);
        Star true ws; default_part (Some 2); Star true ws; close_braces].

(** [/\{\{\s*radio\s*\|\s*([^}|]+(?:\s*,\s*[^}|]+)+)\s*(?:\|\s*([^}]+?))?\s*\}\}/g] *)
Definition radioRe : regex :=
  seqs [open_braces; Star true ws; word "radio"; Star true ws; one (ch "|");
        Star true ws; Grp 1 (comma_list not_brace_bar);
        Star true ws; default_part (Some 2); Star true ws; close_braces].

(** [/\{\{\s*ai\s*\|\s*([^}|]+)\s*(?:\|\s*([^}]+?))?\s*\}\}/g] *)
Definition aiRe : regex :=
  seqs [open_braces; Star true ws; word "ai"; Star true ws; one (ch "|");
        Star true ws; Grp 1 (plus true not_brace_bar);
        Star true ws; default_part (Some 2); Star true ws; close_braces].

(** The single pattern of [fillChoicePlaceholders]: the four token forms as
    alternatives, in the order named, anonymous, radio, ai. *)
Definition choiceRe : regex :=
  seqs [open_braces; Star true ws;
        Alt (seqs [plus true name_char; Star true ws; one (ch ":"); Star true ws;
                   Grp 1 (comma_list not_brace_bar)])
       (Alt (Grp 2 (comma_list not_braces_colon_bar))
       (Alt (seqs [word "radio"; Star true ws; one (ch "|"); Star true ws;
                   Grp 3 (comma_list not_brace_bar)])
            (seqs [word "ai"; Star true ws; one (ch "|"); Star true ws;
                   Grp 4 (plus true not_brace_bar)])));
        Star true ws; default_part None; Star true ws; close_braces].

(** [m[i]] of a group that takes part in every match of its pattern. *)
Definition grp (i : nat) (m : rmatch_result) : jsstring :=
  default [] (group i (m_groups m)).

(** A [Set] in insertion order. *)
Definition set_add (x : jsstring) (seen : list jsstring) : list jsstring :=
  if existsb (str_eqb x) seen then seen else seen ++ [x].

(** [parsePlaceholders(template)]: the distinct simple names, in the order
    of their first occurrence. *)
Definition parsePlaceholders (template : jsstring) : option (list jsstring) :=
  while_exec simpleRe template
    (fun m seen =>
       if negb (str_eqb (grp 1 m) (lit "radio")) && negb (str_eqb (grp 1 m) (lit "ai"))
       then set_add (grp 1 m) seen
       else seen)
    [].

(** [fillPlaceholders(template, values)] *)
Definition fillPlaceholders (template : jsstring) (values : gmap jsstring jsstring)
    : jsstring :=
  replace fillRe template
    (fun m => match values !! grp 1 m with
              | Some v => v
              | None => []
              end).

Inductive token_type := choice | radio | ai.

Record token := Token {
  raw : jsstring;
  name : option jsstring;
  options : list jsstring;
  default_ : option jsstring;
  type : token_type;
  aiPrompt : option jsstring
}.

(** [opts.split(',').map((s) => s.trim())] *)
Definition split_options (opts : jsstring) : list jsstring :=
  map trim (split_on (N.eqb (ch ",")) opts).

(** The test of the three later passes: does the span [start, end) meet the
    span that starts at the first occurrence of [t.raw] in the template? *)
Definition overlaps_token (template : jsstring) (start end_ : Z) (t : token) : bool :=
  let i := indexOf template (raw t) in
  negb (i =? -1)%Z
  && negb ((end_ <=? i)%Z || (i + Z.of_nat (length (raw t)) <=? start)%Z).

Definition overlaps (template : jsstring) (m : rmatch_result) (tokens : list token) : bool :=
  existsb (overlaps_token template (Z.of_nat (m_index m))
             (Z.of_nat (m_index m + length (m_0 m)))) tokens.

Definition named_token (m : rmatch_result) : token :=
  Token (m_0 m) (Some (grp 1 m)) (split_options (grp 2 m))
        (trim <$> group 3 (m_groups m)) choice None.

Definition anon_token (m : rmatch_result) : token :=
  Token (m_0 m) None (split_options (grp 1 m))
        (trim <$> group 2 (m_groups m)) choice None.

Definition radio_token (m : rmatch_result) : token :=
  Token (m_0 m) None (split_options (grp 1 m))
        (trim <$> group 2 (m_groups m)) radio None.

Definition ai_token (m : rmatch_result) : token :=
  Token (m_0 m) None [trim (grp 1 m)]
        (trim <$> group 2 (m_groups m)) ai (Some (trim (grp 1 m))).

(** One pass of the scanner over the template.  [A] is what the pass
    pushes: the token, or the token with the span of its match. *)
Definition pass {A} (tok : A -> token) (re : regex) (check : bool)
    (mk : rmatch_result -> A) (template : jsstring) (tokens : list A)
    : option (list A) :=
  while_exec re template
    (fun m tokens =>
       if check && overlaps template m (map tok tokens) then tokens
       else tokens ++ [mk m])
    tokens.

Definition passes {A} (tok : A -> token) (mk : (rmatch_result -> token) -> rmatch_result -> A)
    (template : jsstring) : option (list A) :=
  t1 ← pass tok namedRe false (mk named_token) template [];
  t2 ← pass tok anonRe true (mk anon_token) template t1;
  t3 ← pass tok radioRe true (mk radio_token) template t2;
  pass tok aiRe true (mk ai_token) template t3.

(** The comparator of the final sort. *)
Definition by_first_index (template : jsstring) (a b : token) : Z :=
  (indexOf template (raw a) - indexOf template (raw b))%Z.

(** [parseChoicePlaceholders(template)] *)
Definition parseChoicePlaceholders (template : jsstring) : option (list token) :=
  tokens ← passes id (fun mk => mk) template;
  Some (Array_sort (by_first_index template) tokens).

(** The same scan, each accepted token paired with the span
    [m.index, m.index + raw.length) of the match it was built from, in the
    order of acceptance.  The program does not keep the span. *)
Definition accepted_spans (template : jsstring) : option (list (token * (nat * nat))) :=
  passes fst (fun mk m => (mk m, (m_index m, m_end m))) template.

(** [fillChoicePlaceholders(template, selectedValues)]: the replacer reads
    [selectedValues[i++]]; past the end of the array that is [undefined]. *)
Definition fillChoicePlaceholders (template : jsstring) (selectedValues : list jsstring)
    : jsstring :=
  match selectedValues with
  | [] => template
  | _ =>
      fst (replace_st choiceRe template
             (fun _ i => (match selectedValues !! i with
                          | Some v => v
                          | None => []
                          end, S i))
             0)
  end.

End PromptUtils.

Import PromptUtils.

(** ** JSON values and [JSON.parse] *)

Module Json.

(** A number as its literal denotes it: [(-1)^neg * mant * 10^exp10]. *)
Record number := Number { n_neg : bool; n_mant : N; n_exp10 : Z }.

#[local] Unset Elimination Schemes.

Inductive json :=
| JNull
| JBool (b : bool)
| JNum (n : number)
| JStr (s : jsstring)
| JArr (l : list json)
| JObj (members : list (jsstring * json)).

#[local] Set Elimination Schemes.

(** [o[key]] of a parsed object: of two members with one key the later one
    stands; [None] is [undefined]. *)
Fixpoint obj_get (key : jsstring) (members : list (jsstring * json)) : option json :=
  match members with
  | [] => None
  | (k, v) :: rest =>
      match obj_get key rest with
      | Some v' => Some v'
      | None => if str_eqb k key then Some v else None
      end
  end.

(** The literal rounds to zero as a double: it is at most [2^-1075], half
    the least positive double. *)
Definition rounds_to_zero (n : number) : bool :=
  (n_mant n =? 0)%N
  || ((n_exp10 n <? 0)%Z
      && (Z.of_N (n_mant n) * 2 ^ 1075 <=? 10 ^ (- n_exp10 n))%Z).

(** ToBoolean *)
Definition truthy (v : json) : bool :=
  match v with
  | JNull => false
  | JBool b => b
  | JNum n => negb (rounds_to_zero n)
  | JStr s => match s with [] => false | _ => true end
  | JArr _ | JObj _ => true
  end.

Definition is_json_ws (c : N) : bool :=
  ((c =? 9) || (c =? 10) || (c =? 13) || (c =? 32))%N.

Fixpoint skip_ws (s : jsstring) : jsstring :=
  match s with
  | c :: s' => if is_json_ws c then skip_ws s' else s
  | [] => []
  end.

Definition is_digit (c : N) : bool := ((48 <=? c) && (c <=? 57))%N.

(** A run of digits: its value after [acc], how many there were, the rest. *)
Fixpoint digits (s : jsstring) (acc : N) (count : nat) : N * nat * jsstring :=
  match s with
  | c :: s' => if is_digit c then digits s' (acc * 10 + (c - 48))%N (S count)
               else (acc, count, s)
  | [] => (acc, count, s)
  end.

Definition hex_value (c : N) : option N :=
  if is_digit c then Some (c - 48)%N
  else if ((65 <=? c) && (c <=? 70))%N then Some (c - 55)%N
  else if ((97 <=? c) && (c <=? 102))%N then Some (c - 87)%N
  else None.

(** The code unit a two-character escape stands for. *)
Definition escape_value (e : N) : option N :=
  if (e =? 34)%N then Some 34%N            (* escaped quote *)
  else if (e =? 92)%N then Some 92%N       (* escaped backslash *)
  else if (e =? 47)%N then Some 47%N       (* \/ *)
  else if (e =? 98)%N then Some 8%N        (* \b *)
  else if (e =? 102)%N then Some 12%N      (* \f *)
  else if (e =? 110)%N then Some 10%N      (* \n *)
  else if (e =? 114)%N then Some 13%N      (* \r *)
  else if (e =? 116)%N then Some 9%N       (* \t *)
  else None.

Definition code_of_hex (a b c d : N) : N := (((a * 16 + b) * 16 + c) * 16 + d)%N.

(** The characters of a string literal after its opening quote. *)
Fixpoint parse_chars (fuel : nat) (s acc : jsstring) : option (jsstring * jsstring) :=
  match fuel with
  | O => None
  | S fuel' =>
      match s with
      | [] => None
      | c :: s' =>
          if (c =? 34)%N then Some (acc, s')
          else if (c =? 92)%N then
            match s' with
            | e :: s'' =>
                match escape_value e with
                | Some u => parse_chars fuel' s'' (acc ++ [u])
                | None =>
                    if (e =? 117)%N then                   (* \uXXXX *)
                      match s'' with
                      | h1 :: h2 :: h3 :: h4 :: s3 =>
                          match hex_value h1, hex_value h2, hex_value h3, hex_value h4 with
                          | Some a, Some b, Some c', Some d =>
                              parse_chars fuel' s3 (acc ++ [code_of_hex a b c' d])
                          | _, _, _, _ => None
                          end
                      | _ => None
                      end
                    else None
                end
            | [] => None
            end
          else if (c <? 32)%N then None
          else parse_chars fuel' s' (acc ++ [c])
      end
  end.

(** A number literal: an optional minus sign, an integer part without a
    leading zero unless it is zero, an optional fraction and an optional
    exponent. *)
Definition parse_number (s : jsstring) : option (number * jsstring) :=
  let '(neg, s1) := match s with
                    | c :: s' => if (c =? 45)%N then (true, s') else (false, s)
                    | [] => (false, s)
                    end in
  let int_part :=
    match s1 with
    | c :: s' =>
        if (c =? 48)%N then Some (0%N, s')
        else if is_digit c then let '(v, _, r) := digits s1 0 0 in Some (v, r)
        else None
    | [] => None
    end in
  match int_part with
  | None => None
  | Some (i, s2) =>
      let frac :=
        match s2 with
        | c :: s' =>
            if (c =? 46)%N then
              let '(v, n, r) := digits s' i 0 in
              match n with O => None | _ => Some (v, n, r) end
            else Some (i, O, s2)
        | [] => Some (i, O, s2)
        end in
      match frac with
      | None => None
      | Some (m, fd, s3) =>
          let plain := Some (Number neg m (- Z.of_nat fd), s3) in
          match s3 with
          | c :: s' =>
              if ((c =? 101) || (c =? 69))%N then
                let '(eneg, s4) :=
                  match s' with
                  | d :: s'' => if (d =? 45)%N then (true, s'')
                                else if (d =? 43)%N then (false, s'')
                                else (false, s')
                  | [] => (false, s')
                  end in
                let '(e, n, r) := digits s4 0 0 in
                match n with
                | O => None
                | _ => Some (Number neg m
                               ((if eneg then - Z.of_N e else Z.of_N e) - Z.of_nat fd), r)
                end
              else plain
          | [] => plain
          end
      end
  end.

(** The elements of an array after its opening bracket, [parse] reading
    one value; [n] bounds the number of elements. *)
Definition parse_elems (parse : jsstring -> option (json * jsstring))
    : nat -> jsstring -> list json -> option (json * jsstring) :=
  fix elems (n : nat) (s : jsstring) (acc : list json) {struct n} :=
    match n with
    | O => None
    | S n' =>
        match parse s with
        | Some (v, r) =>
            match skip_ws r with
            | e :: r' =>
                if (e =? 44)%N then elems n' (skip_ws r') (acc ++ [v])
                else if (e =? 93)%N then Some (JArr (acc ++ [v]), r')
                else None
            | [] => None
            end
        | None => None
        end
    end.

(** The members of an object after its opening brace. *)
Definition parse_members (parse : jsstring -> option (json * jsstring))
    : nat -> jsstring -> list (jsstring * json) -> option (json * jsstring) :=
  fix members (n : nat) (s : jsstring) (acc : list (jsstring * json)) {struct n} :=
    match n with
    | O => None
    | S n' =>
        match s with
        | q :: s1 =>
            if (q =? 34)%N then
              match parse_chars (length s) s1 [] with
              | Some (key, r1) =>
                  match skip_ws r1 with
                  | col :: r2 =>
                      if (col =? 58)%N then
                        match parse (skip_ws r2) with
                        | Some (v, r3) =>
                            match skip_ws r3 with
                            | e :: r4 =>
                                if (e =? 44)%N
                                then members n' (skip_ws r4) (acc ++ [(key, v)])
                                else if (e =? 125)%N
                                then Some (JObj (acc ++ [(key, v)]), r4)
                                else None
                            | [] => None
                            end
                        | None => None
                        end
                      else None
                  | [] => None
                  end
              | None => None
              end
            else None
        | [] => None
        end
    end.

(** A value that starts at the head of [s]; the fuel bounds the nesting. *)
Fixpoint parse_value (fuel : nat) (s : jsstring) : option (json * jsstring) :=
  match fuel with
  | O => None
  | S fuel' =>
      match s with
      | [] => None
      | c :: s' =>
          if (c =? 110)%N then
            if startsWith s' (lit "ull") then Some (JNull, drop 3 s') else None
          else if (c =? 116)%N then
            if startsWith s' (lit "rue") then Some (JBool true, drop 3 s') else None
          else if (c =? 102)%N then
            if startsWith s' (lit "alse") then Some (JBool false, drop 4 s') else None
          else if (c =? 34)%N then
            match parse_chars (length s) s' [] with
            | Some (str, r) => Some (JStr str, r)
            | None => None
            end
          else if (c =? 91)%N then
            match skip_ws s' with
            | d :: r =>
                if (d =? 93)%N then Some (JArr [], r)
                else parse_elems (parse_value fuel') (length s) (d :: r) []
            | [] => None
            end
          else if (c =? 123)%N then
            match skip_ws s' with
            | d :: r =>
                if (d =? 125)%N then Some (JObj [], r)
                else parse_members (parse_value fuel') (length s) (d :: r) []
            | [] => None
            end
          else
            match parse_number s with
            | Some (n, r) => Some (JNum n, r)
            | None => None
            end
      end
  end.

(** [JSON.parse(s)]: one value between optional white space; [None] is a
    [SyntaxError]. *)
Definition JSON_parse (s : jsstring) : option json :=
  match parse_value (S (length s)) (skip_ws s) with
  | Some (v, r) => match skip_ws r with [] => Some v | _ => None end
  | None => None
  end.

(** *** The grammar of JSON texts

    The grammar the parser is checked against: what a string literal, a
    value, the elements of an array and the members of an object are,
    each with the text that follows it. *)

(** The characters of a string literal after its opening quote, the
    closing quote included: the string they denote and what follows. *)
Inductive chars_at : jsstring -> jsstring -> jsstring -> Prop :=
| chars_close r : chars_at (34%N :: r) [] r
| chars_plain c s str r :
    c <> 34%N -> c <> 92%N -> (32 <= c)%N ->
    chars_at s str r -> chars_at (c :: s) (c :: str) r
| chars_escape e u s str r :
    escape_value e = Some u ->
    chars_at s str r -> chars_at (92%N :: e :: s) (u :: str) r
| chars_unicode h1 h2 h3 h4 a b c d s str r :
    hex_value h1 = Some a -> hex_value h2 = Some b ->
    hex_value h3 = Some c -> hex_value h4 = Some d ->
    chars_at s str r ->
    chars_at (92%N :: 117%N :: h1 :: h2 :: h3 :: h4 :: s) (code_of_hex a b c d :: str) r.

Inductive value_at : jsstring -> json -> jsstring -> Prop :=
| value_null r : value_at (lit "null" ++ r) JNull r
| value_true r : value_at (lit "true" ++ r) (JBool true) r
| value_false r : value_at (lit "false" ++ r) (JBool false) r
| value_string s str r : chars_at s str r -> value_at (34%N :: s) (JStr str) r
| value_number s n r : parse_number s = Some (n, r) -> value_at s (JNum n) r
| value_empty_array s r : skip_ws s = 93%N :: r -> value_at (91%N :: s) (JArr []) r
| value_array s l r : elems_at (skip_ws s) l r -> value_at (91%N :: s) (JArr l) r
| value_empty_object s r : skip_ws s = 125%N :: r -> value_at (123%N :: s) (JObj []) r
| value_object s members r :
    members_at (skip_ws s) members r -> value_at (123%N :: s) (JObj members) r

(** The elements of an array up to its closing bracket. *)
with elems_at : jsstring -> list json -> jsstring -> Prop :=
| elems_last s v r1 r :
    value_at s v r1 -> skip_ws r1 = 93%N :: r -> elems_at s [v] r
| elems_more s v r1 r2 l r :
    value_at s v r1 -> skip_ws r1 = 44%N :: r2 ->
    elems_at (skip_ws r2) l r -> elems_at s (v :: l) r

(** The members of an object up to its closing brace. *)
with members_at : jsstring -> list (jsstring * json) -> jsstring -> Prop :=
| members_last s key r1 r2 v r3 r :
    chars_at s key r1 -> skip_ws r1 = 58%N :: r2 ->
    value_at (skip_ws r2) v r3 -> skip_ws r3 = 125%N :: r ->
    members_at (34%N :: s) [(key, v)] r
| members_more s key r1 r2 v r3 r4 members r :
    chars_at s key r1 -> skip_ws r1 = 58%N :: r2 ->
    value_at (skip_ws r2) v r3 -> skip_ws r3 = 44%N :: r4 ->
    members_at (skip_ws r4) members r ->
    members_at (34%N :: s) ((key, v) :: members) r.

Scheme value_at_mut := Minimality for value_at Sort Prop
  with elems_at_mut := Minimality for elems_at Sort Prop
  with members_at_mut := Minimality for members_at Sort Prop.

Combined Scheme json_grammar_ind from value_at_mut, elems_at_mut, members_at_mut.

(** A JSON text: one value between optional white space. *)
Definition json_text (s : jsstring) (v : json) : Prop :=
  exists r, value_at (skip_ws s) v r /\ skip_ws r = [].

End Json.

Import Json.

(** A JavaScript result: a value, or a thrown [Error] with its message. *)
Inductive result (A : Type) :=
| Ok (a : A)
| Throw (message : jsstring).
Arguments Ok {A} a.
Arguments Throw {A} message.

Definition is_throw {A} (r : result A) : bool :=
  match r with Throw _ => true | Ok _ => false end.

(** ** Node's [path] module

    [path] is the implementation of the host platform.  The program uses
    [path.isAbsolute] and [path.basename]. *)

Module NodePath.

Record path_module := PathModule {
  isAbsolute : jsstring -> bool;
  basename : jsstring -> jsstring
}.

Definition is_slash (c : N) : bool := (c =? 47)%N.
Definition is_separator (c : N) : bool := ((c =? 47) || (c =? 92))%N.
Definition is_drive_letter (c : N) : bool :=
  ((65 <=? c) && (c <=? 90) || (97 <=? c) && (c <=? 122))%N.

Fixpoint drop_while {A} (p : A -> bool) (l : list A) : list A :=
  match l with
  | x :: l' => if p x then drop_while p l' else l
  | [] => []
  end.

Fixpoint take_while {A} (p : A -> bool) (l : list A) : list A :=
  match l with
  | x :: l' => if p x then x :: take_while p l' else []
  | [] => []
  end.

(** The last component, separators at the end left out. *)
Definition last_component (sep : N -> bool) (s : jsstring) : jsstring :=
  rev (take_while (fun c => negb (sep c)) (drop_while sep (rev s))).

Definition posix : path_module :=
  PathModule
    (fun s => match s with c :: _ => is_slash c | [] => false end)
    (last_component is_slash).

Definition win32 : path_module :=
  PathModule
    (fun s => match s with
              | c :: rest =>
                  is_separator c
                  || match rest with
                     | colon :: sep :: _ =>
                         is_drive_letter c && (colon =? 58)%N && is_separator sep
                     | _ => false
                     end
              | [] => false
              end)
    (fun s => match s with
              | c :: colon :: rest =>
                  if is_drive_letter c && (colon =? 58)%N
                  then last_component is_separator rest
                  else last_component is_separator s
              | _ => last_component is_separator s
              end).

End NodePath.

Import NodePath.

(** ** command/generatePaths.js *)

Module GeneratePaths.

(** What the model call hands over: [{ output_text }] or [{ content }]. *)
Record response := Response {
  output_text : option jsstring;
  content : option jsstring
}.

(** [response?.output_text || response?.content], the empty string when
    both are missing. *)
Definition response_text (r : response) : jsstring :=
  str_or (default [] (output_text r)) (str_or (default [] (content r)) []).

(** [tryParse]: [None] is [undefined]. *)
Definition tryParse (str : jsstring) : option json := JSON_parse str.

(** [if (parsed) return parsed]: [undefined] and falsy values fall through. *)
Definition if_truthy (parsed : option json) : option json :=
  match parsed with
  | Some v => if truthy v then Some v else None
  | None => None
  end.

(** [/```[a-zA-Z]*\s*([\s\S]*?)\s*```/] *)
Definition fenceRe : regex :=
  let ticks := PromptUtils.word "```" in
  let letter := Chr (fun c => ((65 <=? c) && (c <=? 90) || (97 <=? c) && (c <=? 122))%N) in
  seqs [ticks; Star true letter; Star true PromptUtils.ws;
        Grp 1 (Star false (Chr (fun _ => true)));
        Star true PromptUtils.ws; ticks].

(** The part of [str] from its first [{] to its last [}], when there are
    both and in that order. *)
Definition braces_slice (str : jsstring) : option jsstring :=
  let s := indexOf str (lit "{") in
  let e := lastIndexOf str (lit "}") in
  if (negb (s =? -1) && negb (e =? -1) && (s <? e))%Z
  then Some (slice str s (e + 1))
  else None.

Definition invalid_json_message (text : jsstring) : jsstring :=
  lit "Invalid JSON response: " ++ text.

(** [parseJSONResponse(response)] *)
Definition parseJSONResponse (r : response) : result json :=
  let text := response_text r in
  match if_truthy (tryParse (trim text)) with
  | Some parsed => Ok parsed
  | None =>
      let in_fence :=
        match match_first fenceRe text with
        | Some fenceMatch =>
            let inside := trim (PromptUtils.grp 1 fenceMatch) in
            match if_truthy (tryParse inside) with
            | Some parsed => Some parsed
            | None =>
                match braces_slice inside with
                | Some sub => if_truthy (tryParse sub)
                | None => None
                end
            end
        | None => None
        end in
      match in_fence with
      | Some parsed => Ok parsed
      | None =>
          match braces_slice text with
          | Some sub =>
              match if_truthy (tryParse sub) with
              | Some parsed => Ok parsed
              | None => Throw (invalid_json_message text)
              end
          | None => Throw (invalid_json_message text)
          end
      end
  end.

(** [/^[A-Z]:/] *)
Definition driveRe : regex :=
  seqs [Bol; Chr (fun c => ((65 <=? c) && (c <=? 90))%N); one (ch ":")].

(** The loop of [normalizeSegments] over the segments. *)
Fixpoint normalize_loop (segments normalizedSegments : list jsstring) : result jsstring :=
  match segments with
  | [] => Ok (join (lit "/") normalizedSegments)
  | segment :: rest =>
      if str_eqb segment (lit ".") then normalize_loop rest normalizedSegments
      else if str_eqb segment (lit "..")
      then Throw (lit "Parent directory references not allowed")
      else normalize_loop rest (normalizedSegments ++ [segment])
  end.

(** [normalizeSegments(pathStr)] *)
Definition normalizeSegments (P : path_module) (pathStr : jsstring) : result jsstring :=
  if isAbsolute P pathStr || startsWith pathStr (lit "/") || test driveRe pathStr
  then Throw (lit "Absolute paths not allowed")
  else
    let segments :=
      filter (fun seg => 0 < length seg) (split_on is_separator pathStr) in
    normalize_loop segments [].

Inductive path_kind := file | directory.

(** [basename.includes] of a full stop *)
Definition includes_dot (s : jsstring) : bool := existsb (N.eqb (ch ".")) s.

(** [inferPathKind(pathStr)] *)
Definition inferPathKind (P : path_module) (pathStr : jsstring) : path_kind :=
  let base := basename P pathStr in
  if includes_dot base && negb (startsWith base (lit ".")) then file else directory.

Record item := Item {
  path : jsstring;
  pathKind : path_kind;
  item_content : option jsstring
}.

(** The two arrays [coerceGeneratedPaths] reads from the payload. *)
Definition candidates_of (responsePayload : json) : list json * list json :=
  match responsePayload with
  | JArr l => (l, [])
  | JObj members =>
      (match obj_get (lit "paths") members with Some (JArr l) => l | _ => [] end,
       match obj_get (lit "files") members with Some (JArr l) => l | _ => [] end)
  | _ => ([], [])
  end.

(** The body of both loops: [kindOf] infers the kind in the first and
    forces [file] in the second. *)
Definition accept (P : path_module) (kindOf : jsstring -> path_kind) (val : json)
    (st : gset jsstring * list item) : gset jsstring * list item :=
  let '(unique, results) := st in
  match val with
  | JStr s =>
      match normalizeSegments P s with
      | Ok normalized =>
          if bool_decide (normalized = []) || bool_decide (normalized ∈ unique)
          then st
          else
            let kind := kindOf normalized in
            ({[normalized]} ∪ unique,
             results ++ [Item normalized kind
                           (match kind with file => Some [] | directory => None end)])
      | Throw _ => st
      end
  | _ => st
  end.

(** [coerceGeneratedPaths(responsePayload)] *)
Definition coerceGeneratedPaths (P : path_module) (responsePayload : json) : list item :=
  let '(dirCandidates, fileCandidates) := candidates_of responsePayload in
  let st1 := fold_left (fun st val => accept P (inferPathKind P) val st)
               dirCandidates (∅, []) in
  let st2 := fold_left (fun st val => accept P (fun _ => file) val st)
               fileCandidates st1 in
  st2.2.

End GeneratePaths.

Import GeneratePaths.

(** ** command/storePrompt.js: the generation loop

    The editor, the file system and the model endpoint are outside the
    program.  Their state is a [World]; a call takes the world to a new world
    and returns a value or throws.  The loop keeps four arrays; a [push]
    that happened before a [throw] stays. *)

Module StorePrompt.

Record failure := Failure { f_path : jsstring; f_error : jsstring }.

Record state (World : Type) := State {
  world : World;
  created : list jsstring;
  overwritten : list jsstring;
  skipped : list jsstring;
  failures : list failure
}.
Arguments State {World}.
Arguments world {World}.
Arguments created {World}.
Arguments overwritten {World}.
Arguments skipped {World}.
Arguments failures {World}.

(** What the workspace scan found, as the prompts quote it. *)
Record summary := Summary { directories : list jsstring; files : list jsstring }.

(** [prompt.split("\n")[0]?.slice(0, 40) || "prompt"] *)
Definition templateNameFromPrompt (prompt : jsstring) : jsstring :=
  str_or (slice_to (default [] (head (split_on (N.eqb 10) prompt))) 40) (lit "prompt").

(** The text written when the model call fails. *)
Definition fallback_content (targetPath finalPrompt : jsstring) : jsstring :=
  lit "// Generated fallback for " ++ targetPath ++ [10%N]
  ++ lit "// Template: " ++ templateNameFromPrompt finalPrompt ++ [10%N]
  ++ lit "// Prompt snippet: " ++ slice_to finalPrompt 120 ++ lit "..." ++ [10%N; 10%N].

(** The prefix of the reason pushed when the written file cannot be shown. *)
Definition open_failed_prefix : jsstring :=
  [3648; 3611; 3636; 3604; 3652; 3615; 3621; 3660; 3652; 3617; 3656; 3626;
   3635; 3648; 3619; 3655; 3592; 58; 32]%N.

(** The editor, the file system and the model endpoint, as the loop uses
    them.  [report] is [progress.report] with the count of paths done and
    their total.  [getGlobalAI] throws without an API key; [create] returns
    [choices?.[0]?.message?.content], [None] when it is missing.
    [extractCodeFromText] belongs to command/createProjectByAI.js, which
    is not among the sources; it is called inside the [try].  The two
    prompt texts of [requestFileContentForPrompt] are functions of what
    their template literals interpolate. *)
Class Host (World Uri Doc Client : Type) := {
  joinPath : Uri -> jsstring -> Uri;
  createDirectory : Uri -> World -> World * result unit;
  stat : Uri -> World -> World * result unit;
  writeFile : Uri -> jsstring -> World -> World * result unit;
  openTextDocument : Uri -> World -> World * result Doc;
  showTextDocument : Doc -> World -> World * result unit;
  report : nat -> nat -> World -> World;
  getGlobalAI : World -> World * result Client;
  create : Client -> jsstring -> jsstring -> jsstring ->
           World -> World * result (option jsstring);
  extractCodeFromText : jsstring -> World -> World * result jsstring;
  systemPromptOf : jsstring -> jsstring;
  userPromptOf :
    jsstring -> summary -> list jsstring -> list jsstring -> jsstring -> jsstring
}.

Section Generation.

Context {World Uri Doc Client : Type} {H : Host World Uri Doc Client}.

(** A computation on the arrays and the world. *)
Definition M (A : Type) : Type := state World -> state World * result A.

Definition ret {A} (a : A) : M A := fun st => (st, Ok a).

Definition bind {A B} (m : M A) (k : A -> M B) : M B :=
  fun st => match m st with
            | (st', Ok a) => k a st'
            | (st', Throw e) => (st', Throw e)
            end.

(** [try { m } catch (error) { h(error.message) }] *)
Definition try_catch {A} (m : M A) (h : jsstring -> M A) : M A :=
  fun st => match m st with
            | (st', Ok a) => (st', Ok a)
            | (st', Throw e) => h e st'
            end.

Definition set_world (w : World) (st : state World) : state World :=
  State w (created st) (overwritten st) (skipped st) (failures st).

(** A call into the outside world. *)
Definition call {A} (f : World -> World * result A) : M A :=
  fun st => let '(w, r) := f (world st) in (set_world w st, r).

(** A call that does not throw. *)
Definition call_total (f : World -> World) : M unit :=
  fun st => (set_world (f (world st)) st, Ok tt).

Definition push_created (p : jsstring) : M unit :=
  fun st => (State (world st) (created st ++ [p]) (overwritten st) (skipped st)
               (failures st), Ok tt).
Definition push_overwritten (p : jsstring) : M unit :=
  fun st => (State (world st) (created st) (overwritten st ++ [p]) (skipped st)
               (failures st), Ok tt).
Definition push_skipped (p : jsstring) : M unit :=
  fun st => (State (world st) (created st) (overwritten st) (skipped st ++ [p])
               (failures st), Ok tt).
Definition push_failure (p e : jsstring) : M unit :=
  fun st => (State (world st) (created st) (overwritten st) (skipped st)
               (failures st ++ [Failure p e]), Ok tt).

Local Notation "x <- m ;; k" := (bind m (fun x => k))
  (at level 100, m at next level, k at level 200, right associativity).
Local Notation "m ;;; k" := (bind m (fun _ => k))
  (at level 100, k at level 200, right associativity).

Definition ensureParentDir (uri : Uri) : M unit :=
  call (createDirectory (joinPath uri (lit ".."))).

Definition exists_ (uri : Uri) : M bool :=
  try_catch (call (stat uri) ;;; ret true) (fun _ => ret false).

(** The body of the [try] of [requestFileContentForPrompt]. *)
Definition request_content (model systemPrompt userPrompt : jsstring) : M jsstring :=
  client <- call getGlobalAI ;;
  response <- call (create client model systemPrompt userPrompt) ;;
  let content := str_or (default [] response) [] in
  extracted <- call (extractCodeFromText content) ;;
  ret (str_or extracted (str_or content [])).

(** [requestFileContentForPrompt(model, finalPrompt, existingSummary,
    allFilePaths, targetPath)] *)
Definition requestFileContentForPrompt (model finalPrompt : jsstring)
    (existingSummary : summary) (allFilePaths : list jsstring)
    (targetPath : jsstring) : M jsstring :=
  let otherFiles := filter (fun p => negb (str_eqb p targetPath)) allFilePaths in
  let systemPrompt := systemPromptOf targetPath in
  let userPrompt :=
    userPromptOf finalPrompt existingSummary allFilePaths otherFiles targetPath in
  try_catch
    (request_content model systemPrompt userPrompt)
    (fun _ => ret (fallback_content targetPath finalPrompt)).

(** What follows the write: the path goes to [overwritten] or [created],
    then the file is shown in the editor. *)
Definition record_and_show (targetUri : Uri) (fileExists : bool)
    (relativePath : jsstring) : M unit :=
  (if fileExists then push_overwritten relativePath
   else push_created relativePath) ;;;
  try_catch
    (doc <- call (openTextDocument targetUri) ;;
     call (showTextDocument doc))
    (fun e => push_failure relativePath (open_failed_prefix ++ e)).

(** The body of the loop of [generateFilesFromPrompt] for one path. *)
Definition process_path (workspaceUri : Uri) (model finalPrompt : jsstring)
    (filePaths : list jsstring) (overwriteAll : bool) (existingSummary : summary)
    (relativePath : jsstring) : M unit :=
  let targetUri := joinPath workspaceUri relativePath in
  try_catch
    (ensureParentDir targetUri ;;;
     fileExists <- exists_ targetUri ;;
     if fileExists && negb overwriteAll
     then push_skipped relativePath
     else
       content <- requestFileContentForPrompt model finalPrompt existingSummary
                    filePaths relativePath ;;
       call (writeFile targetUri content) ;;;
       record_and_show targetUri fileExists relativePath)
    (fun e => push_failure relativePath e).

(** The loop of [generateFilesFromPrompt]; [done_] counts the paths the
    loop has been through. *)
Fixpoint generate_loop (workspaceUri : Uri) (model finalPrompt : jsstring)
    (allFilePaths : list jsstring) (overwriteAll : bool) (existingSummary : summary)
    (total done_ : nat) (rest : list jsstring) : M unit :=
  match rest with
  | [] => ret tt
  | relativePath :: rest' =>
      process_path workspaceUri model finalPrompt allFilePaths overwriteAll
        existingSummary relativePath ;;;
      call_total (report (S done_) total) ;;;
      generate_loop workspaceUri model finalPrompt allFilePaths overwriteAll
        existingSummary total (S done_) rest'
  end.

(** [generateFilesFromPrompt]: the state it ends in holds the four arrays
    the closing summary is written from. *)
Definition generateFilesFromPrompt (workspaceUri : Uri) (model finalPrompt : jsstring)
    (filePaths : list jsstring) (overwriteAll : bool) (existingSummary : summary)
    (w : World) : state World * result unit :=
  generate_loop workspaceUri model finalPrompt filePaths overwriteAll existingSummary
    (length filePaths) 0 filePaths (State w [] [] [] []).

End Generation.

End StorePrompt.

Import StorePrompt.

(** ** A small host to run the loop on

    Files are known by their URI, a string.  The lists [no_dir], [no_write],
    [no_open] and [no_model] name the URIs and target paths for which the
    respective call throws. *)

Module Sim.

Record sim := SimWorld {
  existing : list jsstring;
  written : list (jsstring * jsstring);
  no_dir : list jsstring;
  no_write : list jsstring;
  no_open : list jsstring;
  no_model : list jsstring;
  reports : list (nat * nat)
}.

Definition mem (x : jsstring) (l : list jsstring) : bool := existsb (str_eqb x) l.

#[export] Instance sim_host : Host sim jsstring jsstring unit := {|
  joinPath u p := u ++ lit "/" ++ p;
  createDirectory u w :=
    if mem u (no_dir w) then (w, Throw (lit "EACCES")) else (w, Ok tt);
  stat u w :=
    if mem u (existing w) then (w, Ok tt) else (w, Throw (lit "ENOENT"));
  writeFile u c w :=
    if mem u (no_write w) then (w, Throw (lit "EROFS"))
    else (SimWorld (existing w ++ [u]) (written w ++ [(u, c)]) (no_dir w)
            (no_write w) (no_open w) (no_model w) (reports w), Ok tt);
  openTextDocument u w :=
    if mem u (no_open w) then (w, Throw (lit "cannot open")) else (w, Ok u);
  showTextDocument _ w := (w, Ok tt);
  report d t w :=
    SimWorld (existing w) (written w) (no_dir w) (no_write w) (no_open w)
      (no_model w) (reports w ++ [(d, t)]);
  getGlobalAI w := (w, Ok tt);
  create _ _ _ user w :=
    if mem user (no_model w) then (w, Throw (lit "503"))
    else (w, Ok (Some (lit "content of " ++ user)));
  extractCodeFromText c w := (w, Ok c);
  systemPromptOf p := p;
  userPromptOf _ _ _ _ target := target
|}.

Definition empty_world : sim := SimWorld [] [] [] [] [] [] [].

(** [generateFilesFromPrompt] in the workspace [ws] with an empty summary. *)
Definition run (w : sim) (prompt : jsstring) (paths : list jsstring) (overwriteAll : bool)
    : state sim * result unit :=
  generateFilesFromPrompt (lit "ws") (lit "gpt-4.1-mini") prompt paths overwriteAll
    (Summary [] []) w.

End Sim.

(** ** The statements of the specification

    The definitions below follow the words of the specification, to be
    compared with the functions of the program. *)

Module Spec.

(** *** Path Normalizer *)

(** The [/]-or-[\]-delimited segments of a path. *)
Definition segments (s : jsstring) : list jsstring := split_on is_separator s.

(** A drive-letter prefix: a letter of either case, then a colon. *)
Definition has_drive_prefix (s : jsstring) : Prop :=
  ∃ c rest, s = c :: ch ":" :: rest ∧ is_drive_letter c = true.

(** A drive-letter prefix whose letter is one of [A] to [Z]. *)
Definition has_upper_drive_prefix (s : jsstring) : Prop :=
  ∃ c rest, s = c :: ch ":" :: rest ∧ (65 ≤ c ≤ 90)%N.

Definition starts_with_slash (s : jsstring) : Prop :=
  ∃ rest, s = ch "/" :: rest.

(** The string a successful normalization returns: the segments that are
    neither empty nor [.], joined with [/]. *)
Definition rejoined (s : jsstring) : jsstring :=
  join (lit "/")
    (filter (fun seg => seg ≠ [] ∧ seg ≠ lit ".") (segments s)).

(** The Path Normalizer contract as the specification words it. *)
Definition normalize_contract (normalize : jsstring -> result jsstring) : Prop :=
  ∀ s, is_throw (normalize s) = true ↔
       starts_with_slash s ∨ has_drive_prefix s ∨ lit ".." ∈ segments s.

(** *** Plan Builder *)

(** A raw candidate that survives normalization, with its kind. *)
Definition valid_candidate (P : path_module) (forced : bool) (val : json) : option item :=
  match val with
  | JStr s =>
      match normalizeSegments P s with
      | Ok [] => None
      | Ok normalized =>
          Some (if forced then Item normalized file (Some [])
                else match inferPathKind P normalized with
                     | file => Item normalized file (Some [])
                     | directory => Item normalized directory None
                     end)
      | Throw _ => None
      end
  | _ => None
  end.

(** The candidates in processing order: [paths] or the bare array first,
    then [files]. *)
Definition candidates (P : path_module) (payload : json) : list item :=
  omap (valid_candidate P false) (candidates_of payload).1
  ++ omap (valid_candidate P true) (candidates_of payload).2.

(** First classification wins: a candidate is kept unless an earlier
    candidate has its path. *)
Fixpoint first_wins (l : list item) : list item :=
  match l with
  | [] => []
  | x :: l' => x :: filter (fun y => path y ≠ path x) (first_wins l')
  end.

(** *** Generation Orchestrator *)

(** What can happen to one path: the last two carry the reason when the
    written file could not be shown. *)
Inductive outcome :=
| Skipped
| Failed (reason : jsstring)
| Created (shown : option jsstring)
| Overwritten (shown : option jsstring).

Definition in_created (po : jsstring * outcome) : option jsstring :=
  match po.2 with Created _ => Some po.1 | _ => None end.
Definition in_overwritten (po : jsstring * outcome) : option jsstring :=
  match po.2 with Overwritten _ => Some po.1 | _ => None end.
Definition in_skipped (po : jsstring * outcome) : option jsstring :=
  match po.2 with Skipped => Some po.1 | _ => None end.
Definition in_failures (po : jsstring * outcome) : option failure :=
  match po.2 with
  | Failed e => Some (Failure po.1 e)
  | Created (Some e) | Overwritten (Some e) => Some (Failure po.1 (open_failed_prefix ++ e))
  | _ => None
  end.

(** The arrays after a path met its outcome. *)
Definition record {World} (p : jsstring) (o : outcome) (st : state World) : state World :=
  State (world st)
    (created st ++ option_list (in_created (p, o)))
    (overwritten st ++ option_list (in_overwritten (p, o)))
    (skipped st ++ option_list (in_skipped (p, o)))
    (failures st ++ option_list (in_failures (p, o))).


(** Which call the reason of a failure entry comes from: creating the
    parent directory or writing for [Failed], opening or showing the
    written file for the other two. *)
Definition blame `{Host World Uri Doc Client} (uri : Uri) (o : outcome) : Prop :=
  match o with
  | Failed e =>
      (∃ w, (createDirectory (joinPath uri (lit "..")) w).2 = Throw e)
      ∨ (∃ c w, (writeFile uri c w).2 = Throw e)
  | Created (Some e) | Overwritten (Some e) =>
      (∃ w, (openTextDocument uri w).2 = Throw e)
      ∨ (∃ d w, (showTextDocument d w).2 = Throw e)
  | _ => True
  end.



(** On the small host the write of a path fails exactly when its URI is in
    [no_write]: a path is in the failed bucket only when its write fails. *)
Definition failed_only_when_write_fails (w : Sim.sim) (prompt : jsstring)
    (paths : list jsstring) (overwriteAll : bool) : Prop :=
  ∀ p, p ∈ f_path <$> failures (Sim.run w prompt paths overwriteAll).1 →
       Sim.mem (joinPath (Host := Sim.sim_host) (lit "ws") p) (Sim.no_write w) = true.

(** *** Response Extractor *)

(** The texts the strategies hand to the parser, in order. *)
Definition attempts (text : jsstring) : list jsstring :=
  [trim text]
  ++ match match_first fenceRe text with
     | Some m =>
         let inside := trim (grp 1 m) in
         inside :: option_list (braces_slice inside)
     | None => []
     end
  ++ option_list (braces_slice text).

Definition extract (text : jsstring) : result json :=
  parseJSONResponse (Response (Some text) None).

(** First success wins, [ok] saying which parses count as a success. *)
Definition first_success (ok : json -> bool) (text : jsstring) : result json :=
  match head (omap (fun a => match JSON_parse a with
                             | Some v => if ok v then Some v else None
                             | None => None
                             end) (attempts text)) with
  | Some v => Ok v
  | None => Throw (invalid_json_message text)
  end.

(** The Response Extractor contract as the specification words it: a
    strategy succeeds when its text parses as JSON. *)
Definition extractor_contract (extract : jsstring -> result json) : Prop :=
  ∀ text, extract text = first_success (fun _ => true) text.

(** *** Placeholder Scanner *)

(** Two spans [start, end) that share a position. *)
Definition spans_overlap (a b : nat * nat) : Prop := a.1 < b.2 ∧ b.1 < a.2.

(** The sort key of the scanner: where the text of a token first occurs. *)
Definition first_index (template : jsstring) (t : token) : Z :=
  indexOf template (raw t).

(** *** Token Resolver *)

(** The template with each match replaced by the value of its rank, and by
    the empty string when the values have run out; the text between the
    matches is kept. *)
Fixpoint splice (s : jsstring) (pos : nat) (ms : list rmatch_result)
    (vs : list jsstring) : jsstring :=
  match ms with
  | [] => drop pos s
  | m :: ms' =>
      take (m_index m - pos) (drop pos s)
      ++ default [] (head vs)
      ++ splice s (m_end m) ms' (tail vs)
  end.

(** Matches that lie one after the other from [pos] on. *)
Fixpoint ordered (pos : nat) (ms : list rmatch_result) : Prop :=
  match ms with
  | [] => True
  | m :: ms' => pos ≤ m_index m ∧ ordered (m_end m) ms'
  end.

(** The tokens the Choice Filler sees in a template. *)
Definition choice_matches (template : jsstring) : list rmatch_result :=
  replace_matches (length template + 2) choiceRe template 0.

(** The tokens the Simple Filler sees in a template. *)
Definition simple_matches (template : jsstring) : list rmatch_result :=
  replace_matches (length template + 2) fillRe template 0.

(** The Choice Filler contract as the specification words it: with fewer
    selections than tokens, the empty list included, the tokens past the
    end of the selections are replaced by the empty string. *)
Definition shortfall_contract (fill : jsstring -> list jsstring -> jsstring) : Prop :=
  ∀ template selections,
    length selections < length (choice_matches template) →
    fill template selections = splice template 0 (choice_matches template) selections.

Definition brace_free (s : jsstring) : Prop := ch "{" ∉ s.

(** Every opening brace of [s] lies in the span of one of the matches. *)
Definition braces_covered (s : jsstring) (ms : list rmatch_result) : Prop :=
  ∀ i, s !! i = Some (ch "{") → ∃ m, m ∈ ms ∧ m_index m ≤ i < m_end m.

(** A [{{name}}] token as the Simple Filler reads it: two opening braces,
    white space, a name of letters, digits, [_], [.] and [-] that is not
    empty, white space, two closing braces. *)
Definition simple_word (w : jsstring) : Prop :=
  ∃ w1 n w2,
    w = lit "{{" ++ w1 ++ n ++ w2 ++ lit "}}"
    ∧ Forall (fun c => is_space c = true) w1
    ∧ n ≠ []
    ∧ Forall (fun c => is_name_char c = true) n
    ∧ Forall (fun c => is_space c = true) w2.


(** The same, as a test that computes. *)
Definition braces_covered_b (s : jsstring) (ms : list rmatch_result) : bool :=
  forallb (fun i => match s !! i with
                    | Some c =>
                        negb (c =? ch "{")%N
                        || existsb (fun m => (m_index m <=? i) && (i <? m_end m)) ms
                    | None => true
                    end) (seq 0 (length s)).

(** Two opening braces in a row, the first at [i]: a [{{] sequence. *)
Definition double_at (s : jsstring) (i : nat) : Prop :=
  s !! i = Some (ch "{") ∧ s !! S i = Some (ch "{").

(** [s] holds no [{{] sequence. *)
Definition no_double (s : jsstring) : Prop := ∀ i, ¬ double_at s i.

(** Every [{{] sequence of [s] starts in the span of one of the matches:
    an opening brace that stands alone need not lie in a match. *)
Definition doubles_covered (s : jsstring) (ms : list rmatch_result) : Prop :=
  ∀ i, double_at s i → ∃ m, m ∈ ms ∧ m_index m ≤ i < m_end m.

(** Every [{{] sequence of [s] starts in a [{{name}}] token of [s]. *)
Definition doubles_in_words (s : jsstring) : Prop :=
  ∀ q, double_at s q →
       ∃ a w rest, drop a s = w ++ rest ∧ simple_word w ∧ a ≤ q < a + length w.

(** [doubles_covered], as a test that computes. *)
Definition doubles_covered_b (s : jsstring) (ms : list rmatch_result) : bool :=
  forallb (fun i => match s !! i, s !! S i with
                    | Some c, Some d =>
                        negb ((c =? ch "{") && (d =? ch "{"))%N
                        || existsb (fun m => (m_index m <=? i) && (i <? m_end m)) ms
                    | _, _ => true
                    end) (seq 0 (length s)).

(** No token of any recognized syntax is left: neither scanner finds one
    and neither filler pattern matches. *)
Definition no_token (s : jsstring) : Prop :=
  parseChoicePlaceholders s = Some [] ∧ parsePlaceholders s = Some []
  ∧ choice_matches s = [] ∧ simple_matches s = [].

(** Resolution: the Choice Filler, then the Simple Filler. *)
Definition resolve (template : jsstring) (selections : list jsstring)
    (values : gmap jsstring jsstring) : jsstring :=
  fillPlaceholders (fillChoicePlaceholders template selections) values.



End Spec.

(** * The code around the functions above

    The client cache of [config/ai.js]; the workspace scan, the plan
    request and the scaffolding of [command/generatePaths.js]; and, from
    [command/storePrompt.js], the file list of a plan, the form round of a
    template, the path prompts and the run of a template up to the
    generation loop. *)

(** ** The groups of a pattern *)

Module Captures.

(** The groups of a pattern, each with the pattern it holds. *)
Fixpoint groups_of (r : regex) : list (nat * regex) :=
  match r with
  | Eps | Chr _ | Bol => []
  | Seq r1 r2 | Alt r1 r2 => groups_of r1 ++ groups_of r2
  | Star _ r1 => groups_of r1
  | Grp i r1 => (i, r1) :: groups_of r1
  end.

(** The groups every match of the pattern goes through. *)
Fixpoint sure_groups (r : regex) : list nat :=
  match r with
  | Seq r1 r2 => sure_groups r1 ++ sure_groups r2
  | Grp i r1 => i :: sure_groups r1
  | _ => []
  end.

(** What a match of [r] on the word [w] adds to the captures, the latest
    first: words of the groups of [r], one at least for each group the
    match must go through, and first of all [w] itself when [r] is a
    group. *)
Definition captures_of (r : regex) (w : jsstring) (new : captures) : Prop :=
  Forall (fun iv => exists r' pos, (iv.1, r') ∈ groups_of r /\ lang r' pos iv.2) new
  /\ (forall i, i ∈ sure_groups r -> exists v, (i, v) ∈ new)
  /\ match r with
     | Grp i _ => exists rest, new = (i, w) :: rest
     | _ => True
     end.

(** A string [trim] leaves as it is. *)
Definition trimmed (s : jsstring) : Prop := trim s = s.

(** What holds of every token the scanner of choices returns: its text
    stands in the template between two opening and two closing braces;
    its options and its default are trimmed; an [ai] token has one
    option, its prompt, and the other tokens have two options or more;
    a name is a word of letters, digits, [_], [.] and [-]. *)
Definition token_wellformed (template : jsstring) (t : token) : Prop :=
  (exists a u rest, drop a template = raw t ++ rest /\ raw t = lit "{{" ++ u ++ lit "}}")
  /\ Forall trimmed (options t)
  /\ (forall d, default_ t = Some d -> trimmed d)
  /\ (forall n, name t = Some n ->
        type t = choice /\ n <> [] /\ Forall (fun c => is_name_char c = true) n)
  /\ match type t with
     | ai => name t = None /\ exists p, options t = [p] /\ aiPrompt t = Some p
     | radio => name t = None /\ 2 <= length (options t) /\ aiPrompt t = None
     | choice => 2 <= length (options t) /\ aiPrompt t = None
     end.

End Captures.

Import Captures.

(** ** Computations on the outside world *)

Module Effects.

(** A computation that may change the world and may throw. *)
Definition W (World A : Type) : Type := World -> World * result A.

Section W.

Context {World : Type}.

Definition pure {A} (a : A) : W World A := fun w => (w, Ok a).

Definition throw {A} (message : jsstring) : W World A := fun w => (w, Throw message).

Definition and_then {A B} (m : W World A) (k : A -> W World B) : W World B :=
  fun w => match m w with
           | (w', Ok a) => k a w'
           | (w', Throw e) => (w', Throw e)
           end.

(** [try { m } catch (error) { h(error.message) }] *)
Definition catch {A} (m : W World A) (h : jsstring -> W World A) : W World A :=
  fun w => match m w with
           | (w', Ok a) => (w', Ok a)
           | (w', Throw e) => h e w'
           end.

(** A call that does not throw: a notification, a log line. *)
Definition total (f : World -> World) : W World unit := fun w => (f w, Ok tt).

(** A synchronous read of the world. *)
Definition read {A} (f : World -> A) : W World A := fun w => (w, Ok (f w)).

Definition of_result {A} (r : result A) : W World A := fun w => (w, r).

End W.

End Effects.

Import Effects.

(** ** config/ai.js *)

Module Config.

(** [cachedClient]: the client with the settings it was built from. *)
Record cached (Client : Type) := Cached {
  client : Client;
  apiKey : jsstring;
  apiUrl : jsstring
}.
Arguments Cached {Client}.
Arguments client {Client}.
Arguments apiKey {Client}.
Arguments apiUrl {Client}.

(** The settings of the section [ai], [None] being [undefined], and the
    constructor of the client with its [apiKey] and its [baseURL]. *)
Class Settings (World Client : Type) := {
  config_get : jsstring -> World -> option jsstring;
  new_OpenAI : jsstring -> option jsstring -> World -> World * result Client
}.

Definition key_not_set : jsstring :=
  lit "AI API Key is not set. Run the AI: Set Config command first.".

Section Cache.

Context {World Client : Type} {S : Settings World Client}.

(** The world and the module variable [cachedClient]. *)
Record ai_state := AiState {
  ai_world : World;
  cachedClient : option (cached Client)
}.

(** [config.get(key)?.trim()], the empty string when the setting is missing *)
Definition setting (key : jsstring) (w : World) : jsstring :=
  match config_get key w with
  | Some v => trim v
  | None => []
  end.

(** [resolveConfig()] *)
Definition resolveConfig (w : World) : result (jsstring * jsstring) :=
  let apiKey := setting (lit "apiKey") w in
  let apiUrl := setting (lit "apiUrl") w in
  match apiKey with
  | [] => Throw key_not_set
  | _ => Ok (apiKey, apiUrl)
  end.

(** The test of [getGlobalAI]: no client yet, or one built from other
    settings. *)
Definition stale (c : option (cached Client)) (key url : jsstring) : bool :=
  match c with
  | None => true
  | Some c => negb (str_eqb (apiKey c) key) || negb (str_eqb (apiUrl c) url)
  end.

(** [getGlobalAI()] *)
Definition getGlobalAI (st : ai_state) : ai_state * result Client :=
  match resolveConfig (ai_world st) with
  | Throw e => (st, Throw e)
  | Ok (key, url) =>
      if stale (cachedClient st) key url
      then
        let baseURL := match url with [] => None | _ => Some url end in
        match new_OpenAI key baseURL (ai_world st) with
        | (w, Ok c) => (AiState w (Some (Cached c key url)), Ok c)
        | (w, Throw e) => (AiState w (cachedClient st), Throw e)
        end
      else
        match cachedClient st with
        | Some c => (st, Ok (client c))
        | None => (st, Throw [])        (* not reached: no client is stale *)
        end
  end.

(** [resetGlobalAI()] *)
Definition resetGlobalAI (st : ai_state) : ai_state := AiState (ai_world st) None.

(** The listener [registerAiConfigWatcher] installs, [affects] being
    [event.affectsConfiguration("ai")]. *)
Definition on_configuration_change (affects : bool) (st : ai_state) : ai_state :=
  if affects then resetGlobalAI st else st.

End Cache.

Arguments ai_state : clear implicits.
Arguments AiState {World Client}.

End Config.

(** ** command/generatePaths.js, the rest *)

Module PlanCommand.

(** What [buildExistingPathsSummary] returns. *)
Record paths_summary := PathsSummary {
  ps_directories : list jsstring;
  ps_files : list jsstring;
  ps_total : nat
}.

(** What the prompts of the generation loop read of it. *)
Definition as_summary (s : paths_summary) : summary :=
  Summary (ps_directories s) (ps_files s).

(** The order of [sort()] without a comparator: strings by their code
    units. *)
Fixpoint str_compare (a b : jsstring) : Z :=
  match a, b with
  | [], [] => 0
  | [], _ :: _ => -1
  | _ :: _, [] => 1
  | x :: a', y :: b' =>
      if (x <? y)%N then -1
      else if (y <? x)%N then 1
      else str_compare a' b'
  end%Z.

(** [a] comes before [b], or is [b], in that order. *)
Definition str_le (a b : jsstring) : Prop := (str_compare a b <= 0)%Z.

(** The rule the prompts state about the kinds of path. *)
Inductive type_rule := both_kinds | directories_only | files_only.

(** [options]: a field that is not a boolean is [None]. *)
Record plan_options := PlanOptions {
  opt_path : option bool;
  opt_file : option bool
}.

Definition typeRule (options : option plan_options) : type_rule :=
  let wantDir := match options with
                 | Some o => default true (opt_path o)
                 | None => true
                 end in
  let wantFile := match options with
                  | Some o => default true (opt_file o)
                  | None => true
                  end in
  if wantDir && negb wantFile then directories_only
  else if negb wantDir && wantFile then files_only
  else both_kinds.

(** [JSON.stringify] of an array of strings that need no escape. *)
Definition stringify_plain (l : list string) : jsstring :=
  lit "[" ++ join (lit ",") (map quoted l) ++ lit "]".

(** The two arrays of [fallbackResponse] and the object itself. *)
Definition fallback_paths : list string :=
  ["src/components"; "src/utils"; "src/hooks"; "src/styles"; "src/assets"]%string.

Definition fallback_files : list string :=
  ["src/components/Button.jsx"; "src/components/Header.jsx";
   "src/components/Footer.jsx"; "src/utils/helpers.js";
   "src/utils/constants.js"; "src/hooks/useLocalStorage.js";
   "src/hooks/useApi.js"; "src/styles/global.css";
   "src/styles/components.css"]%string.

Definition fallbackResponse : json :=
  JObj [(lit "paths", JArr (map (fun s => JStr (lit s)) fallback_paths));
        (lit "files", JArr (map (fun s => JStr (lit s)) fallback_files))].

(** [JSON.stringify(fallbackResponse)] *)
Definition fallback_text : jsstring :=
  lit "{" ++ quoted "paths" ++ lit ":" ++ stringify_plain fallback_paths
  ++ lit "," ++ quoted "files" ++ lit ":" ++ stringify_plain fallback_files
  ++ lit "}".

(** The workspace scan, the platform's [path.dirname], the model
    endpoint asked for a JSON object and the console.  [create_json]
    returns [response.choices[0]?.message?.content], [None] when it is
    missing; it throws when the request or the read of [choices[0]]
    does.  The two prompt texts of [requestPathPlan] are functions of
    what their template literals interpolate. *)
Class Planner (World Uri Client : Type) := {
  findFiles : nat -> World -> World * result (list Uri);
  asRelativePath : Uri -> World -> jsstring;
  dirname : jsstring -> jsstring;
  create_json : Client -> jsstring -> jsstring -> jsstring ->
                World -> World * result (option jsstring);
  console_log : option jsstring -> World -> World;
  console_warn : jsstring -> World -> World;
  planSystemPromptOf : paths_summary -> type_rule -> jsstring;
  planUserPromptOf : jsstring -> type_rule -> jsstring
}.

Section Plan.

Context {World Uri Doc Client : Type}
        {H : Host World Uri Doc Client} {PL : Planner World Uri Client}.

Local Notation "x <- m ;; k" := (and_then m (fun x => k))
  (at level 100, m at next level, k at level 200, right associativity).
Local Notation "m ;;; k" := (and_then m (fun _ => k))
  (at level 100, k at level 200, right associativity).

(** The body of the loop of [buildExistingPathsSummary]: [directories]
    is a [Set] in insertion order. *)
Definition scan_file (w : World) (acc : list jsstring * list jsstring) (fileUri : Uri)
    : list jsstring * list jsstring :=
  let '(directories, filePaths) := acc in
  let relativePath := asRelativePath fileUri w in
  let dir := dirname relativePath in
  (if str_eqb dir (lit ".") then directories else set_add dir directories,
   filePaths ++ [relativePath]).

(** [buildExistingPathsSummary(workspaceFolder, limit)]; the function
    does not read its first argument. *)
Definition buildExistingPathsSummary (limit : nat) : W World paths_summary :=
  catch
    (files <- findFiles limit ;;
     scanned <- read (fun w => fold_left (scan_file w) files ([], [])) ;;
     let dirList := Array_sort str_compare scanned.1 in
     let fileList := Array_sort str_compare scanned.2 in
     pure (PathsSummary dirList fileList (length dirList + length fileList)))
    (fun _ => pure (PathsSummary [] [] 0)).

(** [callAIAPI(model, systemPrompt, userPrompt)] *)
Definition callAIAPI (model systemPrompt userPrompt : jsstring) : W World response :=
  catch
    (client <- getGlobalAI ;;
     content <- create_json client model systemPrompt userPrompt ;;
     total (console_log content) ;;;
     match content with
     | None | Some [] => throw (lit "No response content from AI")
     | Some text => pure (Response (Some text) None)
     end)
    (fun message =>
       total (console_warn (lit "AI API failed: " ++ message
                            ++ lit ", using comprehensive fallback")) ;;;
       pure (Response (Some fallback_text) None)).

(** The three ways the request of [callAIAPI] fails: no client, a
    request that throws, a response without content. *)
Definition api_fails (model systemPrompt userPrompt : jsstring) (w : World) : Prop :=
  match getGlobalAI w with
  | (_, Throw _) => True
  | (w1, Ok client) =>
      match create_json client model systemPrompt userPrompt w1 with
      | (_, Throw _) | (_, Ok None) | (_, Ok (Some [])) => True
      | (_, Ok (Some (_ :: _))) => False
      end
  end.

(** [requestPathPlan(model, instructions, existingPathsSummary, options)] *)
Definition requestPathPlan (model instructions : jsstring)
    (existingPathsSummary : paths_summary) (options : option plan_options)
    : W World json :=
  let rule := typeRule options in
  let systemPrompt := planSystemPromptOf existingPathsSummary rule in
  let userPrompt := planUserPromptOf instructions rule in
  catch
    (response <- callAIAPI model systemPrompt userPrompt ;;
     of_result (parseJSONResponse response))
    (fun message => throw (lit "AI API Error: " ++ message)).

(** The body of the loop of [createPathArtifacts]: a directory is
    created, and for a file its parent directory; the file is not
    written. *)
Definition create_artifact (workspaceUri : Uri) (it : item) : W World unit :=
  let fullPath := joinPath workspaceUri (path it) in
  match pathKind it with
  | directory => createDirectory fullPath
  | file => createDirectory (joinPath fullPath (lit ".."))
  end.




(** [createPathArtifacts(workspaceUri, selections)] *)
Fixpoint artifacts_loop (workspaceUri : Uri) (selections : list item)
    (failed : list failure) : W World (list failure) :=
  match selections with
  | [] => pure failed
  | it :: rest =>
      failed' <- catch (create_artifact workspaceUri it ;;; pure failed)
                   (fun message => pure (failed ++ [Failure (path it) message])) ;;
      artifacts_loop workspaceUri rest failed'
  end.

Definition createPathArtifacts (workspaceUri : Uri) (selections : list item)
    : W World (list failure) :=
  artifacts_loop workspaceUri selections [].

End Plan.

End PlanCommand.

(** ** command/storePrompt.js, the rest *)

Module PromptRun.

Import PlanCommand.

(** [item.pathKind === "file"] *)
Definition is_file (it : item) : bool :=
  match pathKind it with file => true | directory => false end.

(** [extractFileItemsFromPlan(planPayload)] *)
Definition extractFileItemsFromPlan (P : path_module) (planPayload : json) : list item :=
  filter (fun it => is_file it = true) (coerceGeneratedPaths P planPayload).

(** What the form posts back: the picks of each choice token, by index,
    and the values of the simple names.  A missing list of picks, or one
    that is not an array, counts as no pick. *)
Record form_result := FormResult {
  choiceSelections : list (list jsstring);
  simpleValues : gmap jsstring jsstring
}.

(** The replacement of the choice token of rank [index]: its picks joined,
    or its declared default. *)
Definition choice_selection (fr : form_result) (index : nat) (t : token) : jsstring :=
  match default [] (choiceSelections fr !! index) with
  | [] => str_or (default [] (default_ t)) []
  | picks => join (lit ", ") picks
  end.

(** The [validateInput] of [promptForPathAdjustment]: [None] accepts the
    input. *)
Definition validate_path (P : path_module) (input : jsstring) : option jsstring :=
  match trim input with
  | [] => Some (lit "Path is required")
  | t => match normalizeSegments P t with
         | Ok _ => None
         | Throw message => Some message
         end
  end.

(** A [Map] in insertion order: [map.set(key, value)]. *)
Fixpoint Map_set {V} (key : jsstring) (value : V) (m : list (jsstring * V))
    : list (jsstring * V) :=
  match m with
  | [] => [(key, value)]
  | (k, v) :: m' =>
      if str_eqb k key then (k, value) :: m' else (k, v) :: Map_set key value m'
  end.

(** What [promptForPathAdjustment] returns: [{ path }]. *)
Record selection := Selection { sel_path : jsstring }.

(** The [reduce] of [runPromptExecution] and what is read off its map. *)
Definition dedupe (editedSelections : list selection) : list selection :=
  map snd (fold_left (fun m it => Map_set (sel_path it) it m) editedSelections []).

Definition FALLBACK_MODEL : jsstring := lit "gpt-4.1-mini".

Definition no_files_proposed : jsstring :=
  [65; 73; 32; 3652; 3617; 3656; 3652; 3604; 3657; 3648; 3626; 3609; 3629; 3652;
   3615; 3621; 3660; 3651; 3627; 3657; 3626; 3619; 3657; 3634; 3591]%N.

Definition no_file_selected : jsstring :=
  [3652; 3617; 3656; 3617; 3637; 3652; 3615; 3621; 3660; 3606; 3641; 3585; 3648;
   3621; 3639; 3629; 3585]%N.

(** The windows of the editor.  [showInputBox_path] is the input box of
    [promptForPathAdjustment], with the template name, the initial value
    and [validateInput]; [pickFiles] is the quick pick of the files of a
    plan, which returns the paths picked; [pickOverwrite] the one that
    asks what to do with existing files, [true] being [overwrite];
    [None] is [undefined], a window that was dismissed.
    [report_increment] is [progress.report({ increment })] and
    [config_model] is [config.get("ai.model")]. *)
Class Ui (World Uri : Type) := {
  workspaceFolders : World -> option (list Uri);
  showErrorMessage : jsstring -> World -> World;
  showInformationMessage : jsstring -> World -> World;
  showInputBox_path : jsstring -> jsstring -> (jsstring -> option jsstring) ->
                      World -> World * result (option jsstring);
  pickFiles : list jsstring -> World -> World * result (option (list jsstring));
  pickOverwrite : World -> World * result (option bool);
  openPromptForm : list jsstring -> list token -> jsstring ->
                   World -> World * result (option form_result);
  report_increment : nat -> World -> World;
  config_model : World -> option jsstring
}.

Section Run.

Context {World Uri Doc Client : Type}
        {H : Host World Uri Doc Client} {PL : Planner World Uri Client}
        {U : Ui World Uri}.

Local Notation "x <- m ;; k" := (and_then m (fun x => k))
  (at level 100, m at next level, k at level 200, right associativity).
Local Notation "m ;;; k" := (and_then m (fun _ => k))
  (at level 100, k at level 200, right associativity).

(** [collectPromptValues(context, templateContent)]: [None] when a scan
    of the template does not end; the computation returns [None] for
    [undefined], a form that was closed. *)
Definition collectPromptValues (templateContent : jsstring)
    : option (W World (option jsstring)) :=
  choiceTokens ← parseChoicePlaceholders templateContent;
  let templateWithoutChoices :=
    fillChoicePlaceholders templateContent (map (fun _ => []) choiceTokens) in
  simplePlaceholders ← parsePlaceholders templateWithoutChoices;
  Some
    (match choiceTokens, simplePlaceholders with
     | [], [] => pure (Some templateContent)
     | _, _ =>
         formResult <- openPromptForm simplePlaceholders choiceTokens templateContent ;;
         match formResult with
         | None => pure None
         | Some fr =>
             let choiceSelections := imap (choice_selection fr) choiceTokens in
             let afterChoiceFilled :=
               fillChoicePlaceholders templateContent choiceSelections in
             pure (Some (fillPlaceholders afterChoiceFilled (simpleValues fr)))
         end
     end).

(** [promptForPathAdjustment(initialPath, templateName)] *)
Definition promptForPathAdjustment (P : path_module) (initialPath templateName : jsstring)
    : W World (option selection) :=
  catch
    (value <- showInputBox_path templateName initialPath (validate_path P) ;;
     match value with
     | None => pure None
     | Some v =>
         normalized <- of_result (normalizeSegments P (trim v)) ;;
         pure (Some (Selection normalized))
     end)
    (fun message => total (showErrorMessage message) ;;; pure None).

(** The loop of [runPromptExecution] over the files picked: [None] when
    a path prompt was dismissed. *)
Fixpoint adjust_loop (P : path_module) (templateName : jsstring)
    (selected : list jsstring) (editedSelections : list selection)
    : W World (option (list selection)) :=
  match selected with
  | [] => pure (Some editedSelections)
  | chosen :: rest =>
      updated <- promptForPathAdjustment P chosen templateName ;;
      match updated with
      | None => pure None
      | Some u => adjust_loop P templateName rest (editedSelections ++ [u])
      end
  end.

(** What [runPromptExecution] settles before it generates. *)
Record generation := Generation {
  g_workspace : Uri;
  g_model : jsstring;
  g_paths : list jsstring;
  g_overwriteAll : bool;
  g_summary : paths_summary
}.

(** [runPromptExecution(finalPrompt, templateName)] up to the call of
    [generateFilesFromPrompt]: [None] when it returns before. *)
Definition prepare_generation (P : path_module) (finalPrompt templateName : jsstring)
    : W World (option generation) :=
  folders <- read workspaceFolders ;;
  match folders with
  | None | Some [] =>
      total (showErrorMessage (lit "No workspace folder is open")) ;;; pure None
  | Some (workspaceFolder :: _) =>
      existingSummary <- buildExistingPathsSummary 100 ;;
      total (report_increment 0) ;;;
      configured <- read config_model ;;
      let model := str_or (default [] configured) FALLBACK_MODEL in
      planPayload <- requestPathPlan model finalPrompt existingSummary
                       (Some (PlanOptions (Some true) (Some true))) ;;
      total (report_increment 100) ;;;
      let generated := extractFileItemsFromPlan P planPayload in
      match generated with
      | [] => total (showInformationMessage no_files_proposed) ;;; pure None
      | _ =>
          selected <- pickFiles (map path generated) ;;
          match selected with
          | None | Some [] =>
              total (showInformationMessage no_file_selected) ;;; pure None
          | Some selected =>
              edited <- adjust_loop P templateName selected [] ;;
              match edited with
              | None => pure None
              | Some editedSelections =>
                  let dedupedSelections := dedupe editedSelections in
                  overwriteChoice <- pickOverwrite ;;
                  match overwriteChoice with
                  | None => pure None
                  | Some overwriteAll =>
                      generation_model <- read config_model ;;
                      pure (Some (Generation workspaceFolder
                                    (str_or (default [] generation_model) FALLBACK_MODEL)
                                    (map sel_path dedupedSelections)
                                    overwriteAll existingSummary))
                  end
              end
          end
      end
  end.

(** [runPromptExecution(finalPrompt, templateName)]: the world it ends
    in, the four arrays of the loop being read by the closing message
    only. *)
Definition runPromptExecution (P : path_module) (finalPrompt templateName : jsstring)
    : W World unit :=
  prepared <- prepare_generation P finalPrompt templateName ;;
  match prepared with
  | None => pure tt
  | Some g =>
      fun w =>
        let '(st, r) :=
          generateFilesFromPrompt (g_workspace g) (g_model g) finalPrompt
            (g_paths g) (g_overwriteAll g) (as_summary (g_summary g)) w in
        (world st, r)
  end.

End Run.

End PromptRun.

(** ** A small editor to run the commands on

    The host of the generation loop with a workspace scan that returns the
    existing files, a plan endpoint that is down for the instructions named
    in [no_model] and answers the other instructions with their own text,
    an input box that returns its initial value when the validation
    accepts it, pick lists that return every choice and a form that is
    sent back with no pick and no value.  The settings are one optional key,
    and a client is known by the key it was built with. *)

Module SimEditor.

Import Sim PlanCommand PromptRun.

(** [path.dirname] of a relative POSIX path that does not end with a
    separator: the path without its last component, and [.] when it has
    one component only. *)
Definition sim_dirname (p : jsstring) : jsstring :=
  match rev (split_on is_slash p) with
  | _ :: parent :: parents => join (lit "/") (rev (parent :: parents))
  | _ => lit "."
  end.

(** Instructions that are a plan. *)
Definition sim_plan : jsstring :=
  lit "{" ++ quoted "files" ++ lit ":"
  ++ stringify_plain ["src/app.js"; "./src/app.js"; "docs/readme.md"]%string ++ lit "}".

#[export] Instance sim_planner : Planner sim jsstring unit := {|
  findFiles limit w := (w, Ok (take limit (existing w)));
  asRelativePath u _ := u;
  dirname := sim_dirname;
  create_json _ _ _ user w :=
    if mem user (no_model w) then (w, Throw (lit "503")) else (w, Ok (Some user));
  console_log _ w := w;
  console_warn _ w := w;
  planSystemPromptOf _ _ := [];
  planUserPromptOf instructions _ := instructions
|}.

#[export] Instance sim_ui : Ui sim jsstring := {|
  workspaceFolders _ := Some [lit "ws"];
  showErrorMessage _ w := w;
  showInformationMessage _ w := w;
  showInputBox_path _ initial validate w :=
    match validate initial with
    | None => (w, Ok (Some initial))
    | Some _ => (w, Ok None)
    end;
  pickFiles choices w := (w, Ok (Some choices));
  pickOverwrite w := (w, Ok (Some false));
  openPromptForm _ _ _ w := (w, Ok (Some (FormResult [] ∅)));
  report_increment _ w := w;
  config_model _ := None
|}.

#[export] Instance sim_settings : Config.Settings (option jsstring) jsstring := {|
  Config.config_get key w := if str_eqb key (lit "apiKey") then w else None;
  Config.new_OpenAI key _ w := (w, Ok key)
|}.

End SimEditor.

(** * Properties *)

Import Spec.

(** Literals are evaluated to their code units once and for all. *)
Ltac unlit :=
  repeat match goal with
    | |- context [lit ?s] =>
        let v := eval vm_compute in (lit s) in change (lit s) with v
    | |- context [ch ?c] =>
        let v := eval vm_compute in (ch c) in change (ch c) with v
    end.

(** ** Strings *)

Lemma str_eqb_eq (a b : jsstring) : str_eqb a b = true ↔ a = b.
Proof.
  revert b. induction a as [|x a IH]; intros [|y b]; simpl; try (split; congruence).
  unfold code_eqb. rewrite andb_true_iff, IH, N.eqb_eq. split.
  - intros [-> ->]. reflexivity.
  - intros [= -> ->]. auto.
Qed.

Lemma str_eqb_refl (a : jsstring) : str_eqb a a = true.
Proof. apply str_eqb_eq. reflexivity. Qed.

Lemma str_eqb_neq (a b : jsstring) : str_eqb a b = false ↔ a ≠ b.
Proof.
  rewrite <- str_eqb_eq. destruct (str_eqb a b); split; congruence.
Qed.

Lemma startsWith_slash (s : jsstring) :
  startsWith s (lit "/") = true ↔ starts_with_slash s.
Proof.
  unfold starts_with_slash. unlit. destruct s as [|c s]; simpl.
  - split; [discriminate | intros [? [=]]].
  - unfold code_eqb. rewrite andb_true_r, N.eqb_eq. split.
    + intros ->. eauto.
    + intros [? [= -> _]]. reflexivity.
Qed.

(** ** Path Normalizer *)

Lemma search_drive_later (s : jsstring) (pos : nat) :
  pos ≠ 0 → search driveRe pos s = None.
Proof.
  revert pos. induction s as [|c s IH]; intros pos Hpos; simpl;
    unfold match_at; simpl; destruct pos; try congruence; simpl; auto.
Qed.

Lemma test_driveRe (s : jsstring) :
  test driveRe s =
  match s with
  | c :: c2 :: _ => ((65 <=? c) && (c <=? 90))%N && (ch ":" =? c2)%N
  | _ => false
  end.
Proof.
  unfold test, exec. simpl length. rewrite drop_0.
  destruct s as [|c s]; [reflexivity|].
  change (search driveRe 0 (c :: s))
    with (match match_at driveRe 0 (c :: s) with
          | Some m => Some m
          | None => search driveRe 1 s
          end).
  rewrite search_drive_later by lia.
  unfold match_at, driveRe. unlit. cbn [seqs rmatch one ms_pos ms_rest ms_caps Nat.eqb].
  destruct ((65 <=? c)%N && (c <=? 90)%N); [|destruct s; reflexivity].
  destruct s as [|c2 s]; [reflexivity|].
  rewrite andb_true_l. destruct (58 =? c2)%N; reflexivity.
Qed.

Lemma test_driveRe_upper (s : jsstring) :
  test driveRe s = true ↔ has_upper_drive_prefix s.
Proof.
  rewrite test_driveRe. unfold has_upper_drive_prefix. unlit.
  destruct s as [|c [|c2 s]].
  - split; [discriminate | intros (? & ? & [=] & _)].
  - split; [discriminate | intros (? & ? & [=] & _)].
  - rewrite !andb_true_iff, !N.leb_le, N.eqb_eq. split.
    + intros [[? ?] <-]. exists c, s. auto.
    + intros (c' & rest & [= -> <- ->] & ? & ?). auto.
Qed.

Lemma normalize_loop_spec (segs acc : list jsstring) :
  normalize_loop segs acc =
  if decide (lit ".." ∈ segs)
  then Throw (lit "Parent directory references not allowed")
  else Ok (join (lit "/") (acc ++ filter (λ seg, seg ≠ lit ".") segs)).
Proof.
  revert acc. induction segs as [|seg segs IH]; intros acc.
  - case_decide as Hin; [by apply elem_of_nil in Hin|].
    simpl. rewrite app_nil_r. reflexivity.
  - cbn [normalize_loop]. destruct (str_eqb seg (lit ".")) eqn:Hdot.
    + apply str_eqb_eq in Hdot. subst seg. rewrite IH.
      rewrite filter_cons_False by auto.
      repeat case_decide; try reflexivity.
      * exfalso. set_solver.
      * exfalso. apply elem_of_cons in H0 as [Heq|?]; [discriminate Heq|auto].
    + apply str_eqb_neq in Hdot.
      destruct (str_eqb seg (lit "..")) eqn:Hdd.
      * apply str_eqb_eq in Hdd. subst seg.
        rewrite decide_True by left. reflexivity.
      * apply str_eqb_neq in Hdd. rewrite IH, filter_cons_True by exact Hdot.
        rewrite <- app_assoc. simpl app.
        repeat case_decide; try reflexivity.
        -- exfalso. set_solver.
        -- exfalso. apply elem_of_cons in H0 as [Heq|?]; [congruence|auto].
Qed.

Lemma nonempty_segments (s : jsstring) :
  filter (λ seg : jsstring, 0 < length seg) (split_on is_separator s)
  = filter (λ seg : jsstring, seg ≠ []) (segments s).
Proof.
  unfold segments. apply list_filter_iff. intros [|c seg]; simpl; split; try lia; congruence.
Qed.

(** What [normalizeSegments] does, whatever the platform. *)
Lemma normalizeSegments_spec (P : path_module) (s : jsstring) :
  normalizeSegments P s =
  if isAbsolute P s || startsWith s (lit "/") || test driveRe s
  then Throw (lit "Absolute paths not allowed")
  else if decide (lit ".." ∈ segments s)
       then Throw (lit "Parent directory references not allowed")
       else Ok (rejoined s).
Proof.
  unfold normalizeSegments.
  destruct (isAbsolute P s || startsWith s (lit "/") || test driveRe s); [reflexivity|].
  rewrite normalize_loop_spec, nonempty_segments. simpl app.
  rewrite list_filter_filter. unfold rejoined.
  rewrite (list_filter_iff (λ a : jsstring, a ≠ lit "." ∧ a ≠ [])
             (λ seg : jsstring, seg ≠ [] ∧ seg ≠ lit ".")) by tauto.
  destruct (decide (lit ".." ∈ segments s)) as [Hin|Hin].
  - rewrite decide_True; [reflexivity|].
    apply list_elem_of_filter. split; [discriminate|exact Hin].
  - rewrite decide_False; [reflexivity|].
    intros [_ ?]%list_elem_of_filter. auto.
Qed.

Lemma posix_isAbsolute (s : jsstring) :
  isAbsolute posix s = startsWith s (lit "/").
Proof.
  unlit. destruct s as [|c s]; simpl; [reflexivity|].
  unfold code_eqb, is_slash. rewrite andb_true_r. reflexivity.
Qed.

Lemma normalize_throws (P : path_module) (s : jsstring) :
  is_throw (normalizeSegments P s) = true ↔
  isAbsolute P s = true ∨ starts_with_slash s ∨ has_upper_drive_prefix s
  ∨ lit ".." ∈ segments s.
Proof.
  rewrite normalizeSegments_spec.
  rewrite <- startsWith_slash, <- test_driveRe_upper.
  destruct (isAbsolute P s); cbn [orb is_throw]; [split; auto|].
  destruct (startsWith s (lit "/")); cbn [orb is_throw]; [split; auto|].
  destruct (test driveRe s); cbn [orb is_throw]; [split; auto|].
  destruct (decide (lit ".." ∈ segments s)); cbn [is_throw]; split; auto.
  intros [|[|[|]]]; congruence.
Qed.

Lemma normalize_posix_throws (s : jsstring) :
  is_throw (normalizeSegments posix s) = true ↔
  starts_with_slash s ∨ has_upper_drive_prefix s ∨ lit ".." ∈ segments s.
Proof.
  rewrite normalize_throws, posix_isAbsolute, startsWith_slash. tauto.
Qed.

Lemma normalize_returns (P : path_module) (s : jsstring) :
  is_throw (normalizeSegments P s) = false ↔ normalizeSegments P s = Ok (rejoined s).
Proof.
  rewrite normalizeSegments_spec.
  destruct (isAbsolute P s || startsWith s (lit "/") || test driveRe s);
    simpl; [split; discriminate|].
  destruct (decide (lit ".." ∈ segments s)); simpl; split; congruence.
Qed.

(** C1 (as amended): [normalizeSegments] throws if and only if the string
    is absolute for the [path] module of the host, or starts with [/], or
    starts with one of the letters [A] to [Z] followed by a colon, or has a
    segment equal to [..]; on a POSIX host the first case is the second.
    Otherwise it returns the segments that are neither empty nor [.],
    joined with [/].  So [a/./b/../c] is refused and [a/./b/c] yields
    [a/b/c], on a POSIX host and on a Windows host. *)
Theorem C1_normalize_posix (s : jsstring) :
  (∀ P, is_throw (normalizeSegments P s) = true ↔
        isAbsolute P s = true ∨ starts_with_slash s ∨ has_upper_drive_prefix s
        ∨ lit ".." ∈ segments s)
  ∧ (is_throw (normalizeSegments posix s) = true ↔
     starts_with_slash s ∨ has_upper_drive_prefix s ∨ lit ".." ∈ segments s)
  ∧ (∀ P, is_throw (normalizeSegments P s) = false ↔
          normalizeSegments P s = Ok (rejoined s))
  ∧ is_throw (normalizeSegments posix (lit "a/./b/../c")) = true
  ∧ normalizeSegments posix (lit "a/./b/c") = Ok (lit "a/b/c")
  ∧ is_throw (normalizeSegments win32 (lit "a/./b/../c")) = true
  ∧ normalizeSegments win32 (lit "a/./b/c") = Ok (lit "a/b/c").
Proof.
  split; [intros P; apply normalize_throws|].
  split; [apply normalize_posix_throws|].
  split; [intros P; apply normalize_returns|].
  repeat split; vm_compute; reflexivity.
Qed.

(** C1 as the specification words it, a drive letter being a letter of
    either case, fails on a POSIX host: [c:\x] has a drive-letter prefix and
    is accepted. *)
Lemma C1_counterexample : ¬ normalize_contract (normalizeSegments posix).
Proof.
  intros Hc. specialize (Hc (lit "c:\x")). destruct Hc as [_ Hc].
  assert (Hthrow : is_throw (normalizeSegments posix (lit "c:\x")) = true).
  { apply Hc. right. left. exists (ch "c"), (lit "\x"). split; reflexivity. }
  vm_compute in Hthrow. discriminate.
Qed.

(** C10: the pattern that refuses drive letters matches the letters [A] to
    [Z] only, and on a POSIX host [c:\x] is not refused: it comes back as
    [c:/x]. *)
Theorem C10_lowercase_drive_accepted :
  (∀ s, test driveRe s = true ↔
        ∃ c rest, s = c :: ch ":" :: rest ∧ (65 ≤ c ≤ 90)%N)
  ∧ has_drive_prefix (lit "c:\x")
  ∧ normalizeSegments posix (lit "c:\x") = Ok (lit "c:/x").
Proof.
  split; [exact test_driveRe_upper|]. split.
  - exists (ch "c"), (lit "\x"). split; reflexivity.
  - vm_compute. reflexivity.
Qed.

(** ** The host platform matters *)

(** A leading backslash is an absolute path for the Windows [path] module
    and an ordinary character for the POSIX one. *)
Example normalize_leading_backslash :
  is_throw (normalizeSegments win32 (lit "\x")) = true
  ∧ normalizeSegments posix (lit "\x") = Ok (lit "x").
Proof. split; vm_compute; reflexivity. Qed.

(** The example of the Plan Builder gives the same plan on both platforms. *)
Example plan_example_win32 :
  coerceGeneratedPaths win32
    (JObj [(lit "paths", JArr [JStr (lit "src/app.js"); JStr (lit "src/lib")]);
           (lit "files", JArr [JStr (lit "src/app.js")])])
  = [Item (lit "src/app.js") file (Some []); Item (lit "src/lib") directory None].
Proof. vm_compute. reflexivity. Qed.

(** On a Windows host the contract as the specification words it fails on
    that input, whatever the case of a drive letter. *)
Lemma normalize_contract_win32 : ¬ normalize_contract (normalizeSegments win32).
Proof.
  intros Hc. destruct (Hc (lit "\x")) as [Hc' _].
  destruct Hc' as [[rest Hs]|[(c & rest & Hs & _)|Hin]].
  - vm_compute. reflexivity.
  - discriminate Hs.
  - discriminate Hs.
  - vm_compute in Hin.
    repeat (apply elem_of_cons in Hin as [Hin|Hin]; [discriminate Hin|]).
    apply elem_of_nil in Hin as [].
Qed.

(** ** Plan Builder *)

Lemma filter_all {A} (Q : A → Prop) `{!∀ x, Decision (Q x)} (l : list A) :
  (∀ x, x ∈ l → Q x) → filter Q l = l.
Proof.
  induction l as [|x l IH]; intros Hall; [reflexivity|].
  rewrite filter_cons_True by (apply Hall; left).
  f_equal. apply IH. intros y Hy. apply Hall. right. exact Hy.
Qed.

Section PlanBuilder.

Context (P : path_module).

Implicit Types (l : list item) (x y : item) (U : gset jsstring).

Lemma first_wins_elem l x :
  x ∈ first_wins l ↔ ∃ pre post, l = pre ++ x :: post ∧ path x ∉ path <$> pre.
Proof.
  induction l as [|y l IH]; simpl.
  - split; [intros []%elem_of_nil|]. intros ([|??] & ? & [=] & _).
  - rewrite elem_of_cons, list_elem_of_filter, IH. split.
    + intros [->|[Hne (pre & post & -> & Hpre)]].
      * exists [], l. split; [reflexivity|]. apply not_elem_of_nil.
      * exists (y :: pre), post. split; [reflexivity|].
        rewrite fmap_cons. intros [?|?]%elem_of_cons; auto.
    + intros ([|z pre] & post & [= -> ->] & Hpre); [left; reflexivity|].
      right. rewrite fmap_cons in Hpre. split.
      * intros Heq. apply Hpre. rewrite Heq. left.
      * exists pre, post. split; [reflexivity|].
        intros ?. apply Hpre. right. assumption.
Qed.

Lemma first_wins_subset l x : x ∈ first_wins l → x ∈ l.
Proof.
  intros (pre & post & -> & _)%first_wins_elem.
  apply elem_of_app. right. left.
Qed.

Lemma first_wins_paths l (p : jsstring) :
  p ∈ path <$> first_wins l ↔ p ∈ path <$> l.
Proof.
  split.
  - intros (x & -> & Hx)%list_elem_of_fmap.
    apply list_elem_of_fmap_2, first_wins_subset, Hx.
  - induction l as [|y l IH]; cbn [first_wins]; [auto|].
    rewrite !fmap_cons. intros [->|Hin]%elem_of_cons; [left|].
    destruct (decide (p = path y)) as [->|Hne]; [left|]. right.
    apply IH in Hin as (x & -> & Hx)%list_elem_of_fmap.
    apply list_elem_of_fmap_2, list_elem_of_filter. auto.
Qed.

Lemma first_wins_NoDup l : NoDup (path <$> first_wins l).
Proof.
  induction l as [|y l IH]; cbn [first_wins]; [constructor|].
  rewrite fmap_cons. constructor.
  - intros (x & Heq & [Hne _]%list_elem_of_filter)%list_elem_of_fmap. auto.
  - apply (sublist_NoDup _ (path <$> first_wins l)); [exact IH|].
    apply fmap_sublist, sublist_filter.
Qed.

Lemma first_wins_sublist l : first_wins l `sublist_of` l.
Proof.
  induction l as [|y l IH]; simpl; [constructor|].
  constructor. etrans; [apply sublist_filter|exact IH].
Qed.

Lemma first_wins_app l1 l2 :
  first_wins (l1 ++ l2)
  = first_wins l1 ++ filter (λ y, path y ∉ path <$> l1) (first_wins l2).
Proof.
  induction l1 as [|x l1 IH]; cbn [first_wins app].
  - symmetry. apply filter_all. intros y _. apply not_elem_of_nil.
  - f_equal. rewrite IH, filter_app, list_filter_filter. f_equal.
    apply list_filter_iff. intros y. rewrite fmap_cons, not_elem_of_cons. tauto.
Qed.

(** One round of either loop, in terms of the candidate it accepts. *)
Lemma accept_spec (forced : bool) (val : json) U (R : list item) :
  accept P (if forced then (λ _, file) else inferPathKind P) val (U, R)
  = match valid_candidate P forced val with
    | Some x => if decide (path x ∈ U) then (U, R) else ({[path x]} ∪ U, R ++ [x])
    | None => (U, R)
    end.
Proof.
  unfold accept, valid_candidate. destruct val as [| | |s| |]; try reflexivity.
  destruct (normalizeSegments P s) as [n|]; [|reflexivity].
  destruct n as [|c n]; [reflexivity|].
  rewrite bool_decide_eq_false_2 by discriminate. rewrite orb_false_l.
  destruct forced.
  - simpl path. case_decide; [rewrite bool_decide_eq_true_2 by assumption
                             |rewrite bool_decide_eq_false_2 by assumption];
      reflexivity.
  - destruct (inferPathKind P (c :: n)); simpl path;
      (case_decide; [rewrite bool_decide_eq_true_2 by assumption
                    |rewrite bool_decide_eq_false_2 by assumption]);
      reflexivity.
Qed.

Lemma accept_loop (forced : bool) (vals : list json) U (R : list item) :
  fold_left (λ st val, accept P (if forced then (λ _, file) else inferPathKind P) val st)
    vals (U, R)
  = (U ∪ list_to_set
           (path <$> filter (λ y, path y ∉ U)
                       (first_wins (omap (valid_candidate P forced) vals))),
     R ++ filter (λ y, path y ∉ U)
            (first_wins (omap (valid_candidate P forced) vals))).
Proof.
  revert U R. induction vals as [|val vals IH]; intros U R.
  - cbn. rewrite app_nil_r. f_equal. set_solver.
  - cbn [fold_left omap list_omap]. rewrite accept_spec.
    destruct (valid_candidate P forced val) as [x|]; [|apply IH].
    cbn [first_wins]. destruct (decide (path x ∈ U)) as [Hin|Hin].
    + rewrite IH. rewrite filter_cons_False by auto.
      rewrite list_filter_filter.
      rewrite (list_filter_iff (λ y, (path y ∉ U) ∧ path y ≠ path x) (λ y, path y ∉ U));
        [reflexivity|].
      intros y. split; [tauto|]. intros Hy. split; [exact Hy|congruence].
    + rewrite IH. rewrite filter_cons_True by assumption.
      rewrite list_filter_filter.
      rewrite (list_filter_iff (λ y, (path y ∉ U) ∧ path y ≠ path x)
                 (λ y, path y ∉ ({[path x]} ∪ U))) by set_solver.
      rewrite fmap_cons, <- app_assoc. cbn [app]. f_equal. set_solver.
Qed.

Lemma coerceGeneratedPaths_first_wins (payload : json) :
  coerceGeneratedPaths P payload = first_wins (candidates P payload).
Proof.
  unfold coerceGeneratedPaths, candidates.
  destruct (candidates_of payload) as [dirs files_] eqn:Hc. cbn [fst snd].
  rewrite (accept_loop false dirs ∅ []), (accept_loop true files_). cbn [snd app].
  rewrite first_wins_app.
  rewrite (filter_all _ (first_wins (omap (valid_candidate P false) dirs)))
    by (intros; set_solver).
  f_equal. apply list_filter_iff. intros y.
  rewrite not_elem_of_union, elem_of_list_to_set, first_wins_paths. set_solver.
Qed.

End PlanBuilder.

(** C2: the plan is the list of valid candidates, [paths] or the bare array
    first and [files] after them, in which a candidate is kept exactly when
    no earlier candidate has its normalized path; so no path occurs twice,
    the order of first acceptance is kept, and the example of the
    specification yields [src/app.js] as a file and [src/lib] as a directory. *)
Theorem C2_plan_first_wins (P : path_module) (payload : json) :
  coerceGeneratedPaths P payload = first_wins (candidates P payload)
  ∧ NoDup (path <$> coerceGeneratedPaths P payload)
  ∧ coerceGeneratedPaths P payload `sublist_of` candidates P payload
  ∧ (∀ x, x ∈ coerceGeneratedPaths P payload ↔
          ∃ pre post, candidates P payload = pre ++ x :: post
                      ∧ path x ∉ path <$> pre)
  ∧ coerceGeneratedPaths posix
      (JObj [(lit "paths", JArr [JStr (lit "src/app.js"); JStr (lit "src/lib")]);
             (lit "files", JArr [JStr (lit "src/app.js")])])
    = [Item (lit "src/app.js") file (Some []); Item (lit "src/lib") directory None].
Proof.
  rewrite coerceGeneratedPaths_first_wins.
  split; [reflexivity|]. split; [apply first_wins_NoDup|].
  split; [apply first_wins_sublist|]. split; [apply first_wins_elem|].
  vm_compute. reflexivity.
Qed.

(** ** The JSON parser and the JSON grammar *)

Lemma skip_ws_length (s : jsstring) : length (skip_ws s) ≤ length s.
Proof.
  induction s as [|c s IH]; cbn [skip_ws]; [lia|]. destruct (is_json_ws c); cbn [length]; lia.
Qed.

Lemma chars_at_shorter (s str r : jsstring) : chars_at s str r → length r < length s.
Proof. induction 1; cbn [length] in *; lia. Qed.

(** The text of a string literal is read whole when the fuel is the length
    of the text or more. *)
Lemma parse_chars_complete (s str r : jsstring) :
  chars_at s str r →
  ∀ (fuel : nat) (acc : jsstring),
    length s ≤ fuel → parse_chars fuel s acc = Some (acc ++ str, r).
Proof.
  induction 1 as [r|c s str r H34 H92 H32 _ IH|e u s str r He _ IH
                 |h1 h2 h3 h4 a b c d s str r Ha Hb Hc Hd _ IH];
    intros fuel acc Hfuel; (destruct fuel as [|fuel]; [cbn in Hfuel; lia|]);
    cbn [parse_chars]; cbn [length] in Hfuel.
  - rewrite N.eqb_refl, app_nil_r. reflexivity.
  - rewrite (proj2 (N.eqb_neq _ _) H34), (proj2 (N.eqb_neq _ _) H92),
      (proj2 (N.ltb_ge _ _) H32).
    rewrite IH by lia. rewrite <- app_assoc. reflexivity.
  - change (92 =? 34)%N with false. rewrite N.eqb_refl. cbv iota. rewrite He.
    rewrite IH by lia. rewrite <- app_assoc. reflexivity.
  - change (92 =? 34)%N with false. rewrite N.eqb_refl. cbv iota.
    change (escape_value 117) with (@None N). cbv iota.
    rewrite N.eqb_refl, Ha, Hb, Hc, Hd. rewrite IH by lia.
    rewrite <- app_assoc. reflexivity.
Qed.

Lemma parse_chars_sound :
  ∀ (fuel : nat) (s acc out r : jsstring),
    parse_chars fuel s acc = Some (out, r) →
    ∃ str, out = acc ++ str ∧ chars_at s str r.
Proof.
  induction fuel as [|fuel IH]; intros s acc out r; cbn [parse_chars]; [discriminate|].
  destruct s as [|c s]; [discriminate|].
  destruct (N.eqb_spec c 34) as [->|H34].
  { intros [= <- <-]. exists []. rewrite app_nil_r. split; [reflexivity|constructor]. }
  destruct (N.eqb_spec c 92) as [->|H92].
  - destruct s as [|e s]; [discriminate|].
    destruct (escape_value e) as [u|] eqn:He.
    + intros (str & -> & Hstr)%IH. exists (u :: str). rewrite <- app_assoc.
      split; [reflexivity|]. apply chars_escape; assumption.
    + destruct (N.eqb_spec e 117) as [->|]; [|discriminate].
      destruct s as [|h1 [|h2 [|h3 [|h4 s]]]]; try discriminate.
      destruct (hex_value h1) as [a|] eqn:Ha; [|discriminate].
      destruct (hex_value h2) as [b|] eqn:Hb; [|discriminate].
      destruct (hex_value h3) as [c|] eqn:Hc; [|discriminate].
      destruct (hex_value h4) as [d|] eqn:Hd; [|discriminate].
      intros (str & -> & Hstr)%IH. exists (code_of_hex a b c d :: str).
      rewrite <- app_assoc. split; [reflexivity|]. apply chars_unicode; assumption.
  - destruct (N.ltb_spec c 32) as [|H32]; [discriminate|].
    intros (str & -> & Hstr)%IH. exists (c :: str). rewrite <- app_assoc.
    split; [reflexivity|]. apply chars_plain; assumption.
Qed.

Lemma digits_rest (s : jsstring) :
  ∀ (acc : N) (count : nat) (v : N) (n : nat) (r : jsstring),
    digits s acc count = (v, n, r) →
    length r + n = length s + count ∧ length r ≤ length s.
Proof.
  induction s as [|c s IH]; intros acc count v n r; cbn [digits].
  - intros [= <- <- <-]. split; reflexivity.
  - destruct (is_digit c).
    + intros Hd%IH. cbn [length]. lia.
    + intros [= <- <- <-]. split; reflexivity.
Qed.

(** A number literal starts with a minus sign or a digit, and is not empty. *)
Lemma parse_number_head (s : jsstring) (n : number) (r : jsstring) :
  parse_number s = Some (n, r) →
  length r < length s
  ∧ ∃ c s', s = c :: s' ∧ (c = 45%N ∨ is_digit c = true).
Proof.
  unfold parse_number. intros H. split.
  - match type of H with
    | (let '(_, _) := ?x in _) = _ => destruct x as [neg s1] eqn:Hsign
    end.
    assert (Hs1 : length s1 ≤ length s).
    { destruct s as [|c s']; [injection Hsign as _ <-; lia|].
      destruct (c =? 45)%N; injection Hsign as _ <-; cbn [length]; lia. }
    match type of H with
    | match ?x with Some _ => _ | None => _ end = _ =>
        destruct x as [[i s2]|] eqn:Hint; [|discriminate H]
    end.
    assert (Hs2 : length s2 < length s1).
    { destruct s1 as [|c s1']; [discriminate Hint|].
      destruct (c =? 48)%N; [injection Hint as _ <-; cbn [length]; lia|].
      destruct (is_digit c) eqn:Hd; [|discriminate Hint].
      cbn [digits] in Hint. rewrite Hd in Hint.
      destruct (digits s1' _ 1) as [[v k] r'] eqn:E. apply digits_rest in E.
      injection Hint as _ <-. cbn [length]. lia. }
    match type of H with
    | match ?x with Some _ => _ | None => _ end = _ =>
        destruct x as [[[m fd] s3]|] eqn:Hfrac; [|discriminate H]
    end.
    assert (Hs3 : length s3 ≤ length s2).
    { destruct s2 as [|c s2']; [injection Hfrac as _ _ <-; lia|].
      destruct (c =? 46)%N; [|injection Hfrac as _ _ <-; lia].
      destruct (digits s2' i 0) as [[v k] r'] eqn:E. apply digits_rest in E.
      destruct k; [discriminate Hfrac|]. injection Hfrac as _ _ <-. cbn [length]. lia. }
    destruct s3 as [|c s3']; [injection H as _ <-; lia|].
    destruct ((c =? 101) || (c =? 69))%N; [|injection H as _ <-; lia].
    match type of H with
    | (let '(_, _) := ?x in _) = _ => destruct x as [eneg s4] eqn:Hexp
    end.
    assert (Hs4 : length s4 ≤ length s3').
    { destruct s3' as [|d s3'']; [injection Hexp as _ <-; lia|].
      destruct (d =? 45)%N; [injection Hexp as _ <-; cbn [length]; lia|].
      destruct (d =? 43)%N; injection Hexp as _ <-; cbn [length]; lia. }
    destruct (digits s4 0 0) as [[e k] r'] eqn:E. apply digits_rest in E.
    destruct k; [discriminate H|]. injection H as _ <-. cbn [length] in *. lia.
  - destruct s as [|c s']; [discriminate H|]. exists c, s'. split; [reflexivity|].
    destruct (N.eqb_spec c 45) as [->|]; [left; reflexivity|right].
    destruct (is_digit c) eqn:Hd; [reflexivity|exfalso].
    destruct (N.eqb_spec c 48) as [->|]; [discriminate Hd|]. discriminate H.
Qed.

Lemma startsWith_drop (p s : jsstring) :
  startsWith s p = true → s = p ++ drop (length p) s.
Proof.
  revert s. induction p as [|y p IH]; intros s; cbn [startsWith app length drop].
  - reflexivity.
  - destruct s as [|x s]; [discriminate|]. unfold code_eqb.
    intros [->%N.eqb_eq Hp%IH]%andb_true_iff. cbn [drop]. congruence.
Qed.

Lemma startsWith_app (p r : jsstring) : startsWith (p ++ r) p = true.
Proof.
  induction p as [|y p IH]; cbn [startsWith app]; [reflexivity|].
  unfold code_eqb. rewrite N.eqb_refl. exact IH.
Qed.

(** The tests on the first code unit of a value, at a code unit that is
    given. *)
Ltac first_unit :=
  repeat match goal with
    | |- context [(?a =? ?b)%N] =>
        let v := eval vm_compute in (a =? b)%N in
        match v with
        | true => change (a =? b)%N with true
        | false => change (a =? b)%N with false
        end
    end;
  cbv iota.

Ltac ws_lengths :=
  repeat match goal with
    | H : skip_ws ?a = _ :: _ |- _ =>
        lazymatch goal with
        | _ : length (skip_ws a) ≤ length a |- _ => fail
        | _ => pose proof (skip_ws_length a)
        end
    | |- context [skip_ws ?a] =>
        lazymatch goal with
        | _ : length (skip_ws a) ≤ length a |- _ => fail
        | _ => pose proof (skip_ws_length a)
        end
    | H : context [length (skip_ws ?a)] |- _ =>
        lazymatch goal with
        | _ : length (skip_ws a) ≤ length a |- _ => fail
        | _ => pose proof (skip_ws_length a)
        end
    end;
  repeat match goal with
    | H : skip_ws ?a = _ :: _, H' : context [length (skip_ws ?a)] |- _ =>
        rewrite H in H'; cbn [length] in H'
    end.

(** A value, the elements of an array and the members of an object are not
    empty. *)
Lemma json_grammar_shorter :
  (∀ s v r, value_at s v r → length r < length s)
  ∧ (∀ s l r, elems_at s l r → length r < length s)
  ∧ (∀ s ms r, members_at s ms r → length r < length s).
Proof.
  apply json_grammar_ind; intros;
    repeat match goal with
      | H : chars_at _ _ _ |- _ => apply chars_at_shorter in H
      | H : parse_number _ = Some _ |- _ => apply parse_number_head in H as [H _]
      end;
    ws_lengths; rewrite ?length_app; cbn [length] in *; try lia.
  all: vm_compute length; lia.
Qed.

Lemma value_at_shorter (s : jsstring) (v : json) (r : jsstring) :
  value_at s v r → length r < length s.
Proof. apply json_grammar_shorter. Qed.

Lemma number_head_tests (c : N) :
  c = 45%N ∨ is_digit c = true →
  (c =? 110)%N = false ∧ (c =? 116)%N = false ∧ (c =? 102)%N = false
  ∧ (c =? 34)%N = false ∧ (c =? 91)%N = false ∧ (c =? 123)%N = false
  ∧ c ≠ 93%N ∧ c ≠ 125%N.
Proof.
  intros Hc.
  assert (Hne : ∀ d, (d =? 45)%N = false → is_digit d = false → c ≠ d).
  { intros d H45 Hd ->. destruct Hc as [->|Hc]; [discriminate H45|congruence]. }
  repeat split; first [apply Hne; reflexivity|apply N.eqb_neq, Hne; reflexivity].
Qed.

(** A value does not start with a closing bracket or a closing brace. *)
Lemma value_at_head (s : jsstring) (v : json) (r : jsstring) :
  value_at s v r → ∃ c s', s = c :: s' ∧ c ≠ 93%N ∧ c ≠ 125%N.
Proof.
  destruct 1;
    try (eexists _, _; split; [reflexivity|split; discriminate]).
  match goal with
  | H : parse_number _ = Some _ |- _ =>
      apply parse_number_head in H as (_ & c & s' & -> & Hc)
  end.
  apply number_head_tests in Hc. exists c, s'. tauto.
Qed.

Lemma elems_at_head (s : jsstring) (l : list json) (r : jsstring) :
  elems_at s l r → ∃ c s', s = c :: s' ∧ c ≠ 93%N.
Proof.
  destruct 1 as [s v r1 r Hv|s v r1 r2 l r Hv];
    apply value_at_head in Hv as (c & s' & -> & ? & _); eauto.
Qed.

Lemma members_at_head (s : jsstring) (ms : list (jsstring * json)) (r : jsstring) :
  members_at s ms r → ∃ s', s = 34%N :: s'.
Proof. destruct 1; eauto. Qed.

(** The parser reads every value of the grammar, when the fuel is more
    than the length of the text. *)
Lemma parse_complete :
  (∀ s v r, value_at s v r →
     ∀ fuel, length s < fuel → parse_value fuel s = Some (v, r))
  ∧ (∀ s l r, elems_at s l r →
       ∀ fuel n acc, length s < fuel → length s ≤ n →
         parse_elems (parse_value fuel) n s acc = Some (JArr (acc ++ l), r))
  ∧ (∀ s ms r, members_at s ms r →
       ∀ fuel n acc, length s < fuel → length s ≤ n →
         parse_members (parse_value fuel) n s acc = Some (JObj (acc ++ ms), r)).
Proof.
  apply json_grammar_ind.
  - intros r [|fuel] Hfuel; [lia|]. vm_compute. reflexivity.
  - intros r [|fuel] Hfuel; [lia|]. vm_compute. reflexivity.
  - intros r [|fuel] Hfuel; [lia|]. vm_compute. reflexivity.
  - intros s str r Hstr [|fuel] Hfuel; [lia|]. cbn [parse_value]. first_unit.
    rewrite (parse_chars_complete s str r Hstr) by (cbn [length]; lia). reflexivity.
  - intros s n r Hn [|fuel] Hfuel; [lia|].
    pose proof Hn as (_ & c & s' & -> & Hc)%parse_number_head.
    apply number_head_tests in Hc as (H1 & H2 & H3 & H4 & H5 & H6 & _).
    cbn [parse_value]. rewrite H1, H2, H3, H4, H5, H6, Hn. reflexivity.
  - intros s r Hs [|fuel] Hfuel; [lia|]. cbn [parse_value]. first_unit.
    rewrite Hs. first_unit. reflexivity.
  - intros s l r Hl IH [|fuel] Hfuel; [lia|]. cbn [parse_value]. first_unit.
    pose proof Hl as (d & r0 & Hd & Hne)%elems_at_head. rewrite Hd.
    rewrite (proj2 (N.eqb_neq _ _) Hne). rewrite <- Hd.
    pose proof (skip_ws_length s). cbn [length] in Hfuel.
    apply (IH fuel (length (91%N :: s)) []); cbn [length]; lia.
  - intros s r Hs [|fuel] Hfuel; [lia|]. cbn [parse_value]. first_unit.
    rewrite Hs. first_unit. reflexivity.
  - intros s ms r Hms IH [|fuel] Hfuel; [lia|]. cbn [parse_value]. first_unit.
    pose proof Hms as (s' & Hd)%members_at_head. rewrite Hd. first_unit. rewrite <- Hd.
    pose proof (skip_ws_length s). cbn [length] in Hfuel.
    apply (IH fuel (length (123%N :: s)) []); cbn [length]; lia.
  - intros s v r1 r Hv IH Hr fuel n acc Hfuel Hn.
    pose proof (value_at_shorter _ _ _ Hv).
    destruct n as [|n]; [lia|]. cbn [parse_elems].
    rewrite (IH fuel Hfuel), Hr. first_unit. reflexivity.
  - intros s v r1 r2 l r Hv IHv Hr Hl IHl fuel n acc Hfuel Hn.
    pose proof (value_at_shorter _ _ _ Hv).
    destruct n as [|n]; [lia|]. cbn [parse_elems].
    rewrite (IHv fuel Hfuel), Hr. first_unit.
    ws_lengths. rewrite IHl by lia. rewrite <- app_assoc. reflexivity.
  - intros s key r1 r2 v r3 r Hkey Hr1 Hv IHv Hr3 fuel n acc Hfuel Hn.
    pose proof (chars_at_shorter _ _ _ Hkey).
    destruct n as [|n]; [cbn [length] in Hn; lia|]. cbn [parse_members]. first_unit.
    rewrite (parse_chars_complete s key r1 Hkey) by (cbn [length]; lia).
    rewrite Hr1. first_unit. cbn [length] in Hfuel. ws_lengths.
    rewrite IHv by lia. rewrite Hr3. first_unit. reflexivity.
  - intros s key r1 r2 v r3 r4 ms r Hkey Hr1 Hv IHv Hr3 Hms IHms fuel n acc Hfuel Hn.
    pose proof (chars_at_shorter _ _ _ Hkey).
    pose proof (value_at_shorter _ _ _ Hv).
    destruct n as [|n]; [cbn [length] in Hn; lia|]. cbn [parse_members]. first_unit.
    rewrite (parse_chars_complete s key r1 Hkey) by (cbn [length]; lia).
    rewrite Hr1. first_unit. cbn [length] in Hfuel, Hn. ws_lengths.
    rewrite IHv by lia. rewrite Hr3. first_unit.
    rewrite IHms by lia. rewrite <- app_assoc. reflexivity.
Qed.

Lemma parse_elems_sound (parse : jsstring → option (json * jsstring)) :
  (∀ s v r, parse s = Some (v, r) → value_at s v r) →
  ∀ (n : nat) (s : jsstring) (acc : list json) (res : json) (r : jsstring),
    parse_elems parse n s acc = Some (res, r) →
    ∃ l, res = JArr (acc ++ l) ∧ elems_at s l r.
Proof.
  intros Hparse. induction n as [|n IH]; intros s acc res r; cbn [parse_elems];
    [discriminate|].
  destruct (parse s) as [[v r1]|] eqn:Hv; [|discriminate]. apply Hparse in Hv.
  destruct (skip_ws r1) as [|e r2] eqn:Hr1; [discriminate|].
  destruct (N.eqb_spec e 44) as [->|_].
  - intros (l & -> & Hl)%IH. exists (v :: l). rewrite <- app_assoc.
    split; [reflexivity|]. eapply elems_more; eassumption.
  - destruct (N.eqb_spec e 93) as [->|_]; [|discriminate].
    intros [= <- <-]. exists [v]. split; [reflexivity|]. eapply elems_last; eassumption.
Qed.

Lemma parse_members_sound (parse : jsstring → option (json * jsstring)) :
  (∀ s v r, parse s = Some (v, r) → value_at s v r) →
  ∀ (n : nat) (s : jsstring) (acc : list (jsstring * json)) (res : json) (r : jsstring),
    parse_members parse n s acc = Some (res, r) →
    ∃ ms, res = JObj (acc ++ ms) ∧ members_at s ms r.
Proof.
  intros Hparse. induction n as [|n IH]; intros s acc res r; cbn [parse_members];
    [discriminate|].
  destruct s as [|q s1]; [discriminate|].
  destruct (N.eqb_spec q 34) as [->|_]; [|discriminate].
  destruct (parse_chars _ s1 []) as [[key r1]|] eqn:Hkey; [|discriminate].
  apply parse_chars_sound in Hkey as (key' & -> & Hkey). cbn [app].
  destruct (skip_ws r1) as [|col r2] eqn:Hr1; [discriminate|].
  destruct (N.eqb_spec col 58) as [->|_]; [|discriminate].
  destruct (parse (skip_ws r2)) as [[v r3]|] eqn:Hv; [|discriminate]. apply Hparse in Hv.
  destruct (skip_ws r3) as [|e r4] eqn:Hr3; [discriminate|].
  destruct (N.eqb_spec e 44) as [->|_].
  - intros (ms & -> & Hms)%IH. exists ((key', v) :: ms). rewrite <- app_assoc.
    split; [reflexivity|]. eapply members_more; eassumption.
  - destruct (N.eqb_spec e 125) as [->|_]; [|discriminate].
    intros [= <- <-]. exists [(key', v)]. split; [reflexivity|].
    eapply members_last; eassumption.
Qed.

(** What the parser reads is a value of the grammar. *)
Lemma parse_value_sound :
  ∀ (fuel : nat) (s : jsstring) (v : json) (r : jsstring),
    parse_value fuel s = Some (v, r) → value_at s v r.
Proof.
  induction fuel as [|fuel IH]; intros s v r; cbn [parse_value]; [discriminate|].
  destruct s as [|c s']; [discriminate|].
  destruct (N.eqb_spec c 110) as [->|_].
  { destruct (startsWith s' (lit "ull")) eqn:Hp; [|discriminate]. intros [= <- <-].
    apply startsWith_drop in Hp. rewrite Hp at 1. apply (value_null (drop 3 s')). }
  destruct (N.eqb_spec c 116) as [->|_].
  { destruct (startsWith s' (lit "rue")) eqn:Hp; [|discriminate]. intros [= <- <-].
    apply startsWith_drop in Hp. rewrite Hp at 1. apply (value_true (drop 3 s')). }
  destruct (N.eqb_spec c 102) as [->|_].
  { destruct (startsWith s' (lit "alse")) eqn:Hp; [|discriminate]. intros [= <- <-].
    apply startsWith_drop in Hp. rewrite Hp at 1. apply (value_false (drop 4 s')). }
  destruct (N.eqb_spec c 34) as [->|_].
  { destruct (parse_chars _ s' []) as [[str r']|] eqn:Hstr; [|discriminate].
    intros [= <- <-]. apply parse_chars_sound in Hstr as (str' & -> & Hstr).
    apply value_string, Hstr. }
  destruct (N.eqb_spec c 91) as [->|_].
  { destruct (skip_ws s') as [|d r0] eqn:Hs; [discriminate|].
    destruct (N.eqb_spec d 93) as [->|_].
    - intros [= <- <-]. apply value_empty_array, Hs.
    - intros (l & -> & Hl)%(parse_elems_sound _ IH). apply value_array.
      rewrite Hs. exact Hl. }
  destruct (N.eqb_spec c 123) as [->|_].
  { destruct (skip_ws s') as [|d r0] eqn:Hs; [discriminate|].
    destruct (N.eqb_spec d 125) as [->|_].
    - intros [= <- <-]. apply value_empty_object, Hs.
    - intros (ms & -> & Hms)%(parse_members_sound _ IH). apply value_object.
      rewrite Hs. exact Hms. }
  destruct (parse_number (c :: s')) as [[n r']|] eqn:Hn; [|discriminate].
  intros [= <- <-]. apply value_number, Hn.
Qed.

(** [JSON.parse] returns a value exactly on the JSON texts, and returns the
    value of the text: when it throws, no nesting bound and no loop bound
    of the parser is the reason. *)
Theorem JSON_parse_grammar (s : jsstring) (v : json) :
  JSON_parse s = Some v ↔ json_text s v.
Proof.
  unfold JSON_parse, json_text. split.
  - destruct (parse_value _ (skip_ws s)) as [[v' r]|] eqn:Hv; [|discriminate].
    destruct (skip_ws r) eqn:Hr; [|discriminate]. intros [= <-].
    exists r. split; [eapply parse_value_sound, Hv|exact Hr].
  - intros (r & Hv & Hr). pose proof (skip_ws_length s).
    rewrite (proj1 parse_complete _ _ _ Hv) by lia. rewrite Hr. reflexivity.
Qed.

(** A text has one value at most. *)
Corollary json_text_unique (s : jsstring) (v v' : json) :
  json_text s v → json_text s v' → v = v'.
Proof. intros H1%JSON_parse_grammar H2%JSON_parse_grammar. congruence. Qed.

(** ** Response Extractor *)

Lemma response_text_only (text : jsstring) :
  response_text (Response (Some text) None) = text.
Proof. destruct text; reflexivity. Qed.

(** The nested attempts of [parseJSONResponse] are a first-success search
    through [attempts], a parse counting when its value is truthy. *)
Lemma extract_first_truthy (text : jsstring) :
  extract text = first_success truthy text.
Proof.
  unfold extract, parseJSONResponse, first_success, attempts.
  rewrite response_text_only. unfold tryParse, if_truthy.
  cbn [app omap list_omap].
  destruct (JSON_parse (trim text)) as [v|];
    [destruct (truthy v); [reflexivity|]|].
  all: destruct (match_first fenceRe text) as [m|]; cbn [app omap list_omap].
  all: repeat (match goal with
               | |- context [braces_slice ?a] => destruct (braces_slice a) as [?sub|]
               | |- context [JSON_parse ?a] => destruct (JSON_parse a) as [?v|]
               | |- context [truthy ?v] => destruct (truthy v)
               end; cbn [option_list option_rect app omap list_omap head]).
  all: reflexivity.
Qed.

Lemma first_success_throws (ok : json → bool) (text : jsstring) :
  is_throw (first_success ok text) = true ↔
  Forall (λ a, ∀ v, JSON_parse a = Some v → ok v = false) (attempts text).
Proof.
  unfold first_success. induction (attempts text) as [|a l IH]; cbn [omap list_omap].
  - split; [constructor|reflexivity].
  - rewrite Forall_cons. destruct (JSON_parse a) as [v|].
    + destruct (ok v) eqn:Hok; cbn [head is_throw].
      * split; [discriminate|]. intros [Hv _]. specialize (Hv v eq_refl). congruence.
      * rewrite IH. split; [|tauto]. intros ?. split; [|assumption]. congruence.
    + rewrite IH. split; [|tauto]. intros ?. split; [|assumption]. congruence.
Qed.

Lemma first_success_ok (ok : json → bool) (text : jsstring) (v : json) :
  first_success ok text = Ok v →
  ok v = true ∧ ∃ a, a ∈ attempts text ∧ JSON_parse a = Some v.
Proof.
  unfold first_success. induction (attempts text) as [|a l IH]; cbn [omap list_omap].
  - discriminate.
  - destruct (JSON_parse a) as [w|] eqn:Hp.
    + destruct (ok w) eqn:Hok; cbn [head].
      * intros [= <-]. split; [exact Hok|]. exists a. split; [left|exact Hp].
      * intros [? (b & ? & ?)]%IH. split; [assumption|]. exists b. split; [right|]; assumption.
    + intros [? (b & ? & ?)]%IH. split; [assumption|]. exists b. split; [right|]; assumption.
Qed.

(** The value returned is the value of the first strategy that counts. *)
Lemma first_success_first (ok : json → bool) (text : jsstring) (v : json) :
  first_success ok text = Ok v ↔
  ∃ pre a post, attempts text = pre ++ a :: post
                ∧ JSON_parse a = Some v ∧ ok v = true
                ∧ Forall (λ b, ∀ w, JSON_parse b = Some w → ok w = false) pre.
Proof.
  unfold first_success. induction (attempts text) as [|a l IH]; cbn [omap list_omap].
  - split; [discriminate|]. intros (pre & a & post & Hsplit & _).
    destruct pre; discriminate Hsplit.
  - assert (Hskip : (∀ w, JSON_parse a = Some w → ok w = false) →
              (match head (omap (λ a, match JSON_parse a with
                                      | Some v => if ok v then Some v else None
                                      | None => None
                                      end) l) with
               | Some v => Ok v
               | None => Throw (invalid_json_message text)
               end = Ok v ↔
               ∃ pre a0 post, a :: l = pre ++ a0 :: post
                 ∧ JSON_parse a0 = Some v ∧ ok v = true
                 ∧ Forall (λ b, ∀ w, JSON_parse b = Some w → ok w = false) pre)).
    { intros Ha. rewrite IH. split.
      - intros (pre & a0 & post & -> & Hv & Hok & Hpre).
        exists (a :: pre), a0, post. repeat split; try assumption.
        constructor; assumption.
      - intros (pre & a0 & post & Hsplit & Hv & Hok & Hpre).
        destruct pre as [|b pre]; cbn [app] in Hsplit; injection Hsplit as <- ->.
        + rewrite (Ha v Hv) in Hok. discriminate.
        + inversion Hpre; subst. exists pre, a0, post. auto. }
    destruct (JSON_parse a) as [w|] eqn:Hp.
    + destruct (ok w) eqn:Hok; cbn [head].
      * split.
        -- intros [= <-]. exists [], a, l. repeat split; auto.
        -- intros (pre & a0 & post & Hsplit & Hv & Hok' & Hpre).
           destruct pre as [|b pre]; cbn [app] in Hsplit; injection Hsplit as <- ->.
           ++ congruence.
           ++ inversion Hpre as [|? ? Hb _]; subst. specialize (Hb w Hp). congruence.
      * apply Hskip. intros w' [= <-]. exact Hok.
    + apply Hskip. discriminate.
Qed.

(** C5 (as amended): the strategies are tried in the order the whole
    trimmed text, the trimmed interior of the first fenced block, the part
    of that interior from its first opening to its last closing brace, and
    the part of the whole text from its first opening to its last closing
    brace; the first one whose text is a JSON text with a truthy value
    wins, and the call throws exactly when none is.  A text that parses to
    a falsy value counts as a failed strategy. *)
Theorem C5_first_truthy_strategy (text : jsstring) :
  extract text = first_success truthy text
  ∧ (is_throw (extract text) = true ↔
     Forall (λ a, ∀ v, json_text a v → truthy v = false) (attempts text))
  ∧ (∀ v, extract text = Ok v ↔
          ∃ pre a post, attempts text = pre ++ a :: post
                        ∧ json_text a v ∧ truthy v = true
                        ∧ Forall (λ b, ∀ w, json_text b w → truthy w = false) pre)
  ∧ extract (lit "```json" ++ [10%N] ++ lit "{" ++ quoted "paths" ++ lit ":["
             ++ quoted "src" ++ lit "]}" ++ [10%N] ++ lit "```")
    = Ok (JObj [(lit "paths", JArr [JStr (lit "src")])])
  ∧ is_throw (extract (lit "no json here")) = true.
Proof.
  split; [apply extract_first_truthy|]. split; [|split].
  - rewrite extract_first_truthy, first_success_throws.
    apply Forall_proper; [|reflexivity]. intros a. split; intros Ha v Hv; apply Ha.
    + apply JSON_parse_grammar, Hv.
    + apply JSON_parse_grammar, Hv.
  - intros v. rewrite extract_first_truthy, first_success_first.
    split; intros (pre & a & post & Hsplit & Hv & Ht & Hpre);
      exists pre, a, post; (split; [exact Hsplit|]);
      (split; [apply JSON_parse_grammar, Hv|]); (split; [exact Ht|]);
      (eapply Forall_impl; [exact Hpre|]); intros b Hb w Hw; apply Hb;
      apply JSON_parse_grammar, Hw.
  - split; vm_compute; reflexivity.
Qed.

(** C5 as the specification words it fails: the text [null] parses as JSON
    at the first strategy, and the call throws. *)
Lemma C5_counterexample : ¬ extractor_contract extract.
Proof.
  intros Hc. specialize (Hc (lit "null")). vm_compute in Hc. discriminate.
Qed.

(** C9: when every strategy is handed a JSON text with a falsy value the
    call throws, as it does on the JSON texts [null], [false] and [0]; and
    a value that is returned is truthy and is the value of the JSON text
    of one of the strategies. *)
Theorem C9_falsy_json_rejected (text : jsstring) :
  (Forall (λ a, ∃ v, json_text a v ∧ truthy v = false) (attempts text) →
   is_throw (extract text) = true)
  ∧ (∀ v, extract text = Ok v →
          truthy v = true ∧ ∃ a, a ∈ attempts text ∧ json_text a v)
  ∧ (json_text (lit "null") JNull ∧ is_throw (extract (lit "null")) = true)
  ∧ (json_text (lit "false") (JBool false)
     ∧ is_throw (extract (lit "false")) = true)
  ∧ (json_text (lit "0") (JNum (Number false 0 0))
     ∧ is_throw (extract (lit "0")) = true).
Proof.
  split; [|split].
  - intros Hall. rewrite extract_first_truthy. apply first_success_throws.
    eapply Forall_impl; [exact Hall|]. intros a (v & Hv%JSON_parse_grammar & Hf) w Hw.
    congruence.
  - intros v. rewrite extract_first_truthy.
    intros [Ht (a & Ha & Hv)]%first_success_ok. split; [exact Ht|].
    exists a. split; [exact Ha|apply JSON_parse_grammar, Hv].
  - repeat split; try (apply JSON_parse_grammar); vm_compute; reflexivity.
Qed.

(** The text [null] meets the premise of C9. *)
Lemma C9_witness :
  Forall (λ a, ∃ v, json_text a v ∧ truthy v = false) (attempts (lit "null"))
  ∧ is_throw (extract (lit "null")) = true.
Proof.
  assert (Hall : Forall (λ a, ∃ v, json_text a v ∧ truthy v = false)
                   (attempts (lit "null"))).
  { vm_compute attempts. constructor; [|constructor]. exists JNull.
    split; [apply JSON_parse_grammar; vm_compute|]; reflexivity. }
  split; [exact Hall|].
  exact (proj1 (C9_falsy_json_rejected (lit "null")) Hall).
Defined.

(** ** Generation Orchestrator *)

Section Orchestrator.

Context {World Uri Doc Client : Type} {HH : Host World Uri Doc Client}.
Context (ws : Uri) (model prompt : jsstring) (all : list jsstring)
        (ow : bool) (summ : summary).

Implicit Types (st : state World) (p : jsstring) (o : outcome).

Lemma set_world_set_world (w w' : World) st :
  set_world w (set_world w' st) = set_world w st.
Proof. reflexivity. Qed.



Lemma push_failure_record p (e : jsstring) st :
  push_failure p e st = (record p (Failed e) st, Ok tt).
Proof. unfold push_failure, record. cbn. rewrite !app_nil_r. reflexivity. Qed.

Lemma push_skipped_record p st :
  push_skipped p st = (record p Skipped st, Ok tt).
Proof. unfold push_skipped, record. cbn. rewrite !app_nil_r. reflexivity. Qed.

Lemma exists_total (uri : Uri) st :
  ∃ b w, exists_ uri st = (set_world w st, Ok b).
Proof.
  unfold exists_, try_catch, bind, call, ret.
  destruct (stat uri (world st)) as [w [[]|e]]; eauto.
Qed.

(** The content request only moves the world. *)
Lemma request_content_world (sys usr : jsstring) st :
  ∃ w, (request_content model sys usr st).1 = set_world w st.
Proof.
  unfold request_content, bind, call, ret.
  destruct (getGlobalAI (world st)) as [w1 [client|e1]]; cbn; [|eauto].
  destruct (create client model sys usr w1) as [w2 [response|e2]]; cbn; [|eauto].
  destruct (extractCodeFromText _ w2) as [w3 [extracted|e3]]; cbn; eauto.
Qed.

(** [requestFileContentForPrompt] never throws: it returns what the model
    call returned, or the fallback text when that call threw. *)
Lemma requestFileContentForPrompt_total p st :
  ∃ w c,
    requestFileContentForPrompt model prompt summ all p st = (set_world w st, Ok c)
    ∧ let r := request_content model (systemPromptOf p)
                 (userPromptOf prompt summ all
                    (filter (λ q, negb (str_eqb q p)) all) p) st in
      match r.2 with
      | Ok c' => c = c'
      | Throw _ => c = fallback_content p prompt
      end.
Proof.
  unfold requestFileContentForPrompt, try_catch.
  destruct (request_content_world (systemPromptOf p)
              (userPromptOf prompt summ all
                 (filter (λ q, negb (str_eqb q p)) all) p) st) as [w Hw].
  destruct (request_content _ _ _ st) as [st' [c|e]]; cbn in *; subst st'.
  - exists w, c. split; reflexivity.
  - exists w, (fallback_content p prompt). split; reflexivity.
Qed.

Lemma record_and_show_outcome (uri : Uri) (ex : bool) p st :
  ∃ shown w,
    record_and_show uri ex p st
    = (record p (if ex then Overwritten shown else Created shown) (set_world w st), Ok tt)
    ∧ blame uri (Created shown).
Proof.
  unfold record_and_show, bind, try_catch, call.
  assert (Hpush : ∃ st1, (if ex then push_overwritten p else push_created p) st = (st1, Ok tt)
                         ∧ world st1 = world st
                         ∧ ∀ shown w, record p (if ex then Overwritten shown else Created shown)
                                        (set_world w st)
                                      = State w (created st1) (overwritten st1) (skipped st1)
                                          (failures st1 ++ option_list
                                             (in_failures (p, Created shown)))).
  { destruct ex; eexists; (split; [reflexivity|]); (split; [reflexivity|]);
      intros shown w; unfold record; cbn; rewrite ?app_nil_r; reflexivity. }
  destruct Hpush as (st1 & -> & Hw1 & Hrec). rewrite Hw1.
  destruct (openTextDocument uri (world st)) as [w2 [doc|e2]] eqn:Hopen; cbn.
  - destruct (showTextDocument doc w2) as [w3 [[]|e3]] eqn:Hshow; cbn.
    + exists None, w3. rewrite Hrec. cbn. rewrite app_nil_r. split; [reflexivity|exact I].
    + exists (Some e3), w3. rewrite Hrec. split; [reflexivity|].
      right. exists doc, w2. rewrite Hshow. reflexivity.
  - exists (Some e2), w2. rewrite Hrec. split; [reflexivity|].
    left. exists (world st). rewrite Hopen. reflexivity.
Qed.

(** One round of the loop never throws; it records one outcome for the
    path, and a failure reason comes from creating the parent directory,
    from the write, or from showing the written file. *)
Lemma process_path_outcome p st :
  ∃ o w,
    process_path ws model prompt all ow summ p st = (record p o (set_world w st), Ok tt)
    ∧ blame (joinPath ws p) o.
Proof.
  unfold process_path. set (uri := joinPath ws p).
  unfold try_catch at 1. unfold bind at 1. unfold ensureParentDir, call at 1.
  destruct (createDirectory (joinPath uri (lit "..")) (world st)) as [w1 [[]|e1]] eqn:Hdir.
  2:{ exists (Failed e1), w1. split; [apply push_failure_record|]. left.
      exists (world st). rewrite Hdir. reflexivity. }
  unfold bind at 1.
  destruct (exists_total uri (set_world w1 st)) as (ex & w2 & ->).
  rewrite set_world_set_world.
  destruct (ex && negb ow) eqn:Hskip.
  { exists Skipped, w2. split; [apply push_skipped_record|exact I]. }
  unfold bind at 1.
  destruct (requestFileContentForPrompt_total p (set_world w2 st)) as (w3 & c & -> & _).
  rewrite set_world_set_world. unfold bind at 1, call at 1. cbn [world set_world].
  destruct (writeFile uri c w3) as [w4 [[]|e4]] eqn:Hwrite.
  2:{ exists (Failed e4), w4. split; [apply push_failure_record|]. right.
      exists c, w3. rewrite Hwrite. reflexivity. }
  destruct (record_and_show_outcome uri ex p (set_world w4 st)) as (shown & w5 & Hrs & Hb).
  rewrite set_world_set_world, Hrs, set_world_set_world.
  exists (if ex then Overwritten shown else Created shown), w5.
  split; [reflexivity|]. destruct ex; exact Hb.
Qed.




End Orchestrator.




(** C4 (as amended): when the model call for a path throws, the text handed
    to the write is the fallback text, and the path goes to [created] or
    [overwritten] unless that write throws; whatever happens, the round for
    a path never throws and a failure entry takes its reason from creating
    the parent directory, from the write, or from showing the written file,
    never from the model call. *)
Theorem C4_fallback_then_write `{Host World Uri Doc Client}
    (ws : Uri) (model prompt : jsstring) (all : list jsstring) (ow : bool)
    (summ : summary) :
  (∀ (p : jsstring) (st st1 st2 st3 : state World) (ex : bool) (e0 : jsstring),
      ensureParentDir (joinPath ws p) st = (st1, Ok tt) →
      exists_ (joinPath ws p) st1 = (st2, Ok ex) →
      ex && negb ow = false →
      request_content model (systemPromptOf p)
        (userPromptOf prompt summ all (filter (λ q, negb (str_eqb q p)) all) p) st2
      = (st3, Throw e0) →
      requestFileContentForPrompt model prompt summ all p st2
      = (st3, Ok (fallback_content p prompt))
      ∧ match writeFile (joinPath ws p) (fallback_content p prompt) (world st3) with
        | (_, Ok _) =>
            ∃ shown w5,
              process_path ws model prompt all ow summ p st
              = (record p (if ex then Overwritten shown else Created shown)
                   (set_world w5 st), Ok tt)
        | (w4, Throw e) =>
            process_path ws model prompt all ow summ p st
            = (record p (Failed e) (set_world w4 st), Ok tt)
        end)
  ∧ (∀ (p : jsstring) (st : state World),
       ∃ o w,
         process_path ws model prompt all ow summ p st
         = (record p o (set_world w st), Ok tt)
         ∧ blame (joinPath ws p) o).
Proof.
  split; [|intros p st; apply process_path_outcome].
  intros p st st1 st2 st3 ex e0 Hdir Hex Hskip Hreq.
  assert (Hcontent : requestFileContentForPrompt model prompt summ all p st2
                     = (st3, Ok (fallback_content p prompt))).
  { unfold requestFileContentForPrompt, try_catch. rewrite Hreq. reflexivity. }
  split; [exact Hcontent|].
  assert (∃ w1, st1 = set_world w1 st) as [w1 ->].
  { unfold ensureParentDir, call in Hdir.
    destruct (createDirectory _ (world st)) as [w1 r]. injection Hdir as <- _. eauto. }
  assert (∃ w2, st2 = set_world w2 st) as [w2 ->].
  { destruct (exists_total (joinPath ws p) (set_world w1 st)) as (b & w2 & Hw2).
    rewrite Hw2 in Hex. injection Hex as <- _. eauto. }
  assert (∃ w3, st3 = set_world w3 st) as [w3 ->].
  { destruct (request_content_world model (systemPromptOf p)
                (userPromptOf prompt summ all (filter (λ q, negb (str_eqb q p)) all) p)
                (set_world w2 st)) as [w3 Hw3].
    rewrite Hreq in Hw3. cbn in Hw3. subst. eauto. }
  cbn [world set_world].
  assert (Hstep : process_path ws model prompt all ow summ p st
                  = match bind (call (writeFile (joinPath ws p)
                                          (fallback_content p prompt)))
                            (λ _, record_and_show (joinPath ws p) ex p)
                            (set_world w3 st) with
                    | (st', Ok a) => (st', Ok a)
                    | (st', Throw e) => push_failure p e st'
                    end).
  { unfold process_path. unfold try_catch at 1. unfold bind at 1. rewrite Hdir.
    unfold bind at 1. rewrite Hex, Hskip. unfold bind at 1. rewrite Hcontent.
    reflexivity. }
  rewrite Hstep. unfold bind, call. cbn [world set_world].
  destruct (writeFile (joinPath ws p) (fallback_content p prompt) w3) as [w4 [[]|e4]].
  - destruct (record_and_show_outcome (joinPath ws p) ex p (set_world w4 st))
      as (shown & w5 & Hrs & _).
    exists shown, w5.
    rewrite set_world_set_world, Hrs, set_world_set_world. reflexivity.
  - exact (push_failure_record p e4 (set_world w4 st)).
Qed.

(** On the small host, with a model endpoint that is down for [a.txt]: the
    premises of C4 hold and the file is created with the fallback text. *)
Lemma C4_witness :
  let w := Sim.SimWorld [] [] [] [] [] [lit "a.txt"] [] in
  let st := State w [] [] [] [] in
  ∃ shown w5,
    process_path (H := Sim.sim_host) (lit "ws") (lit "m") (lit "make a file")
      [lit "a.txt"] false (Summary [] []) (lit "a.txt") st
    = (record (lit "a.txt") (Created shown) (set_world w5 st), Ok tt).
Proof.
  intros w st.
  exact (proj2 (proj1 (C4_fallback_then_write (H := Sim.sim_host) (lit "ws") (lit "m")
                         (lit "make a file") [lit "a.txt"] false (Summary [] []))
                  (lit "a.txt") st st st st false (lit "503")
                  eq_refl eq_refl eq_refl eq_refl)).
Defined.

(** C4 as the specification words it fails: no write fails, and the path
    is in [failed] because the written file could not be shown. *)
Lemma C4_counterexample :
  ¬ failed_only_when_write_fails (Sim.SimWorld [] [] [] [] [lit "ws/a.txt"] [] [])
      (lit "make a file") [lit "a.txt"] false.
Proof.
  intros Hc. specialize (Hc (lit "a.txt")).
  assert (Hin : lit "a.txt" ∈ f_path <$> failures
                  (Sim.run (Sim.SimWorld [] [] [] [] [lit "ws/a.txt"] [] [])
                     (lit "make a file") [lit "a.txt"] false).1).
  { vm_compute. left. }
  apply Hc in Hin. vm_compute in Hin. discriminate.
Qed.

(** ** Regular expression searches and replacements *)

Lemma search_index (r : regex) (pos : nat) (s : jsstring) (m : rmatch_result) :
  search r pos s = Some m → pos ≤ m_index m.
Proof.
  revert pos. induction s as [|c s IH]; intros pos; cbn [search]; unfold match_at;
    destruct (rmatch r _ Some) as [y|].
  - intros [= <-]. cbn. lia.
  - discriminate.
  - intros [= <-]. cbn. lia.
  - intros Hs%IH. lia.
Qed.

Lemma exec_index (r : regex) (s : jsstring) (i : nat) (m : rmatch_result) :
  exec r s i = Some m → i ≤ m_index m.
Proof.
  unfold exec. destruct (i <=? length s); [apply search_index|discriminate].
Qed.

Lemma m_end_index (m : rmatch_result) : m_index m ≤ m_end m.
Proof. unfold m_end. lia. Qed.

Lemma ordered_le (pos pos' : nat) (ms : list rmatch_result) :
  pos ≤ pos' → ordered pos' ms → ordered pos ms.
Proof. destruct ms as [|m ms]; cbn; [auto|]. intros ? [? ?]. split; [lia|assumption]. Qed.

Lemma ordered_elem (pos : nat) (ms : list rmatch_result) (m : rmatch_result) :
  ordered pos ms → m ∈ ms → pos ≤ m_index m.
Proof.
  revert pos. induction ms as [|m' ms IH]; intros pos Hord Hin.
  - apply elem_of_nil in Hin as [].
  - destruct Hord as [Hle Hord]. apply elem_of_cons in Hin as [->|Hin]; [exact Hle|].
    pose proof (IH _ Hord Hin). pose proof (m_end_index m'). lia.
Qed.

Lemma replace_matches_ordered (fuel : nat) (r : regex) (s : jsstring) (i : nat) :
  ordered i (replace_matches fuel r s i).
Proof.
  revert i. induction fuel as [|fuel IH]; intros i; cbn [replace_matches]; [exact I|].
  destruct (exec r s i) as [m|] eqn:Hexec; [|exact I].
  split; [eapply exec_index, Hexec|].
  destruct (length (m_0 m) =? 0); [|apply IH].
  eapply ordered_le; [|apply IH]. lia.
Qed.

(** The fuel of [replace_matches] is never what ends the collection: any
    two amounts above the length of the input give the same matches. *)
Lemma replace_matches_fuel (r : regex) (s : jsstring) :
  ∀ (fuel fuel' i : nat),
    length s + 1 < fuel + i → length s + 1 < fuel' + i →
    replace_matches fuel r s i = replace_matches fuel' r s i.
Proof.
  assert (Hout : ∀ i, length s < i → exec r s i = None).
  { intros i Hi. unfold exec. destruct (Nat.leb_spec i (length s)); [lia|reflexivity]. }
  induction fuel as [|fuel IH]; intros [|fuel'] i H1 H2; cbn [replace_matches];
    try reflexivity.
  - rewrite Hout by lia. reflexivity.
  - rewrite Hout by lia. reflexivity.
  - destruct (exec r s i) as [m|] eqn:Hexec; [|reflexivity].
    f_equal. apply exec_index in Hexec. pose proof (m_end_index m).
    destruct (Nat.eqb_spec (length (m_0 m)) 0) as [Hz|Hnz].
    + apply IH; lia.
    + apply IH; unfold m_end in *; lia.
Qed.

Lemma head_drop {A} (l : list A) (i : nat) : head (drop i l) = l !! i.
Proof.
  revert i. induction l as [|x l IH]; intros [|i]; cbn; auto.
Qed.

Lemma tail_drop {A} (l : list A) (i : nat) : tail (drop i l) = drop (S i) l.
Proof.
  revert i. induction l as [|x l IH]; intros [|i]; cbn; auto.
Qed.

(** A replacement whose values come from a list, one per match in order, is
    the splice of those values. *)
Lemma replace_build_splice (s : jsstring) (sel : list jsstring)
    (ms : list rmatch_result) (i : nat) (acc : jsstring) (pos : nat) :
  ordered pos ms →
  (replace_build s ms
     (λ _ i, (match sel !! i with Some v => v | None => [] end, S i)) i acc pos).1
  = acc ++ splice s pos ms (drop i sel).
Proof.
  revert i acc pos. induction ms as [|m ms IH]; intros i acc pos Hord; [reflexivity|].
  destruct Hord as [Hle Hord]. cbn [replace_build splice].
  rewrite (proj2 (Nat.leb_le _ _) Hle), IH by exact Hord.
  rewrite <- !app_assoc, head_drop, tail_drop.
  destruct (sel !! i); reflexivity.
Qed.

Lemma splice_padded (s : jsstring) (pos : nat) (ms : list rmatch_result)
    (vs : list jsstring) (n : nat) :
  splice s pos ms (vs ++ replicate n []) = splice s pos ms vs.
Proof.
  revert pos vs n. induction ms as [|m ms IH]; intros pos vs n; [reflexivity|].
  cbn [splice]. destruct vs as [|v vs].
  - destruct n as [|n]; [reflexivity|].
    change (splice s (m_end m) ms (tail ([] ++ replicate (S n) [])))
      with (splice s (m_end m) ms ([] ++ replicate n [])).
    rewrite IH. reflexivity.
  - change (splice s (m_end m) ms (tail ((v :: vs) ++ replicate n [])))
      with (splice s (m_end m) ms (vs ++ replicate n [])).
    rewrite IH. reflexivity.
Qed.

Lemma fillChoicePlaceholders_splice (template : jsstring) (sel : list jsstring) :
  sel ≠ [] →
  fillChoicePlaceholders template sel = splice template 0 (choice_matches template) sel.
Proof.
  intros Hne. unfold fillChoicePlaceholders, replace_st.
  destruct sel as [|v sel]; [congruence|].
  rewrite replace_build_splice by apply replace_matches_ordered. reflexivity.
Qed.

(** C7 (as amended): with an empty list of selections the template comes
    back unchanged, no token replaced.  With a list that is not empty, the
    token of rank [i] is replaced by selection [i], and by the empty string
    once the selections have run out, not by its declared default: a
    list that is too short behaves as the same list padded with empty
    strings. *)
Theorem C7_shortfall_is_empty_string (template : jsstring) (sel : list jsstring) :
  fillChoicePlaceholders template [] = template
  ∧ (sel ≠ [] →
     fillChoicePlaceholders template sel
     = splice template 0 (choice_matches template) sel
     ∧ ∀ n, fillChoicePlaceholders template (sel ++ replicate n [])
            = fillChoicePlaceholders template sel)
  ∧ fillChoicePlaceholders (lit "{{a,b|b}} and {{c,d|d}}") [lit "x"] = lit "x and ".
Proof.
  split; [reflexivity|]. split; [|vm_compute; reflexivity].
  intros Hne. split; [apply fillChoicePlaceholders_splice, Hne|].
  intros n. rewrite !fillChoicePlaceholders_splice; [apply splice_padded|exact Hne|].
  destruct sel; [congruence|discriminate].
Qed.

(** One selection for two tokens: the second token becomes the empty string. *)
Lemma C7_witness :
  fillChoicePlaceholders (lit "{{a,b|b}} and {{c,d|d}}") [lit "x"]
  = splice (lit "{{a,b|b}} and {{c,d|d}}") 0
      (choice_matches (lit "{{a,b|b}} and {{c,d|d}}")) [lit "x"].
Proof.
  exact (proj1 (proj1 (proj2 (C7_shortfall_is_empty_string
                                (lit "{{a,b|b}} and {{c,d|d}}") [lit "x"]))
                  ltac:(discriminate))).
Defined.

(** C7 as the specification words it fails for the empty list: the token
    stays in place. *)
Lemma C7_counterexample : ¬ shortfall_contract fillChoicePlaceholders.
Proof.
  intros Hc. specialize (Hc (lit "{{a,b|b}}") []).
  assert (Hlt : length (@nil jsstring) < length (choice_matches (lit "{{a,b|b}}"))).
  { vm_compute. lia. }
  apply Hc in Hlt. vm_compute in Hlt. discriminate.
Qed.

(** ** Token Resolver *)


Lemma brace_free_nil : brace_free [].
Proof. apply not_elem_of_nil. Qed.

(** Every token pattern starts with two opening braces: where there is no
    opening brace nothing matches. *)
Lemma match_at_no_brace (r : regex) (pos : nat) (s : jsstring) :
  head s ≠ Some (ch "{") → match_at (Seq open_braces r) pos s = None.
Proof.
  intros Hhd. unfold match_at, open_braces, one. cbn [rmatch ms_rest].
  destruct s as [|c s]; [reflexivity|].
  destruct (N.eqb_spec (ch "{") c) as [<-|_]; [|reflexivity].
  exfalso. apply Hhd. reflexivity.
Qed.

Lemma search_no_brace (r : regex) (pos : nat) (s : jsstring) :
  brace_free s → search (Seq open_braces r) pos s = None.
Proof.
  revert pos. induction s as [|c s IH]; intros pos Hfree; cbn [search].
  - rewrite match_at_no_brace by discriminate. reflexivity.
  - rewrite match_at_no_brace.
    + apply IH. intros ?. apply Hfree. right. assumption.
    + cbn. intros [= ->]. apply Hfree. left.
Qed.

Lemma exec_no_brace (r : regex) (s : jsstring) (i : nat) :
  brace_free s → exec (Seq open_braces r) s i = None.
Proof.
  intros Hfree. unfold exec. destruct (i <=? length s); [|reflexivity].
  apply search_no_brace. intros Hin. apply Hfree.
  apply list_elem_of_lookup in Hin as [j Hj]. rewrite lookup_drop in Hj.
  eapply list_elem_of_lookup_2, Hj.
Qed.

Lemma while_exec_no_brace {St} (r : regex) (s : jsstring)
    (body : rmatch_result → St → St) (st : St) :
  brace_free s → while_exec (Seq open_braces r) s body st = Some st.
Proof.
  intros Hfree. unfold while_exec. destruct (length s); cbn [exec_loop];
    rewrite exec_no_brace by exact Hfree; reflexivity.
Qed.

Lemma replace_matches_no_brace (r : regex) (s : jsstring) (fuel i : nat) :
  brace_free s → replace_matches fuel (Seq open_braces r) s i = [].
Proof.
  intros Hfree. destruct fuel; cbn [replace_matches]; [reflexivity|].
  rewrite exec_no_brace by exact Hfree. reflexivity.
Qed.

(** Each pattern of the template grammar, seen as two opening braces and
    a rest. *)
Ltac open_re R :=
  let E := fresh "E" in
  let r' := fresh "r" in
  assert (E : ∃ r', R = Seq open_braces r') by (eexists; reflexivity);
  destruct E as [r' E]; rewrite E; clear E.

Lemma no_token_brace_free (s : jsstring) : brace_free s → no_token s.
Proof.
  intros Hfree. unfold no_token. repeat split.
  - unfold parseChoicePlaceholders, passes, pass.
    open_re namedRe. open_re anonRe. open_re radioRe. open_re aiRe.
    repeat (rewrite (while_exec_no_brace _ s _ _ Hfree); cbn [mbind option_bind]).
    reflexivity.
  - unfold parsePlaceholders. open_re simpleRe.
    apply (while_exec_no_brace _ s _ _ Hfree).
  - unfold choice_matches. open_re choiceRe.
    apply (replace_matches_no_brace _ s _ _ Hfree).
  - unfold simple_matches. open_re fillRe.
    apply (replace_matches_no_brace _ s _ _ Hfree).
Qed.




Lemma braces_covered_check (s : jsstring) (ms : list rmatch_result) :
  braces_covered_b s ms = true → braces_covered s ms.
Proof.
  unfold braces_covered_b, braces_covered. rewrite forallb_forall.
  intros Hall i Hi. specialize (Hall i). rewrite Hi in Hall.
  assert (Hin : In i (seq 0 (length s))).
  { apply in_seq. apply lookup_lt_Some in Hi. lia. }
  apply Hall in Hin. rewrite N.eqb_refl in Hin. cbn in Hin.
  apply existsb_exists in Hin as (m & Hm & Hspan).
  exists m. split; [apply list_elem_of_In, Hm|].
  apply andb_true_iff in Hspan as [?%Nat.leb_le ?%Nat.ltb_lt]. lia.
Qed.


(** ** Placeholder Scanner *)

(** A match never moves backwards: the continuation that succeeds is called
    at a position at or after the start. *)
Lemma rmatch_pos (r : regex) :
  ∀ (x : mstate) (k : cont) (z : mstate),
    rmatch r x k = Some z → ∃ y, k y = Some z ∧ ms_pos x ≤ ms_pos y.
Proof.
  induction r as [|p| |r1 IH1 r2 IH2|r1 IH1 r2 IH2|greedy r1 IH1|i r1 IH1];
    intros x k z; cbn [rmatch].
  - intros Hk. exists x. auto.
  - destruct (ms_rest x) as [|c s']; [discriminate|].
    destruct (p c); [|discriminate]. intros Hk. eexists. split; [exact Hk|]. cbn. lia.
  - destruct (ms_pos x =? 0); [|discriminate]. intros Hk. exists x. auto.
  - intros (y1 & (y & Hk & Hle)%IH2 & Hle1)%IH1. exists y. split; [exact Hk|lia].
  - destruct (rmatch r1 x k) as [z'|] eqn:H1.
    + intros [= <-]. apply IH1, H1.
    + apply IH2.
  - generalize (length (ms_rest x)) as fuel. intros fuel. revert x.
    induction fuel as [|fuel IHf]; intros x; cbn [star_loop].
    + intros Hk. exists x. auto.
    + assert (Hagain : rmatch r1 x
                (λ y, if ms_pos x <? ms_pos y
                      then star_loop (rmatch r1) greedy k fuel y else None) = Some z
                → ∃ y, k y = Some z ∧ ms_pos x ≤ ms_pos y).
      { intros (y1 & Hy1 & Hle1)%IH1.
        destruct (ms_pos x <? ms_pos y1); [|discriminate].
        apply IHf in Hy1 as (y & Hk & Hle). exists y. split; [exact Hk|lia]. }
      destruct greedy.
      * destruct (rmatch r1 x _) as [z'|] eqn:Hr.
        -- intros [= <-]. apply Hagain. reflexivity.
        -- intros Hk. exists x. auto.
      * destruct (k x) as [z'|] eqn:Hkx.
        -- intros [= <-]. exists x. auto.
        -- exact Hagain.
  - intros (y1 & Hk & Hle)%IH1. eexists. split; [exact Hk|]. cbn. lia.
Qed.

(** A match of a pattern that starts with two opening braces is not empty
    and ends within the input. *)
Lemma match_at_open_span (r : regex) (pos : nat) (s : jsstring) (m : rmatch_result) :
  match_at (Seq open_braces r) pos s = Some m →
  m_index m = pos ∧ m_index m < m_end m ∧ m_end m ≤ pos + length s.
Proof.
  unfold match_at, m_end. destruct (rmatch _ _ Some) as [y|] eqn:Hm; [|discriminate].
  intros [= <-]. cbn [m_index m_0]. rewrite length_take.
  unfold open_braces, one in Hm. cbn [rmatch ms_rest ms_pos ms_caps] in Hm.
  destruct s as [|c1 [|c2 s]]; try discriminate.
  { destruct (ch "{" =? c1)%N; discriminate. }
  destruct (ch "{" =? c1)%N; [|discriminate]. destruct (ch "{" =? c2)%N; [|discriminate].
  apply rmatch_pos in Hm as (y' & [= ->] & Hle). cbn in Hle. cbn [length]. lia.
Qed.

Lemma search_open_span (r : regex) (pos : nat) (s : jsstring) (m : rmatch_result) :
  search (Seq open_braces r) pos s = Some m →
  pos ≤ m_index m ∧ m_index m < m_end m ∧ m_end m ≤ pos + length s.
Proof.
  revert pos. induction s as [|c s IH]; intros pos; cbn [search];
    destruct (match_at _ pos _) as [m'|] eqn:Hm.
  - intros [= <-]. apply match_at_open_span in Hm. lia.
  - discriminate.
  - intros [= <-]. apply match_at_open_span in Hm. lia.
  - intros Hs%IH. cbn [length]. lia.
Qed.

Lemma exec_open_span (r : regex) (s : jsstring) (i : nat) (m : rmatch_result) :
  exec (Seq open_braces r) s i = Some m →
  i ≤ m_index m ∧ m_index m < m_end m ∧ m_end m ≤ length s.
Proof.
  unfold exec. destruct (Nat.leb_spec i (length s)); [|discriminate].
  intros Hs%search_open_span. rewrite length_drop in Hs. lia.
Qed.

(** The loops over the matches of such a pattern come to an end. *)
Lemma exec_loop_total {St} (r : regex) (s : jsstring) (body : rmatch_result → St → St) :
  ∀ (fuel i : nat) (st : St),
    length s ≤ fuel + i →
    ∃ st', exec_loop fuel (Seq open_braces r) s i body st = Some st'.
Proof.
  induction fuel as [|fuel IH]; intros i st Hfuel; cbn [exec_loop];
    destruct (exec _ s i) as [m|] eqn:Hexec; eauto;
    apply exec_open_span in Hexec;
    rewrite (proj2 (Nat.ltb_lt _ _)) by lia.
  - lia.
  - apply IH. lia.
Qed.

Lemma while_exec_total {St} (r : regex) (s : jsstring)
    (body : rmatch_result → St → St) (st : St) :
  ∃ st', while_exec (Seq open_braces r) s body st = Some st'.
Proof. apply exec_loop_total. lia. Qed.

(** Both scanners return a list for every template. *)
Lemma parsePlaceholders_total (template : jsstring) :
  ∃ names, parsePlaceholders template = Some names.
Proof. unfold parsePlaceholders. open_re simpleRe. apply while_exec_total. Qed.

Lemma passes_total {A} (tok : A → token)
    (mk : (rmatch_result → token) → rmatch_result → A) (template : jsstring) :
  ∃ l, passes tok mk template = Some l.
Proof.
  unfold passes, pass.
  open_re namedRe. open_re anonRe. open_re radioRe. open_re aiRe.
  repeat match goal with
    | |- context [while_exec (Seq open_braces ?r) ?s ?b ?st] =>
        let t := fresh "t" in
        let E := fresh "E" in
        destruct (while_exec_total r s b st) as [t E]; rewrite E; clear E;
        cbn [mbind option_bind]
    end.
  eauto.
Qed.

Lemma parseChoicePlaceholders_total (template : jsstring) :
  ∃ tokens, parseChoicePlaceholders template = Some tokens.
Proof.
  unfold parseChoicePlaceholders.
  destruct (passes_total id (λ mk, mk) template) as [l ->]. cbn. eauto.
Qed.

(** The scan that keeps the spans is the scan of the program: forgetting
    the spans gives the tokens in the order of acceptance. *)
Lemma exec_loop_fmap {A B} (g : A → B) (r : regex) (s : jsstring)
    (bodyA : rmatch_result → A → A) (bodyB : rmatch_result → B → B) :
  (∀ m a, g (bodyA m a) = bodyB m (g a)) →
  ∀ (fuel i : nat) (a : A),
    exec_loop fuel r s i bodyB (g a) = g <$> exec_loop fuel r s i bodyA a.
Proof.
  intros Hbody. induction fuel as [|fuel IH]; intros i a; cbn [exec_loop];
    destruct (exec r s i) as [m|]; try reflexivity;
    destruct (i <? m_end m); try reflexivity.
  rewrite <- Hbody. apply IH.
Qed.

Lemma pass_spans (re : regex) (check : bool) (mk : rmatch_result → token)
    (template : jsstring) (l : list (token * (nat * nat))) :
  pass id re check mk template (l.*1)
  = fmap (M := list) fst
      <$> pass fst re check (λ m, (mk m, (m_index m, m_end m))) template l.
Proof.
  unfold pass, while_exec. apply (exec_loop_fmap (fmap (M := list) fst)).
  intros m a. rewrite !list_fmap_id.
  change (map fst a) with (a.*1).
  destruct (check && overlaps template m (a.*1)); [reflexivity|].
  rewrite fmap_app. reflexivity.
Qed.

Lemma accepted_spans_tokens (template : jsstring) :
  parseChoicePlaceholders template
  = (λ l, Array_sort (by_first_index template) (l.*1)) <$> accepted_spans template.
Proof.
  unfold parseChoicePlaceholders, accepted_spans, passes.
  change (@nil token) with ((@nil (token * (nat * nat))).*1).
  rewrite pass_spans.
  destruct (pass fst namedRe _ _ _ _) as [l1|]; [|reflexivity]. cbn [fmap option_fmap option_map mbind option_bind].
  rewrite pass_spans.
  destruct (pass fst anonRe _ _ _ _) as [l2|]; [|reflexivity]. cbn [fmap option_fmap option_map mbind option_bind].
  rewrite pass_spans.
  destruct (pass fst radioRe _ _ _ _) as [l3|]; [|reflexivity]. cbn [fmap option_fmap option_map mbind option_bind].
  rewrite pass_spans.
  destruct (pass fst aiRe _ _ _ _) as [l4|]; reflexivity.
Qed.

(** The final sort orders the tokens by the index at which their text first
    occurs in the template. *)
Lemma sort_insert_sorted {A} (key : A → Z) (x : A) (l : list A) :
  StronglySorted (λ a b, (key a ≤ key b)%Z) l →
  StronglySorted (λ a b, (key a ≤ key b)%Z) (sort_insert (λ a b, (key a - key b)%Z) x l)
  ∧ ∀ y, y ∈ sort_insert (λ a b, (key a - key b)%Z) x l ↔ y = x ∨ y ∈ l.
Proof.
  induction l as [|y l IH]; intros Hs; cbn [sort_insert].
  - split; [repeat constructor|]. intros y. rewrite list_elem_of_singleton, elem_of_nil. tauto.
  - apply StronglySorted_inv in Hs as [Hs Hy].
    destruct (Z.ltb_spec 0 (key x - key y)) as [Hlt|Hge].
    + destruct (IH Hs) as [IHs IHe]. split.
      * constructor; [exact IHs|]. apply Forall_forall. intros z Hz.
        apply IHe in Hz as [->|Hz]; [lia|].
        rewrite Forall_forall in Hy. apply Hy, Hz.
      * intros z. rewrite !elem_of_cons, IHe. tauto.
    + split.
      * constructor; [constructor; assumption|]. constructor; [lia|].
        eapply Forall_impl; [exact Hy|]. cbn. intros; lia.
      * intros z. rewrite !elem_of_cons. tauto.
Qed.

Lemma Array_sort_sorted {A} (key : A → Z) (l : list A) :
  StronglySorted (λ a b, (key a ≤ key b)%Z) (Array_sort (λ a b, (key a - key b)%Z) l).
Proof.
  induction l as [|x l IH]; cbn; [constructor|].
  apply sort_insert_sorted, IH.
Qed.

Lemma parseChoicePlaceholders_sorted (template : jsstring) (tokens : list token) :
  parseChoicePlaceholders template = Some tokens →
  StronglySorted (λ a b, (first_index template a ≤ first_index template b)%Z) tokens.
Proof.
  unfold parseChoicePlaceholders.
  destruct (passes id _ template) as [l|]; [|discriminate].
  intros [= <-]. apply (Array_sort_sorted (first_index template)).
Qed.

(** C8, at a template in which the text of a named token occurs twice: the
    anonymous choice that starts at offset 10 runs to offset 25, over the
    second named token at offsets 16 to 25, and is accepted all the same,
    because the overlap test looks at the first occurrence of the text of a
    token (offset 0) and not at the token.  The output lists the token at
    offset 16 before the token at offset 10. *)
Theorem C8_overlapping_token_accepted :
  let template := lit "{{n:x,y}} {{a,b|{{n:x,y}}" in
  let named := Token (lit "{{n:x,y}}") (Some (lit "n")) [lit "x"; lit "y"] None choice None in
  let anon := Token (lit "{{a,b|{{n:x,y}}") None [lit "a"; lit "b"]
                (Some (lit "{{n:x,y")) choice None in
  accepted_spans template = Some [(named, (0, 9)); (named, (16, 25)); (anon, (10, 25))]
  ∧ parseChoicePlaceholders template = Some [named; named; anon]
  ∧ spans_overlap (16, 25) (10, 25)
  ∧ overlaps_token template 10 25 named = false.
Proof.
  cbv zeta. split; [vm_compute; reflexivity|]. split; [vm_compute; reflexivity|].
  split; [unfold spans_overlap; cbn; lia|]. vm_compute. reflexivity.
Qed.

(** ** What the matcher finds is a word of the pattern *)

Lemma rmatch_sound (r : regex) :
  ∀ (x : mstate) (k : cont) (z : mstate),
    rmatch r x k = Some z →
    ∃ w y, lang r (ms_pos x) w
           ∧ ms_rest x = w ++ ms_rest y
           ∧ ms_pos y = ms_pos x + length w
           ∧ k y = Some z.
Proof.
  induction r as [|p| |r1 IH1 r2 IH2|r1 IH1 r2 IH2|greedy r1 IH1|i r1 IH1];
    intros x k z; cbn [rmatch].
  - intros Hk. exists [], x. split; [constructor|]. cbn. auto with lia.
  - destruct (ms_rest x) as [|c s'] eqn:Hrest; [discriminate|].
    destruct (p c) eqn:Hp; [|discriminate]. intros Hk.
    exists [c], (MState (S (ms_pos x)) s' (ms_caps x)).
    split; [constructor; exact Hp|]. cbn. auto with lia.
  - destruct (Nat.eqb_spec (ms_pos x) 0) as [Hz|]; [|discriminate]. intros Hk.
    exists [], x. rewrite Hz. split; [constructor|]. cbn. auto.
  - intros (w1 & y1 & L1 & R1 & P1 & (w2 & y & L2 & R2 & P2 & Hk)%IH2)%IH1.
    exists (w1 ++ w2), y. split; [constructor; [exact L1|rewrite <- P1; exact L2]|].
    rewrite R1, R2, P2, P1, length_app, <- app_assoc. auto with lia.
  - destruct (rmatch r1 x k) as [z'|] eqn:H1.
    + intros [= <-]. apply IH1 in H1 as (w & y & L & ?). exists w, y.
      split; [apply lang_alt_l, L|assumption].
    + intros (w & y & L & ?)%IH2. exists w, y. split; [apply lang_alt_r, L|assumption].
  - generalize (length (ms_rest x)) as fuel. intros fuel. revert x.
    induction fuel as [|fuel IHf]; intros x; cbn [star_loop].
    + intros Hk. exists [], x. split; [constructor|]. cbn. auto with lia.
    + assert (Hagain : rmatch r1 x
                (λ y, if ms_pos x <? ms_pos y
                      then star_loop (rmatch r1) greedy k fuel y else None) = Some z →
                       ∃ w y, lang (Star greedy r1) (ms_pos x) w
                              ∧ ms_rest x = w ++ ms_rest y
                              ∧ ms_pos y = ms_pos x + length w
                              ∧ k y = Some z).
      { intros (w1 & y1 & L1 & R1 & P1 & Hy1)%IH1.
        destruct (Nat.ltb_spec (ms_pos x) (ms_pos y1)) as [Hlt|]; [|discriminate].
        apply IHf in Hy1 as (w2 & y & L2 & R2 & P2 & Hk).
        exists (w1 ++ w2), y. split.
        - constructor; [|exact L1|rewrite <- P1; exact L2].
          intros ->. cbn in P1. lia.
        - rewrite R1, R2, P2, P1, length_app, <- app_assoc. auto with lia. }
      destruct greedy.
      * destruct (rmatch r1 x _) as [z'|] eqn:Hr.
        -- intros [= <-]. apply Hagain. reflexivity.
        -- intros Hk. exists [], x. split; [constructor|]. cbn. auto with lia.
      * destruct (k x) as [z'|] eqn:Hkx.
        -- intros [= <-]. exists [], x. split; [constructor|]. cbn. auto with lia.
        -- exact Hagain.
  - intros (w & y1 & L & R & Ps & Hk)%IH1.
    exists w, (MState (ms_pos y1) (ms_rest y1)
                 ((i, take (ms_pos y1 - ms_pos x) (ms_rest x)) :: ms_caps y1)).
    split; [constructor; exact L|]. cbn [ms_rest ms_pos].
    split; [exact R|]. split; [exact Ps|exact Hk].
Qed.

(** The text of a match is a word of the pattern, and it is the text of the
    input at the index of the match. *)
Lemma match_at_sound (r : regex) (pos : nat) (s : jsstring) (m : rmatch_result) :
  match_at r pos s = Some m →
  m_index m = pos ∧ lang r pos (m_0 m) ∧ ∃ rest, s = m_0 m ++ rest.
Proof.
  unfold match_at. destruct (rmatch r _ Some) as [y|] eqn:Hm; [|discriminate].
  intros [= <-]. cbn [m_index m_0].
  apply rmatch_sound in Hm as (w & y' & L & R & Ps & [= ->]). cbn in R, Ps.
  rewrite Ps, R. replace (pos + length w - pos) with (length w) by lia.
  rewrite take_app_length. eauto.
Qed.

Lemma search_sound (r : regex) (pos : nat) (s : jsstring) (m : rmatch_result) :
  search r pos s = Some m →
  lang r (m_index m) (m_0 m) ∧ ∃ rest, drop (m_index m - pos) s = m_0 m ++ rest.
Proof.
  revert pos. induction s as [|c s IH]; intros pos; cbn [search];
    destruct (match_at r pos _) as [m'|] eqn:Hm.
  - intros [= <-]. apply match_at_sound in Hm as (-> & L & rest & Hs).
    rewrite Nat.sub_diag. eauto.
  - discriminate.
  - intros [= <-]. apply match_at_sound in Hm as (-> & L & rest & Hs).
    rewrite Nat.sub_diag. eauto.
  - intros Hs. pose proof (search_index _ _ _ _ Hs). apply IH in Hs as (L & rest & Hd).
    split; [exact L|]. exists rest.
    replace (m_index m - pos) with (S (m_index m - S pos)) by lia. exact Hd.
Qed.

Lemma exec_sound (r : regex) (s : jsstring) (i : nat) (m : rmatch_result) :
  exec r s i = Some m →
  lang r (m_index m) (m_0 m) ∧ ∃ rest, drop (m_index m) s = m_0 m ++ rest.
Proof.
  unfold exec. destruct (Nat.leb_spec i (length s)); [|discriminate]. intros Hs.
  pose proof (search_index _ _ _ _ Hs). apply search_sound in Hs as (L & rest & Hd).
  split; [exact L|]. exists rest. rewrite drop_drop in Hd.
  replace (i + (m_index m - i)) with (m_index m) in Hd by lia. exact Hd.
Qed.

Lemma replace_matches_sound (r : regex) (s : jsstring) (m : rmatch_result) :
  ∀ (fuel i : nat),
    m ∈ replace_matches fuel r s i →
    lang r (m_index m) (m_0 m) ∧ ∃ rest, drop (m_index m) s = m_0 m ++ rest.
Proof.
  induction fuel as [|fuel IH]; intros i; cbn [replace_matches].
  - intros []%elem_of_nil.
  - destruct (exec r s i) as [m'|] eqn:Hexec; [|intros []%elem_of_nil].
    intros [->|Hin]%elem_of_cons; [eapply exec_sound, Hexec|eapply IH, Hin].
Qed.

(** The words of a repeated class are the strings of the class. *)
Lemma lang_star_class (greedy : bool) (p : N → bool) (pos : nat) (w : jsstring) :
  lang (Star greedy (Chr p)) pos w → Forall (λ c, p c = true) w.
Proof.
  remember (Star greedy (Chr p)) as r eqn:Hr. intros L.
  induction L; try discriminate; injection Hr as -> ->.
  - constructor.
  - apply Forall_app. split; [|apply IHL2; reflexivity].
    inversion L1; subst. repeat constructor. assumption.
Qed.

(** The spans the Simple Filler replaces are [{{name}}] tokens. *)
Lemma fillRe_words (pos : nat) (w : jsstring) : lang fillRe pos w → simple_word w.
Proof.
  unfold fillRe, open_braces, close_braces, plus, name_char, ws, one. cbn [seqs].
  intros L.
  repeat match goal with
    | H : lang (Seq _ _) _ _ |- _ => inversion H; subst; clear H
    | H : lang (Grp _ _) _ _ |- _ => inversion H; subst; clear H
    | H : lang (Chr _) _ _ |- _ => inversion H; subst; clear H
    | H : lang (Star _ (Chr _)) _ _ |- _ => apply lang_star_class in H
    end.
  repeat match goal with
    | H : (_ =? _)%N = true |- _ => apply N.eqb_eq in H; subst
    end.
  match goal with
  | H1 : Forall _ ?a, H2 : Forall _ ?b, H3 : Forall _ ?c |- _ =>
      match goal with
      | |- context [[?x] ++ b] => exists a, (x :: b), c
      end
  end.
  split; [cbn; rewrite <- ?app_assoc; reflexivity|].
  split; [assumption|]. split; [discriminate|].
  split; [constructor; assumption|assumption].
Qed.

Lemma simple_matches_shape (template : jsstring) (m : rmatch_result) :
  m ∈ simple_matches template →
  simple_word (m_0 m) ∧ ∃ rest, drop (m_index m) template = m_0 m ++ rest.
Proof.
  intros [L Hd]%replace_matches_sound. split; [eapply fillRe_words, L|exact Hd].
Qed.

(** ** Tokens in the text between the choice tokens *)

Lemma name_char_range (c : N) : is_name_char c = true → (45 ≤ c ∧ c ≤ 122)%N.
Proof.
  unfold is_name_char, is_word. unlit.
  rewrite !orb_true_iff, !andb_true_iff, !N.leb_le, !N.eqb_eq. lia.
Qed.

Lemma space_range (c : N) : is_space c = true → (c ≤ 32 ∨ 160 ≤ c)%N.
Proof.
  unfold is_space.
  rewrite !orb_true_iff, !andb_true_iff, !N.leb_le, !N.eqb_eq. lia.
Qed.

Lemma name_not_space (c : N) : is_name_char c = true → is_space c = false.
Proof.
  intros Hn%name_char_range. destruct (is_space c) eqn:Hs; [|reflexivity].
  apply space_range in Hs. lia.
Qed.

Lemma space_not_name (c : N) : is_space c = true → is_name_char c = false.
Proof.
  intros Hs. destruct (is_name_char c) eqn:Hn; [|reflexivity].
  apply name_not_space in Hn. congruence.
Qed.

(** A [{{name}}] token has its two opening braces in front and no other. *)
Lemma simple_word_braces (w : jsstring) :
  simple_word w →
  ∃ u, w = ch "{" :: ch "{" :: u ∧ (ch "{" ∉ u) ∧ 3 ≤ length u.
Proof.
  intros (w1 & n & w2 & -> & H1 & Hne & Hn & H2). unlit. cbn [app].
  eexists. split; [reflexivity|]. split.
  - rewrite !not_elem_of_app. repeat split.
    + intros Hin. rewrite Forall_forall in H1. apply H1, space_range in Hin. lia.
    + intros Hin. rewrite Forall_forall in Hn. apply Hn, name_char_range in Hin. lia.
    + intros Hin. rewrite Forall_forall in H2. apply H2, space_range in Hin. lia.
    + intros Hin. repeat (apply elem_of_cons in Hin as [Hin|Hin]; [discriminate Hin|]).
      apply elem_of_nil in Hin as [].
  - rewrite !length_app. destruct n; [congruence|]. cbn. lia.
Qed.

Lemma lang_seq_inv (r1 r2 : regex) (pos : nat) (w : jsstring) :
  lang (Seq r1 r2) pos w →
  ∃ w1 w2, w = w1 ++ w2 ∧ lang r1 pos w1 ∧ lang r2 (pos + length w1) w2.
Proof. intros L. inversion L; subst. eauto. Qed.

Lemma lang_one_inv (c : N) (pos : nat) (w : jsstring) : lang (one c) pos w → w = [c].
Proof.
  unfold one. intros L. inversion L as [|? ? c' Hc| | | | | | |]; subst.
  apply N.eqb_eq in Hc. congruence.
Qed.

Lemma lang_open_braces (pos : nat) (w : jsstring) :
  lang open_braces pos w → w = [ch "{"; ch "{"].
Proof.
  intros (w1 & w2 & -> & ->%lang_one_inv & ->%lang_one_inv)%lang_seq_inv. reflexivity.
Qed.

Lemma lang_close_braces (pos : nat) (w : jsstring) :
  lang close_braces pos w → w = [ch "}"; ch "}"].
Proof.
  intros (w1 & w2 & -> & ->%lang_one_inv & ->%lang_one_inv)%lang_seq_inv. reflexivity.
Qed.

(** The word of a sequence ends with a word of its last pattern. *)
Lemma lang_seqs_last (l : list regex) (r : regex) :
  ∀ (pos : nat) (w : jsstring),
    lang (seqs (l ++ [r])) pos w → ∃ w1 w2 pos', w = w1 ++ w2 ∧ lang r pos' w2.
Proof.
  induction l as [|r0 l IH]; intros pos w; cbn [app seqs].
  - intros L. exists [], w, pos. auto.
  - destruct (l ++ [r]) as [|r1 l'] eqn:Hl; [destruct l; discriminate|].
    intros (w1 & w2 & -> & _ & (w3 & w4 & pos' & -> & L)%IH)%lang_seq_inv.
    exists (w1 ++ w3), w4, pos'. rewrite app_assoc. auto.
Qed.

(** A token of the Choice Filler starts with two opening braces and ends
    with two closing braces. *)
Lemma choiceRe_words (pos : nat) (w : jsstring) :
  lang choiceRe pos w → ∃ u, w = ch "{" :: ch "{" :: u ++ [ch "}"; ch "}"].
Proof.
  unfold choiceRe.
  match goal with
  | |- lang (seqs (open_braces :: ?l)) _ _ → _ =>
      change (seqs (open_braces :: l)) with (Seq open_braces (seqs l));
      change l with ((removelast l) ++ [close_braces])
  end.
  intros (w1 & w2 & -> & ->%lang_open_braces
          & (w3 & w4 & pos' & -> & ->%lang_close_braces)%lang_seqs_last)%lang_seq_inv.
  exists w3. reflexivity.
Qed.

(** A greedy repetition of a class takes the whole run of the class when
    what follows the run lets the rest succeed. *)
Lemma star_loop_class_greedy (p : N → bool) (k : cont) (z : mstate) :
  ∀ (fuel : nat) (w r : jsstring) (x : mstate),
    ms_rest x = w ++ r →
    length w ≤ fuel →
    Forall (λ c, p c = true) w →
    (∀ c r', r = c :: r' → p c = false) →
    k (MState (ms_pos x + length w) r (ms_caps x)) = Some z →
    star_loop (rmatch (Chr p)) true k fuel x = Some z.
Proof.
  set (step := rmatch (Chr p)).
  induction fuel as [|fuel IH]; intros w r x Hrest Hfuel Hw Hr Hk; cbn [star_loop].
  - destruct w; [|cbn in Hfuel; lia]. cbn in Hk, Hrest.
    rewrite Nat.add_0_r, <- Hrest in Hk. destruct x. exact Hk.
  - unfold step at 1. cbn [rmatch]. destruct w as [|c w].
    + cbn in Hrest, Hk. rewrite Nat.add_0_r, <- Hrest in Hk.
      assert (Hx : k x = Some z) by (destruct x; exact Hk).
      destruct (ms_rest x) as [|c r'] eqn:Hrx; [exact Hx|].
      rewrite (Hr c r') by (symmetry; exact Hrest). exact Hx.
    + rewrite Hrest. cbn [app]. inversion Hw as [|? ? Hc Hw']; subst. rewrite Hc.
      cbn [ms_pos]. rewrite (proj2 (Nat.ltb_lt _ _)) by lia.
      rewrite (IH w r (MState (S (ms_pos x)) (w ++ r) (ms_caps x))); try reflexivity.
      * cbn in Hfuel. lia.
      * exact Hw'.
      * exact Hr.
      * cbn [ms_pos ms_caps]. cbn [length] in Hk.
        replace (S (ms_pos x) + length w) with (ms_pos x + S (length w)) by lia. exact Hk.
Qed.

Lemma star_class_greedy (p : N → bool) (k : cont) (z : mstate)
    (w r : jsstring) (x : mstate) :
  ms_rest x = w ++ r →
  Forall (λ c, p c = true) w →
  (∀ c r', r = c :: r' → p c = false) →
  k (MState (ms_pos x + length w) r (ms_caps x)) = Some z →
  rmatch (Star true (Chr p)) x k = Some z.
Proof.
  intros Hrest Hw Hr Hk. cbn [rmatch].
  apply (star_loop_class_greedy p k z _ w r); try assumption.
  rewrite Hrest, length_app. lia.
Qed.

Lemma rmatch_seq (r1 r2 : regex) (x : mstate) (k : cont) :
  rmatch (Seq r1 r2) x k = rmatch r1 x (λ y, rmatch r2 y k).
Proof. reflexivity. Qed.

Lemma rmatch_grp (i : nat) (r : regex) (x : mstate) (k : cont) :
  rmatch (Grp i r) x k
  = rmatch r x (λ y, k (MState (ms_pos y) (ms_rest y)
                          ((i, take (ms_pos y - ms_pos x) (ms_rest x)) :: ms_caps y))).
Proof. reflexivity. Qed.

Lemma rmatch_one (c : N) (pos : nat) (s : jsstring) (caps : captures) (k : cont) :
  rmatch (one c) (MState pos (c :: s) caps) k = k (MState (S pos) s caps).
Proof. unfold one. cbn [rmatch ms_rest ms_pos ms_caps]. rewrite N.eqb_refl. reflexivity. Qed.

Lemma rmatch_chr (p : N → bool) (c : N) (pos : nat) (s : jsstring) (caps : captures)
    (k : cont) :
  p c = true → rmatch (Chr p) (MState pos (c :: s) caps) k = k (MState (S pos) s caps).
Proof. intros Hp. cbn [rmatch ms_rest ms_pos ms_caps]. rewrite Hp. reflexivity. Qed.

#[local] Opaque rmatch.

(** At the start of a [{{name}}] token the Simple Filler's pattern matches
    that token, whatever follows it. *)
Lemma fillRe_match_word (pos : nat) (w rest : jsstring) :
  simple_word w →
  ∃ m, match_at fillRe pos (w ++ rest) = Some m ∧ m_index m = pos ∧ m_0 m = w.
Proof.
  intros (w1 & n & w2 & -> & H1 & Hne & Hn & H2).
  destruct n as [|c n]; [congruence|]. inversion Hn as [|? ? Hc Hn']; subst.
  unfold match_at.
  assert (Hm : rmatch fillRe
                 (MState pos ((lit "{{" ++ w1 ++ (c :: n) ++ w2 ++ lit "}}") ++ rest) []) Some
               = Some (MState (pos + length (lit "{{" ++ w1 ++ (c :: n) ++ w2 ++ lit "}}"))
                         rest [(1, c :: n)])).
  { unfold fillRe, open_braces, close_braces, plus, name_char, ws. cbn [seqs].
    rewrite <- !app_assoc.
    change (lit "{{" ++ w1 ++ (c :: n) ++ w2 ++ lit "}}" ++ rest)
      with (ch "{" :: ch "{" :: w1 ++ (c :: n) ++ w2 ++ ch "}" :: ch "}" :: rest).
    rewrite !rmatch_seq, !rmatch_one, rmatch_seq.
    (* leading white space *)
    apply (star_class_greedy is_space _ _ w1 ((c :: n) ++ w2 ++ ch "}" :: ch "}" :: rest));
      [reflexivity|exact H1| |].
    { intros c' r' [= -> _]. apply name_not_space, Hc. }
    cbv beta iota delta [ms_pos ms_rest ms_caps].
    rewrite rmatch_seq, rmatch_grp, rmatch_seq.
    change ((c :: n) ++ w2 ++ ch "}" :: ch "}" :: rest)
      with (c :: n ++ w2 ++ ch "}" :: ch "}" :: rest).
    rewrite (rmatch_chr is_name_char c) by exact Hc.
    (* the name *)
    apply (star_class_greedy is_name_char _ _ n (w2 ++ ch "}" :: ch "}" :: rest));
      [reflexivity|exact Hn'| |].
    { intros c' r' Heq. destruct w2 as [|s2 w2]; cbn in Heq; injection Heq as <- _.
      - reflexivity.
      - inversion H2; subst. apply space_not_name. assumption. }
    cbv beta iota delta [ms_pos ms_rest ms_caps]. rewrite rmatch_seq.
    (* trailing white space *)
    apply (star_class_greedy is_space _ _ w2 (ch "}" :: ch "}" :: rest));
      [reflexivity|exact H2| |].
    { intros c' r' [= <- _]. reflexivity. }
    cbv beta iota delta [ms_pos ms_rest ms_caps].
    rewrite !rmatch_seq, !rmatch_one.
    f_equal. f_equal.
    - unlit. rewrite !length_app. cbn [length]. lia.
    - match goal with
      | |- context [take ?j _] => replace j with (S (length n)) by lia
      end.
      cbn [take]. rewrite take_app_length. reflexivity. }
  rewrite Hm. eexists. split; [reflexivity|]. cbn [m_index m_0 ms_pos]. split; [reflexivity|].
  replace (pos + length (lit "{{" ++ w1 ++ (c :: n) ++ w2 ++ lit "}}") - pos)
    with (length (lit "{{" ++ w1 ++ (c :: n) ++ w2 ++ lit "}}")) by lia.
  apply take_app_length.
Qed.

#[local] Transparent rmatch.

Lemma match_at_index (r : regex) (pos : nat) (s : jsstring) (m : rmatch_result) :
  match_at r pos s = Some m → m_index m = pos.
Proof.
  unfold match_at. destruct (rmatch r _ Some); [|discriminate]. intros [= <-]. reflexivity.
Qed.

(** A search that starts at or before a position where the pattern matches
    stops at or before that position. *)
Lemma search_finds (r : regex) :
  ∀ (s : jsstring) (pos a : nat) (m : rmatch_result),
    pos ≤ a → a - pos ≤ length s →
    match_at r a (drop (a - pos) s) = Some m →
    ∃ m', search r pos s = Some m' ∧ m_index m' ≤ a ∧ (m_index m' = a → m' = m).
Proof.
  induction s as [|c s IH]; intros pos a m Hle Hlen Hm; cbn [search].
  - cbn in Hlen. assert (a = pos) as -> by lia. rewrite Nat.sub_diag, drop_0 in Hm.
    rewrite Hm. exists m. apply match_at_index in Hm. auto with lia.
  - destruct (match_at r pos (c :: s)) as [m'|] eqn:Hpos.
    + exists m'. pose proof (match_at_index _ _ _ _ Hpos) as Hi.
      split; [reflexivity|]. split; [lia|]. intros Ha.
      assert (a = pos) as -> by lia. rewrite Nat.sub_diag, drop_0 in Hm. congruence.
    + assert (pos ≠ a).
      { intros ->. rewrite Nat.sub_diag, drop_0 in Hm. congruence. }
      apply (IH (S pos) a m); [lia|cbn in Hlen; lia|].
      replace (a - pos) with (S (a - S pos)) in Hm by lia. exact Hm.
Qed.

Lemma occurrence_lookup (s w rest : jsstring) (a i : nat) :
  drop a s = w ++ rest → i < length w → s !! (a + i) = w !! i.
Proof.
  intros Hd Hi. rewrite <- (lookup_drop s a i), Hd. apply lookup_app_l, Hi.
Qed.

(** A [{{name}}] token that starts before another one ends before it. *)
Lemma simple_words_apart (s w rest w' rest' : jsstring) (j a : nat) :
  drop j s = w' ++ rest' → simple_word w' →
  drop a s = w ++ rest → simple_word w →
  j < a → j + length w' ≤ a.
Proof.
  intros Hj (u' & -> & Hu' & Hlen')%simple_word_braces
         Ha (u & -> & Hu & Hlen)%simple_word_braces Hlt.
  destruct (Nat.le_gt_cases (j + length (ch "{" :: ch "{" :: u')) a) as [|Hin]; [assumption|].
  exfalso. cbn [length] in Hin.
  pose proof (occurrence_lookup _ _ _ a 0 Ha ltac:(cbn; lia)) as Ha0.
  pose proof (occurrence_lookup _ _ _ a 1 Ha ltac:(cbn; lia)) as Ha1.
  cbn in Ha0, Ha1. rewrite Nat.add_0_r in Ha0.
  destruct (decide (a = S j)) as [->|Hne].
  - pose proof (occurrence_lookup _ _ _ j 2 Hj ltac:(cbn; lia)) as Hj2.
    replace (S j + 1) with (j + 2) in Ha1 by lia. rewrite Ha1 in Hj2. cbn in Hj2.
    apply Hu'. eapply list_elem_of_lookup_2. symmetry. exact Hj2.
  - pose proof (occurrence_lookup _ _ _ j (a - j) Hj ltac:(cbn; lia)) as Hjd.
    replace (j + (a - j)) with a in Hjd by lia. rewrite Ha0 in Hjd.
    replace (a - j) with (S (S (a - j - 2))) in Hjd by lia. cbn in Hjd.
    apply Hu'. eapply list_elem_of_lookup_2. symmetry. exact Hjd.
Qed.

(** The Simple Filler finds every [{{name}}] token of its input, wherever
    the token stands. *)
Lemma replace_matches_finds_word (s w rest : jsstring) (a : nat) :
  drop a s = w ++ rest → simple_word w →
  ∀ (fuel i : nat),
    i ≤ a → length s + 2 ≤ fuel + i →
    ∃ m, m ∈ replace_matches fuel fillRe s i ∧ m_index m = a ∧ m_0 m = w.
Proof.
  intros Ha Hw.
  assert (Hlen : a < length s).
  { destruct (Nat.le_gt_cases (length s) a) as [Hge|]; [|assumption].
    rewrite drop_ge in Ha by exact Hge.
    apply simple_word_braces in Hw as (u & -> & _). discriminate. }
  destruct (fillRe_match_word a w rest Hw) as (m & Hm & Hmi & Hm0).
  induction fuel as [|fuel IH]; intros i Hi Hfuel; [lia|]. cbn [replace_matches].
  unfold exec. rewrite (proj2 (Nat.leb_le i (length s))) by lia.
  destruct (search_finds fillRe (drop i s) i a m) as (m' & Hs & Hle & Heq).
  - exact Hi.
  - rewrite length_drop. lia.
  - rewrite drop_drop. replace (i + (a - i)) with a by lia. rewrite Ha. exact Hm.
  - rewrite Hs. destruct (decide (m_index m' = a)) as [Hat|Hbefore].
    + exists m'. rewrite (Heq Hat). split; [left|auto].
    + assert (Hexec : exec fillRe s i = Some m').
      { unfold exec. rewrite (proj2 (Nat.leb_le i (length s))) by lia. exact Hs. }
      pose proof (exec_index _ _ _ _ Hexec) as Hii.
      apply exec_sound in Hexec as (L%fillRe_words & rest' & Hd).
      pose proof (simple_words_apart _ _ _ _ _ _ _ Hd L Ha Hw ltac:(lia)) as Hend.
      pose proof L as (u' & Hu' & _ & Hlen')%simple_word_braces.
      assert (Hne : length (m_0 m') ≠ 0) by (rewrite Hu'; cbn; lia).
      rewrite (proj2 (Nat.eqb_neq _ _) Hne).
      destruct (IH (m_end m')) as (m2 & Hin & ?); [exact Hend|unfold m_end; lia|].
      exists m2. split; [right; exact Hin|assumption].
Qed.


(** A [{{name}}] token with an opening brace outside a token of the Choice
    Filler lies wholly outside that token. *)
Lemma words_apart_choice (t w restw cw restc : jsstring) (a c i : nat) :
  drop a t = w ++ restw → simple_word w →
  drop c t = cw ++ restc → (∃ u, cw = ch "{" :: ch "{" :: u ++ [ch "}"; ch "}"]) →
  a ≤ i < a + length w → t !! i = Some (ch "{") →
  ¬ (c ≤ i < c + length cw) →
  a + length w ≤ c ∨ c + length cw ≤ a.
Proof.
  intros Ha (u & -> & Hu & Hlen)%simple_word_braces Hc [v ->] Hi Hbrace Hout.
  cbn [length] in *. rewrite length_app in *. cbn [length] in *.
  assert (F1 : ∀ d, 2 ≤ d → d < S (S (length u)) → t !! (a + d) ≠ Some (ch "{")).
  { intros d Hd1 Hd2 Hl. rewrite (occurrence_lookup _ _ _ a d Ha) in Hl by (cbn; lia).
    replace d with (S (S (d - 2))) in Hl by lia. cbn in Hl.
    apply Hu. eapply list_elem_of_lookup_2, Hl. }
  pose proof (occurrence_lookup _ _ _ a 0 Ha ltac:(cbn; lia)) as F4.
  rewrite Nat.add_0_r in F4. cbn in F4.
  pose proof (occurrence_lookup _ _ _ c 0 Hc ltac:(cbn; lia)) as F2.
  rewrite Nat.add_0_r in F2. cbn in F2.
  pose proof (occurrence_lookup _ _ _ c 1 Hc ltac:(cbn; rewrite length_app; cbn; lia)) as F2'.
  cbn in F2'.
  pose proof (occurrence_lookup _ _ _ c (S (S (length v + 1))) Hc
                ltac:(cbn; rewrite length_app; cbn; lia)) as F3.
  change ((ch "{" :: ch "{" :: v ++ [ch "}"; ch "}"]) !! S (S (length v + 1)))
    with ((v ++ [ch "}"; ch "}"]) !! (length v + 1)) in F3.
  rewrite lookup_app_r in F3 by lia.
  replace (length v + 1 - length v) with 1 in F3 by lia.
  change ([ch "}"; ch "}"] !! 1) with (Some (ch "}")) in F3.
  assert (Hi' : i = a ∨ i = a + 1).
  { destruct (decide (i < a + 2)) as [|Hge]; [lia|]. exfalso.
    apply (F1 (i - a)); [lia|lia|]. replace (a + (i - a)) with i by lia. exact Hbrace. }
  destruct (Nat.le_gt_cases (a + S (S (length u))) c) as [|Hov1]; [left; assumption|].
  destruct (Nat.le_gt_cases (c + S (S (length v + 2))) a) as [|Hov2]; [right; assumption|].
  exfalso. destruct (Nat.le_gt_cases c a) as [Hca|Hac].
  - destruct Hi' as [->| ->]; [apply Hout; lia|].
    destruct (decide (a + 1 < c + S (S (length v + 2)))) as [|Hlast]; [apply Hout; lia|].
    assert (a = c + S (S (length v + 1))) as Heq by lia.
    rewrite Heq in F4. rewrite F4 in F3. discriminate.
  - destruct (decide (c = a + 1)) as [->|Hne].
    + apply (F1 2); [lia|lia|]. replace (a + 2) with (a + 1 + 1) by lia. exact F2'.
    + apply (F1 (c - a)); [lia|lia|]. replace (a + (c - a)) with c by lia. exact F2.
Qed.

Lemma replace_matches_open_span (r : regex) (s : jsstring) (m : rmatch_result) :
  ∀ (fuel i : nat),
    m ∈ replace_matches fuel (Seq open_braces r) s i →
    m_index m < m_end m ∧ m_end m ≤ length s.
Proof.
  induction fuel as [|fuel IH]; intros i; cbn [replace_matches].
  - intros []%elem_of_nil.
  - destruct (exec _ s i) as [m'|] eqn:Hexec; [|intros []%elem_of_nil].
    intros [->|Hin]%elem_of_cons; [|eapply IH, Hin].
    apply exec_open_span in Hexec. lia.
Qed.

Lemma choice_matches_shape (template : jsstring) (m : rmatch_result) :
  m ∈ choice_matches template →
  m_index m < m_end m ∧ m_end m ≤ length template
  ∧ (∃ u, m_0 m = ch "{" :: ch "{" :: u ++ [ch "}"; ch "}"])
  ∧ ∃ rest, drop (m_index m) template = m_0 m ++ rest.
Proof.
  intros Hin. pose proof Hin as [L Hd]%replace_matches_sound.
  unfold choice_matches in Hin. revert Hin. open_re choiceRe.
  intros [? ?]%replace_matches_open_span.
  split; [assumption|]. split; [assumption|]. split; [eapply choiceRe_words, L|exact Hd].
Qed.



(** ** A word of the pattern is found by the matcher *)

Lemma star_loop_skip (step : mstate → cont → option mstate) (greedy : bool) (k : cont)
    (fuel : nat) (x : mstate) :
  is_Some (k x) → is_Some (star_loop step greedy k fuel x).
Proof.
  intros Hk. destruct fuel as [|fuel]; cbn [star_loop]; [exact Hk|].
  destruct greedy.
  - destruct (step x _); [eauto|exact Hk].
  - destruct (k x); [eauto|]. destruct Hk; discriminate.
Qed.

(** The matcher succeeds with a continuation that succeeds more often. *)
Lemma rmatch_mono (r : regex) :
  ∀ (x : mstate) (k1 k2 : cont),
    (∀ y, is_Some (k1 y) → is_Some (k2 y)) →
    is_Some (rmatch r x k1) → is_Some (rmatch r x k2).
Proof.
  induction r as [|p| |r1 IH1 r2 IH2|r1 IH1 r2 IH2|greedy r1 IH1|i r1 IH1];
    intros x k1 k2 Hk; cbn [rmatch].
  - apply Hk.
  - destruct (ms_rest x) as [|c s']; [auto|]. destruct (p c); [apply Hk|auto].
  - destruct (ms_pos x =? 0); [apply Hk|auto].
  - apply IH1. intros y. apply IH2, Hk.
  - intros H.
    destruct (rmatch r1 x k1) eqn:H1.
    + assert (H2 : is_Some (rmatch r1 x k2)) by (eapply IH1; [exact Hk|rewrite H1; eauto]).
      destruct H2 as [z ->]. eauto.
    + destruct (rmatch r1 x k2); [eauto|]. eapply IH2; [exact Hk|exact H].
  - generalize (length (ms_rest x)) as fuel. intros fuel. revert x.
    induction fuel as [|fuel IHf]; intros x; cbn [star_loop]; [apply Hk|].
    set (a1 := rmatch r1 x (λ y, if ms_pos x <? ms_pos y
                                 then star_loop (rmatch r1) greedy k1 fuel y else None)).
    set (a2 := rmatch r1 x (λ y, if ms_pos x <? ms_pos y
                                 then star_loop (rmatch r1) greedy k2 fuel y else None)).
    assert (Ha : is_Some a1 → is_Some a2).
    { apply IH1. intros y. destruct (ms_pos x <? ms_pos y); [apply IHf|auto]. }
    destruct greedy.
    + destruct a1 as [z1|] eqn:E1.
      * intros _. destruct Ha as [z2 ->]; eauto.
      * intros H1. destruct a2; [eauto|apply Hk, H1].
    + destruct (k1 x) as [z1|] eqn:E1.
      * intros _. destruct (Hk x) as [z2 ->]; [rewrite E1|]; eauto.
      * intros H1. destruct (k2 x); [eauto|apply Ha, H1].
  - apply IH1. intros y. apply Hk.
Qed.

(** More iterations than the input has code units change nothing to the
    success of a repetition. *)
Lemma star_loop_fuel (r : regex) (greedy : bool) (k : cont) :
  ∀ (n n' : nat) (x : mstate),
    n ≤ n' →
    is_Some (star_loop (rmatch r) greedy k n x) →
    is_Some (star_loop (rmatch r) greedy k n' x).
Proof.
  induction n as [|n IH]; intros n' x Hle.
  - cbn [star_loop]. apply star_loop_skip.
  - destruct n' as [|n']; [lia|]. cbn [star_loop].
    set (a1 := rmatch r x (λ y, if ms_pos x <? ms_pos y
                                then star_loop (rmatch r) greedy k n y else None)).
    set (a2 := rmatch r x (λ y, if ms_pos x <? ms_pos y
                                then star_loop (rmatch r) greedy k n' y else None)).
    assert (Ha : is_Some a1 → is_Some a2).
    { apply rmatch_mono. intros y. destruct (ms_pos x <? ms_pos y); [apply IH; lia|auto]. }
    destruct greedy.
    + destruct a1 as [z1|] eqn:E1.
      * intros _. destruct Ha as [z2 ->]; eauto.
      * intros H1. destruct a2; [eauto|exact H1].
    + destruct (k x); [eauto|]. exact Ha.
Qed.

Lemma rmatch_complete (r : regex) (pos : nat) (w : jsstring) :
  lang r pos w →
  ∀ (rest : jsstring) (caps : captures) (k : cont),
    (∀ caps', is_Some (k (MState (pos + length w) rest caps'))) →
    is_Some (rmatch r (MState pos (w ++ rest) caps) k).
Proof.
  induction 1 as [pos|p pos c Hc| |r1 r2 pos w1 w2 L1 IH1 L2 IH2|r1 r2 pos w L IH
                 |r1 r2 pos w L IH|greedy r pos|greedy r pos w1 w2 Hne L1 IH1 L2 IH2
                 |i r pos w L IH];
    intros rest caps k Hk; cbn [rmatch ms_rest ms_pos ms_caps app length] in *.
  - rewrite Nat.add_0_r in Hk. apply Hk.
  - rewrite Hc. replace (S pos) with (pos + 1) by lia. apply Hk.
  - apply Hk.
  - rewrite <- app_assoc. apply IH1. intros caps'. apply IH2. intros caps''.
    rewrite length_app, Nat.add_assoc in Hk. apply Hk.
  - destruct (IH rest caps k Hk) as [z ->]. eauto.
  - destruct (rmatch r1 _ k); [eauto|]. apply IH, Hk.
  - apply star_loop_skip. rewrite Nat.add_0_r in Hk. apply Hk.
  - rewrite <- app_assoc.
    destruct (length (w1 ++ w2 ++ rest)) as [|fuel] eqn:Hlen.
    { destruct w1; [congruence|discriminate Hlen]. }
    cbn [star_loop ms_pos].
    match goal with
    | |- context [rmatch r ?x ?k'] => assert (Hagain : is_Some (rmatch r x k'))
    end.
    { apply IH1. intros caps'. cbn [ms_pos].
      rewrite (proj2 (Nat.ltb_lt _ _)) by (destruct w1; [congruence|cbn; lia]).
      apply (star_loop_fuel r greedy k (length (w2 ++ rest))).
      - rewrite length_app in Hlen. destruct w1; [congruence|cbn in Hlen; lia].
      - apply (IH2 rest caps' k). intros caps''.
        rewrite length_app, Nat.add_assoc in Hk. apply Hk. }
    destruct Hagain as [z Hz]. destruct greedy.
    + rewrite Hz. eauto.
    + destruct (k _); [eauto|]. rewrite Hz. eauto.
  - apply IH. intros caps'. cbn [ms_pos ms_rest]. apply Hk.
Qed.

Lemma match_at_complete (r : regex) (pos : nat) (w rest : jsstring) :
  lang r pos w → is_Some (match_at r pos (w ++ rest)).
Proof.
  intros L. unfold match_at.
  destruct (rmatch_complete r pos w L rest [] Some) as [y ->]; eauto.
Qed.

(** Where a word of the pattern stands at or after [lastIndex], [exec]
    returns a match that starts at or before that word. *)
Lemma exec_complete (r : regex) (s w rest : jsstring) (i a : nat) :
  i ≤ a ≤ length s →
  drop a s = w ++ rest →
  lang r a w →
  ∃ m, exec r s i = Some m ∧ m_index m ≤ a.
Proof.
  intros Hi Hd L. unfold exec. rewrite (proj2 (Nat.leb_le _ _)) by lia.
  destruct (match_at_complete r a w rest L) as [m Hm].
  destruct (search_finds r (drop i s) i a m) as (m' & Hs & Hle & _).
  - lia.
  - rewrite length_drop. lia.
  - rewrite drop_drop. replace (i + (a - i)) with a by lia. rewrite Hd. exact Hm.
  - eauto.
Qed.

(** ** Patterns compared by their syntax *)

Lemma lang_erase (r : regex) (pos : nat) (w : jsstring) :
  lang r pos w → lang (erase r) pos w.
Proof.
  induction 1; cbn [erase]; try (econstructor; eassumption); assumption.
Qed.

Lemma lang_of_erase (r : regex) :
  ∀ (pos : nat) (w : jsstring), lang (erase r) pos w → lang r pos w.
Proof.
  induction r as [|p| |r1 IH1 r2 IH2|r1 IH1 r2 IH2|greedy r1 IH1|i r1 IH1];
    intros pos w; cbn [erase]; try (intros L; exact L).
  - intros L. inversion L; subst. constructor; auto.
  - intros L. inversion L; subst; [apply lang_alt_l|apply lang_alt_r]; auto.
  - intros L. remember (Star greedy (erase r1)) as R eqn:HR.
    induction L; try discriminate HR; injection HR as -> ->.
    + constructor.
    + constructor; auto.
  - intros L. constructor. auto.
Qed.

Lemma lang_shift (r : regex) (pos : nat) (w : jsstring) :
  lang r pos w → ∀ pos', bol_free r = true → lang r pos' w.
Proof.
  induction 1; intros pos'; cbn [bol_free]; try discriminate;
    try (intros [? ?]%andb_true_iff); try intros ?; econstructor; solve [eauto].
Qed.

(** Two patterns with no [^] that differ by their groups only match the
    same words, wherever they are tried. *)
Lemma lang_same (r1 r2 : regex) (pos1 pos2 : nat) (w : jsstring) :
  erase r1 = erase r2 → bol_free r2 = true → lang r1 pos1 w → lang r2 pos2 w.
Proof.
  intros He Hb L%lang_erase. rewrite He in L. apply lang_of_erase in L.
  eapply lang_shift; eassumption.
Qed.

(** ** The scanner and the Choice Filler see the same tokens *)

Lemma lang_alt_inv (r1 r2 : regex) (pos : nat) (w : jsstring) :
  lang (Alt r1 r2) pos w → lang r1 pos w ∨ lang r2 pos w.
Proof. intros L. inversion L; subst; auto. Qed.

Lemma lang_piece (r1 r2 : regex) (pos1 pos2 : nat) (w : jsstring) :
  lang r1 pos1 w → erase r1 = erase r2 → bol_free r2 = true → lang r2 pos2 w.
Proof. intros L He Hb. eapply lang_same; eassumption. Qed.

Ltac piece := eapply lang_piece; [eassumption|reflexivity|reflexivity].
Ltac pieces := repeat (eapply lang_seq; [piece|]); piece.

(** A word of the Choice Filler's pattern is a word of one of the four
    patterns of the scanner. *)
Lemma choiceRe_forms (pos : nat) (w : jsstring) :
  lang choiceRe pos w →
  lang namedRe pos w ∨ lang anonRe pos w ∨ lang radioRe pos w ∨ lang aiRe pos w.
Proof.
  unfold choiceRe. cbn [seqs].
  intros (o & ? & -> & Lo & (s1 & ? & -> & Ls1 & (b & ? & -> & Lb
          & (s2 & ? & -> & Ls2 & (d & ? & -> & Ld
          & (s3 & c & -> & Ls3 & Lc)%lang_seq_inv)%lang_seq_inv)%lang_seq_inv)%lang_seq_inv
         )%lang_seq_inv)%lang_seq_inv.
  apply lang_alt_inv in Lb as [Lb|[Lb|[Lb|Lb]%lang_alt_inv]%lang_alt_inv].
  - left.
    apply lang_seq_inv in Lb
      as (n & ? & -> & Ln & (t1 & ? & -> & Lt1 & (col & ? & -> & Lcol
          & (t2 & l & -> & Lt2 & Ll)%lang_seq_inv)%lang_seq_inv)%lang_seq_inv).
    rewrite <- ?app_assoc. unfold namedRe. cbn [seqs]. pieces.
  - right. left. unfold anonRe. cbn [seqs]. pieces.
  - right. right. left.
    apply lang_seq_inv in Lb
      as (n & ? & -> & Ln & (t1 & ? & -> & Lt1 & (col & ? & -> & Lcol
          & (t2 & l & -> & Lt2 & Ll)%lang_seq_inv)%lang_seq_inv)%lang_seq_inv).
    rewrite <- ?app_assoc. unfold radioRe. cbn [seqs]. pieces.
  - right. right. right.
    apply lang_seq_inv in Lb
      as (n & ? & -> & Ln & (t1 & ? & -> & Lt1 & (col & ? & -> & Lcol
          & (t2 & l & -> & Lt2 & Ll)%lang_seq_inv)%lang_seq_inv)%lang_seq_inv).
    rewrite <- ?app_assoc. unfold aiRe. cbn [seqs]. pieces.
Qed.

Lemma exec_loop_grows {A} (re : regex) (s : jsstring)
    (body : rmatch_result → list A → list A) :
  (∀ m l, length l ≤ length (body m l)) →
  ∀ (fuel i : nat) (l l' : list A),
    exec_loop fuel re s i body l = Some l' → length l ≤ length l'.
Proof.
  intros Hbody. induction fuel as [|fuel IH]; intros i l l'; cbn [exec_loop];
    (destruct (exec re s i) as [m|]; [|intros [= <-]; lia]);
    (destruct (i <? m_end m); [|discriminate]).
  - discriminate.
  - intros Hl%IH. specialize (Hbody m l). lia.
Qed.

Lemma pass_body_grows {A} (tok : A → token) (check : bool) (mk : rmatch_result → A)
    (template : jsstring) (m : rmatch_result) (l : list A) :
  length l ≤ length (if check && overlaps template m (map tok l) then l else l ++ [mk m]).
Proof. destruct (check && _); [lia|rewrite length_app; lia]. Qed.

(** A pass of the scanner keeps the tokens it is given. *)
Lemma pass_grows {A} (tok : A → token) (re : regex) (check : bool)
    (mk : rmatch_result → A) (template : jsstring) (tokens tokens' : list A) :
  pass tok re check mk template tokens = Some tokens' → length tokens ≤ length tokens'.
Proof.
  unfold pass, while_exec. apply exec_loop_grows. intros m l. apply pass_body_grows.
Qed.

(** A pass that starts with no token accepts the first match of its pattern. *)
Lemma pass_finds {A} (tok : A → token) (re : regex) (check : bool)
    (mk : rmatch_result → A) (template : jsstring) (tokens' : list A) (m : rmatch_result) :
  exec re template 0 = Some m →
  pass tok re check mk template [] = Some tokens' →
  tokens' ≠ [].
Proof.
  intros Hexec. unfold pass, while_exec.
  destruct (length template) as [|fuel]; cbn [exec_loop]; rewrite Hexec;
    (destruct (0 <? m_end m); [|discriminate]); [discriminate|].
  intros Hl%exec_loop_grows; [|intros m' l; apply pass_body_grows].
  cbn [map overlaps existsb] in Hl. rewrite andb_false_r in Hl.
  cbn [app length] in Hl. intros ->. cbn in Hl. lia.
Qed.

Lemma sort_insert_length {A} (cmp : A → A → Z) (x : A) (l : list A) :
  length (sort_insert cmp x l) = S (length l).
Proof.
  induction l as [|y l IH]; cbn [sort_insert]; [reflexivity|].
  destruct (0 <? cmp x y)%Z; cbn [length]; [rewrite IH|]; reflexivity.
Qed.

Lemma Array_sort_length {A} (cmp : A → A → Z) (l : list A) :
  length (Array_sort cmp l) = length l.
Proof.
  unfold Array_sort. induction l as [|x l IH]; cbn [fold_right length]; [reflexivity|].
  rewrite sort_insert_length, IH. reflexivity.
Qed.

(** A template in which the scanner finds no choice token has no token of
    the Choice Filler. *)
Lemma scanner_empty_no_choice_match (template : jsstring) :
  parseChoicePlaceholders template = Some [] → choice_matches template = [].
Proof.
  intros Hscan. destruct (choice_matches template) as [|m ms] eqn:E; [reflexivity|exfalso].
  assert (Hin : m ∈ choice_matches template) by (rewrite E; left).
  pose proof Hin as (Hlt & Hend & _ & rest & Hd)%choice_matches_shape.
  apply replace_matches_sound in Hin as [L _].
  unfold parseChoicePlaceholders in Hscan.
  destruct (passes id (λ mk, mk) template) as [l|] eqn:Hp; [|discriminate].
  cbn [mbind option_bind] in Hscan. injection Hscan as Hsort.
  apply (f_equal length) in Hsort. rewrite Array_sort_length in Hsort.
  destruct l; [clear Hsort|discriminate]. unfold passes in Hp.
  destruct (pass id namedRe false named_token template []) as [t1|] eqn:H1;
    cbn [mbind option_bind] in Hp; [|discriminate].
  destruct (pass id anonRe true anon_token template t1) as [t2|] eqn:H2;
    cbn [mbind option_bind] in Hp; [|discriminate].
  destruct (pass id radioRe true radio_token template t2) as [t3|] eqn:H3;
    cbn [mbind option_bind] in Hp; [|discriminate].
  pose proof (pass_grows _ _ _ _ _ _ _ H2).
  pose proof (pass_grows _ _ _ _ _ _ _ H3).
  pose proof (pass_grows _ _ _ _ _ _ _ Hp) as H4.
  cbn [length] in H4.
  assert (t3 = []) as -> by (destruct t3; [reflexivity|cbn in *; lia]).
  assert (t2 = []) as -> by (destruct t2; [reflexivity|cbn in *; lia]).
  assert (t1 = []) as -> by (destruct t1; [reflexivity|cbn in *; lia]).
  assert (Hfound : ∀ re, lang re (m_index m) (m_0 m) → ∃ m', exec re template 0 = Some m').
  { intros re Lre.
    destruct (exec_complete re template (m_0 m) rest 0 (m_index m)) as (m' & Hm' & _);
      [unfold m_end in Hend; lia|exact Hd|exact Lre|eauto]. }
  apply choiceRe_forms in L as [L|[L|[L|L]]]; apply Hfound in L as [m' Hm'].
  - exact (pass_finds _ _ _ _ _ _ _ Hm' H1 eq_refl).
  - exact (pass_finds _ _ _ _ _ _ _ Hm' H2 eq_refl).
  - exact (pass_finds _ _ _ _ _ _ _ Hm' H3 eq_refl).
  - exact (pass_finds _ _ _ _ _ _ _ Hm' Hp eq_refl).
Qed.

(** ** Resolution leaves no token *)


Lemma brace_free_check (s : jsstring) :
  forallb (λ c, negb (c =? ch "{")%N) s = true → brace_free s.
Proof.
  rewrite forallb_forall. intros Hall Hin%list_elem_of_In. apply Hall in Hin.
  rewrite N.eqb_refl in Hin. discriminate.
Qed.

(** ** Templates with opening braces of their own

    A token starts with two opening braces.  An opening brace that stands
    alone in the template is not part of one, and stays; what matters is
    that no two of them come to stand in a row. *)

Lemma braces_covered_doubles (s : jsstring) (ms : list rmatch_result) :
  braces_covered s ms → doubles_covered s ms.
Proof. intros Hcov i [Hi _]. apply Hcov, Hi. Qed.


(** A match of a token pattern starts at a [{{] sequence. *)
Lemma exec_double (r : regex) (s : jsstring) (i : nat) (m : rmatch_result) :
  exec (Seq open_braces r) s i = Some m → double_at s (m_index m).
Proof.
  intros (L & rest & Hd)%exec_sound.
  apply lang_seq_inv in L as (w1 & w2 & Hw & ->%lang_open_braces & _).
  rewrite Hw in Hd. split.
  - rewrite <- (Nat.add_0_r (m_index m)).
    rewrite (occurrence_lookup _ _ _ _ 0 Hd) by (cbn; lia). reflexivity.
  - replace (S (m_index m)) with (m_index m + 1) by lia.
    rewrite (occurrence_lookup _ _ _ _ 1 Hd) by (cbn; lia). reflexivity.
Qed.

Lemma exec_no_double (r : regex) (s : jsstring) (i : nat) :
  no_double s → exec (Seq open_braces r) s i = None.
Proof.
  intros Hno. destruct (exec _ s i) as [m|] eqn:E; [|reflexivity].
  apply exec_double in E. destruct (Hno _ E).
Qed.

Lemma while_exec_no_double {St} (r : regex) (s : jsstring)
    (body : rmatch_result → St → St) (st : St) :
  no_double s → while_exec (Seq open_braces r) s body st = Some st.
Proof.
  intros Hno. unfold while_exec. destruct (length s); cbn [exec_loop];
    rewrite exec_no_double by exact Hno; reflexivity.
Qed.

Lemma replace_matches_no_double (r : regex) (s : jsstring) (fuel i : nat) :
  no_double s → replace_matches fuel (Seq open_braces r) s i = [].
Proof.
  intros Hno. destruct fuel; cbn [replace_matches]; [reflexivity|].
  rewrite exec_no_double by exact Hno. reflexivity.
Qed.

(** A text without a [{{] sequence holds no token. *)
Lemma no_token_no_double (s : jsstring) : no_double s → no_token s.
Proof.
  intros Hno. unfold no_token. repeat split.
  - unfold parseChoicePlaceholders, passes, pass.
    open_re namedRe. open_re anonRe. open_re radioRe. open_re aiRe.
    repeat (rewrite (while_exec_no_double _ s _ _ Hno); cbn [mbind option_bind]).
    reflexivity.
  - unfold parsePlaceholders. open_re simpleRe.
    apply (while_exec_no_double _ s _ _ Hno).
  - unfold choice_matches. open_re choiceRe.
    apply (replace_matches_no_double _ s _ _ Hno).
  - unfold simple_matches. open_re fillRe.
    apply (replace_matches_no_double _ s _ _ Hno).
Qed.

(** Where a [{{] sequence of the spliced text comes from: from a [{{]
    sequence of the text that starts outside every match, the values
    bringing no opening brace and every match starting with one; and a word
    of the text around it that lies apart from every match is still around
    it in the spliced text. *)
Lemma splice_doubles (s : jsstring) :
  ∀ (ms : list rmatch_result) (pos : nat) (vs : list jsstring),
    ordered pos ms →
    (∀ m, m ∈ ms → m_index m < m_end m ∧ m_end m ≤ length s
                   ∧ s !! m_index m = Some (ch "{")) →
    Forall brace_free vs →
    ∀ q, double_at (splice s pos ms vs) q →
         ∃ i, pos ≤ i ∧ double_at s i
              ∧ (∀ m, m ∈ ms → ¬ (m_index m ≤ i < m_end m))
              ∧ ∀ a w rest,
                  pos ≤ a → drop a s = w ++ rest → a ≤ i < a + length w →
                  (∀ m, m ∈ ms → a + length w ≤ m_index m ∨ m_end m ≤ a) →
                  i - a ≤ q
                  ∧ ∃ rest', drop (q - (i - a)) (splice s pos ms vs) = w ++ rest'.
Proof.
  induction ms as [|m ms IH]; intros pos vs Hord Hspan Hvs q [Hq Hq']; cbn [splice] in *.
  - rewrite lookup_drop in Hq, Hq'. exists (pos + q).
    split; [lia|]. split; [split; [exact Hq|rewrite <- Nat.add_succ_r; exact Hq']|].
    split; [intros m []%elem_of_nil|].
    intros a w rest Ha Hd Hi _. split; [lia|]. exists rest.
    rewrite drop_drop. replace (pos + (q - (pos + q - a))) with a by lia. exact Hd.
  - destruct Hord as [Hle Hord].
    destruct (Hspan m ltac:(left)) as (Hne & Hend & Hstart).
    set (gap := take (m_index m - pos) (drop pos s)) in *.
    set (v := default [] (head vs)) in *.
    assert (Hgap : length gap = m_index m - pos).
    { unfold gap. rewrite length_take, length_drop. lia. }
    assert (Hv : brace_free v).
    { unfold v. destruct vs as [|x vs]; [apply brace_free_nil|].
      inversion Hvs; subst. assumption. }
    assert (Hlater : ∀ m', m' ∈ ms → m_end m ≤ m_index m')
      by (intros m' Hm'; eapply ordered_elem; eassumption).
    destruct (Nat.lt_ge_cases q (length gap)) as [Hin_gap|Hafter].
    + (* the first brace stands in the text before the match *)
      rewrite lookup_app_l in Hq by exact Hin_gap.
      unfold gap in Hq. rewrite lookup_take_lt, lookup_drop in Hq by lia.
      exists (pos + q). split; [lia|]. split; [split; [exact Hq|]|split].
      * destruct (Nat.lt_ge_cases (S q) (length gap)) as [Hin'|Hlast].
        -- rewrite lookup_app_l in Hq' by exact Hin'.
           unfold gap in Hq'. rewrite lookup_take_lt, lookup_drop in Hq' by lia.
           rewrite <- Nat.add_succ_r. exact Hq'.
        -- replace (S (pos + q)) with (m_index m) by lia. exact Hstart.
      * intros m' [->|Hm']%elem_of_cons; [lia|]. specialize (Hlater m' Hm'). lia.
      * intros a w rest Ha Hd Hi Hap. split; [lia|].
        destruct (Hap m ltac:(left)) as [Hbefore|]; [|lia].
        replace (q - (pos + q - a)) with (a - pos) by lia.
        eexists. rewrite drop_app_le by lia. unfold gap.
        replace (m_index m - pos) with (a - pos + (m_index m - a)) by lia.
        rewrite <- take_drop_commute, drop_drop.
        replace (pos + (a - pos)) with a by lia.
        rewrite Hd, take_app, (take_ge w) by lia. rewrite <- app_assoc. reflexivity.
    + rewrite lookup_app_r in Hq by exact Hafter.
      destruct (Nat.lt_ge_cases (q - length gap) (length v)) as [Hin_v|Hafter_v].
      * (* in the value *)
        exfalso. rewrite lookup_app_l in Hq by exact Hin_v.
        apply Hv. eapply list_elem_of_lookup_2, Hq.
      * (* after the match *)
        rewrite lookup_app_r in Hq by exact Hafter_v.
        rewrite lookup_app_r in Hq' by lia.
        rewrite lookup_app_r in Hq' by lia.
        replace (S q - length gap - length v) with (S (q - length gap - length v))
          in Hq' by lia.
        destruct (IH (m_end m) (tail vs)) with (q := q - length gap - length v)
          as (i & Hi & Hdbl & Hout & Hword).
        -- exact Hord.
        -- intros m' Hm'. apply Hspan. right. exact Hm'.
        -- destruct vs; [constructor|]. inversion Hvs; assumption.
        -- split; assumption.
        -- exists i. split; [lia|]. split; [exact Hdbl|]. split.
           ++ intros m' [->|Hm']%elem_of_cons; [lia|apply Hout, Hm'].
           ++ intros a w rest Ha Hd Hiw Hap.
              destruct (Hap m ltac:(left)) as [|Hge]; [lia|].
              destruct (Hword a w rest Hge Hd Hiw) as (Hqa & rest' & Hd').
              { intros m' Hm'. apply Hap. right. exact Hm'. }
              split; [lia|]. exists rest'.
              rewrite drop_app_ge by lia. rewrite drop_app_ge by lia.
              replace (q - (i - a) - length gap - length v)
                with (q - length gap - length v - (i - a)) by lia.
              exact Hd'.
Qed.

(** The [{{name}}] tokens at which the [{{] sequences of a text start are
    among the matches of the Simple Filler. *)
Lemma doubles_in_words_matches (s : jsstring) :
  doubles_in_words s → doubles_covered s (simple_matches s).
Proof.
  intros Hcov i Hi. destruct (Hcov i Hi) as (a & w & rest & Hd & Hw & Hspan).
  destruct (replace_matches_finds_word s w rest a Hd Hw (length s + 2) 0)
    as (m & Hin & Hmi & Hm0); [lia|lia|].
  exists m. split; [exact Hin|]. unfold m_end. rewrite Hmi, Hm0. exact Hspan.
Qed.

Lemma match_starts_with_brace (s w rest : jsstring) (a : nat) (u : jsstring) :
  drop a s = w ++ rest → w = ch "{" :: u → s !! a = Some (ch "{").
Proof.
  intros Hd ->. rewrite <- (Nat.add_0_r a).
  rewrite (occurrence_lookup _ _ _ _ 0 Hd) by (cbn; lia). reflexivity.
Qed.

(** After the Choice Filler, every [{{] sequence that is left starts in a
    [{{name}}] token, when every [{{] sequence of the template starts in a
    token of one of the fillers and no selection brings an opening brace. *)
Lemma fillChoicePlaceholders_doubles (template : jsstring) (selections : list jsstring) :
  selections ≠ [] ∨ choice_matches template = [] →
  Forall brace_free selections →
  doubles_covered template (choice_matches template ++ simple_matches template) →
  doubles_in_words (fillChoicePlaceholders template selections).
Proof.
  intros Hsel Hfree Hcov.
  destruct (decide (selections = [])) as [->|Hne].
  - destruct Hsel as [|Hnone]; [congruence|]. rewrite Hnone in Hcov. cbn [app] in Hcov.
    intros q Hq. destruct (Hcov q Hq) as (m & Hm & Hi).
    pose proof Hm as [Hw [rest Hd]]%simple_matches_shape.
    exists (m_index m), (m_0 m), rest. auto.
  - rewrite fillChoicePlaceholders_splice by exact Hne. intros q Hq.
    destruct (splice_doubles template (choice_matches template) 0 selections)
      with (q := q) as (i & _ & Hdbl & Hout & Hword).
    + apply replace_matches_ordered.
    + intros m Hm. pose proof Hm as (H1 & H2 & [u Hu] & rest & Hd)%choice_matches_shape.
      split; [exact H1|]. split; [exact H2|].
      eapply match_starts_with_brace; eassumption.
    + exact Hfree.
    + exact Hq.
    + destruct (Hcov i Hdbl) as (m & Hm & Hsp).
      apply elem_of_app in Hm as [Hm|Hm]; [destruct (Hout m Hm Hsp)|].
      pose proof Hm as [Hw [rest Hd]]%simple_matches_shape.
      destruct (Hword (m_index m) (m_0 m) rest) as (Hqa & rest' & Hd');
        [lia|exact Hd|exact Hsp|..].
      * intros c Hc. pose proof Hc as (_ & _ & Hu & restc & Hdc)%choice_matches_shape.
        eapply (words_apart_choice template (m_0 m) rest (m_0 c) restc);
          try eassumption; [apply Hdbl|apply Hout, Hc].
      * exists (q - (i - m_index m)), (m_0 m), rest'.
        split; [exact Hd'|]. split; [exact Hw|]. unfold m_end in Hsp. lia.
Qed.
Lemma replace_build_map (s : jsstring) (f : rmatch_result → jsstring)
    (ms : list rmatch_result) (acc : jsstring) (pos : nat) :
  ordered pos ms →
  (replace_build s ms (λ m (_ : unit), (f m, tt)) tt acc pos).1
  = acc ++ splice s pos ms (map f ms).
Proof.
  revert acc pos. induction ms as [|m ms IH]; intros acc pos Hord; [reflexivity|].
  destruct Hord as [Hle Hord]. cbn [replace_build splice map head tail default from_option id].
  rewrite (proj2 (Nat.leb_le _ _) Hle), IH by exact Hord.
  rewrite <- !app_assoc. reflexivity.
Qed.

Lemma fillPlaceholders_splice (template : jsstring) (values : gmap jsstring jsstring) :
  fillPlaceholders template values
  = splice template 0 (simple_matches template)
      (map (λ m, default [] (values !! grp 1 m)) (simple_matches template)).
Proof.
  unfold fillPlaceholders, replace, replace_st.
  rewrite (replace_build_map template
             (λ m, match values !! grp 1 m with Some v => v | None => [] end))
    by apply replace_matches_ordered.
  reflexivity.
Qed.

(** The Simple Filler leaves no [{{] sequence when every one of them
    starts in one of its matches and no value brings an opening brace. *)
Lemma fillPlaceholders_no_double (template : jsstring) (values : gmap jsstring jsstring) :
  (∀ k v, values !! k = Some v → brace_free v) →
  doubles_covered template (simple_matches template) →
  no_double (fillPlaceholders template values).
Proof.
  intros Hvals Hcov q Hq. rewrite fillPlaceholders_splice in Hq.
  destruct (splice_doubles template (simple_matches template) 0
              (map (λ m, default [] (values !! grp 1 m)) (simple_matches template)))
    with (q := q) as (i & _ & Hdbl & Hout & _).
  - apply replace_matches_ordered.
  - intros m Hm. pose proof Hm as [Hw [rest Hd]]%simple_matches_shape.
    apply simple_word_braces in Hw as (u & Hu & _).
    unfold simple_matches in Hm. revert Hm. open_re fillRe.
    intros [H1 H2]%replace_matches_open_span.
    split; [exact H1|]. split; [exact H2|].
    eapply match_starts_with_brace; eassumption.
  - apply Forall_forall. intros v (m & -> & _)%list_elem_of_fmap.
    destruct (values !! grp 1 m) as [x|] eqn:Hx; cbn.
    + eapply Hvals, Hx.
    + apply brace_free_nil.
  - exact Hq.
  - destruct (Hcov i Hdbl) as (m & Hm & Hsp). destruct (Hout m Hm Hsp).
Qed.

(** Resolution leaves no [{{] sequence, and so no token, when every [{{]
    sequence of the template starts in a token of one of the two fillers,
    no selection and no value brings an opening brace, and the Choice
    Filler does run or has nothing to replace. *)
Lemma resolve_no_double (template : jsstring) (selections : list jsstring)
    (values : gmap jsstring jsstring) :
  selections ≠ [] ∨ choice_matches template = [] →
  Forall brace_free selections →
  (∀ k v, values !! k = Some v → brace_free v) →
  doubles_covered template (choice_matches template ++ simple_matches template) →
  no_double (resolve template selections values)
  ∧ no_token (resolve template selections values).
Proof.
  intros Hsel Hfree Hvals Hcov.
  assert (Hno : no_double (resolve template selections values)).
  { apply fillPlaceholders_no_double; [exact Hvals|].
    apply doubles_in_words_matches, fillChoicePlaceholders_doubles; assumption. }
  split; [exact Hno|apply no_token_no_double, Hno].
Qed.



(** The condition of C6 on the template is needed: an opening brace in
    front of a token and one behind it come to stand in a row when the
    token gets the empty string, and with the text that follows they make a
    token that was not there. *)
Example resolve_joins_braces :
  parsePlaceholders (lit "{{{a}}{ x}}") = Some [lit "a"]
  ∧ resolve (lit "{{{a}}{ x}}") [] {[lit "a" := []]} = lit "{{ x}}"
  ∧ parsePlaceholders (lit "{{ x}}") = Some [lit "x"].
Proof. vm_compute. repeat split; reflexivity. Qed.

(** What C6 as amended leaves out: the scanner of simple names takes names
    that the Simple Filler's pattern does not, such as a name with a space
    in it; such a token is found and is not replaced. *)
Example scanner_name_not_filled :
  parsePlaceholders (lit "{{my name}}") = Some [lit "my name"]
  ∧ simple_matches (lit "{{my name}}") = []
  ∧ resolve (lit "{{my name}}") [] {[lit "my name" := lit "x"]} = lit "{{my name}}".
Proof. vm_compute. repeat split; reflexivity. Qed.

(** A template of program text: its own braces stand alone, the condition
    of C6 as amended holds, and the braces are kept around the value. *)
Example lone_braces_kept :
  doubles_covered_b (lit "function f() { return {{value}}; }")
    (choice_matches (lit "function f() { return {{value}}; }")
     ++ simple_matches (lit "function f() { return {{value}}; }")) = true
  ∧ resolve (lit "function f() { return {{value}}; }") [] {[lit "value" := lit "42"]}
    = lit "function f() { return 42; }"
  ∧ no_token (lit "function f() { return 42; }").
Proof.
  split; [vm_compute; reflexivity|]. split; [vm_compute; reflexivity|].
  vm_compute. repeat split; reflexivity.
Qed.

(** Two opening braces in a row that start no token are left where they
    are: the text then holds a [{{] sequence, though no token. *)
Example uncovered_double_stays :
  parseChoicePlaceholders (lit "a {{ b") = Some []
  ∧ parsePlaceholders (lit "a {{ b") = Some []
  ∧ resolve (lit "a {{ b") [] ∅ = lit "a {{ b"
  ∧ double_at (lit "a {{ b") 2.
Proof. vm_compute. repeat split; reflexivity. Qed.

(** * Further properties of the code *)

Import PlanCommand PromptRun.

(** ** Paths that were normalized *)

Lemma split_on_no_sep (sep : N → bool) (s : jsstring) :
  Forall (Forall (λ c, sep c = false)) (split_on sep s).
Proof.
  induction s as [|c s IH]; cbn [split_on]; [repeat constructor|].
  destruct (sep c) eqn:Hc; [constructor; [constructor|exact IH]|].
  destruct (split_on sep s) as [|p ps]; [repeat constructor; exact Hc|].
  inversion IH; subst. constructor; [constructor; assumption|assumption].
Qed.

Lemma split_on_piece (sep : N → bool) (p : jsstring) :
  Forall (λ c, sep c = false) p → split_on sep p = [p].
Proof.
  induction 1 as [|c p Hc _ IH]; cbn [split_on]; [reflexivity|].
  rewrite Hc, IH. reflexivity.
Qed.

Lemma split_on_piece_sep (sep : N → bool) (p : jsstring) (c : N) (s : jsstring) :
  Forall (λ c, sep c = false) p → sep c = true →
  split_on sep (p ++ c :: s) = p :: split_on sep s.
Proof.
  intros Hp Hc. induction Hp as [|d p Hd _ IH]; cbn [split_on app].
  - rewrite Hc. reflexivity.
  - rewrite Hd, IH. reflexivity.
Qed.

(** Splitting what was joined gives the pieces back. *)
Lemma split_on_join (l : list jsstring) :
  l ≠ [] →
  Forall (Forall (λ c, is_separator c = false)) l →
  split_on is_separator (join (lit "/") l) = l.
Proof.
  intros Hne Hl. induction Hl as [|p l Hp Hl IH]; [congruence|].
  destruct l as [|q l].
  - apply split_on_piece, Hp.
  - change (join (lit "/") (p :: q :: l)) with (p ++ ch "/" :: join (lit "/") (q :: l)).
    rewrite split_on_piece_sep by (exact Hp || reflexivity).
    rewrite IH by discriminate. reflexivity.
Qed.

Lemma join_chars (P : N → Prop) (sep : jsstring) (l : list jsstring) :
  Forall P sep → Forall (Forall P) l → Forall P (join sep l).
Proof.
  intros Hsep Hl. induction Hl as [|p l Hp Hl IH]; cbn [join]; [constructor|].
  destruct l as [|q l]; [exact Hp|].
  apply Forall_app. split; [exact Hp|]. apply Forall_app. split; [exact Hsep|exact IH].
Qed.

Lemma join_head (sep : jsstring) (l : list jsstring) (p : jsstring) (c : N) :
  head l = Some p → head p = Some c → head (join sep l) = Some c.
Proof.
  destruct l as [|q l]; [discriminate|]. intros [= ->] Hc.
  destruct p as [|d p]; [discriminate|]. injection Hc as ->.
  destruct l; reflexivity.
Qed.

Lemma join_last (sep : jsstring) (l : list jsstring) :
  Forall (λ p, p ≠ []) l → l ≠ [] →
  ∃ p, last l = Some p ∧ last (join sep l) = last p.
Proof.
  intros Hl Hne. induction Hl as [|p l Hp Hl IH]; [congruence|].
  destruct l as [|q l].
  - exists p. split; reflexivity.
  - destruct IH as (r & Hr & Hlast); [discriminate|].
    exists r. split; [exact Hr|].
    change (join sep (p :: q :: l)) with (p ++ sep ++ join sep (q :: l)).
    rewrite !last_app, Hlast.
    destruct (last r) eqn:E; [reflexivity|].
    exfalso. apply last_None in E. subst r.
    apply last_Some_elem_of in Hr. rewrite Forall_forall in Hl.
    apply (Hl [] Hr). reflexivity.
Qed.

(** The segments [normalizeSegments] keeps. *)
Lemma kept_segments (s : jsstring) :
  lit ".." ∉ segments s →
  Forall (λ seg, Forall (λ c, is_separator c = false) seg
                 ∧ seg ≠ [] ∧ seg ≠ lit "." ∧ seg ≠ lit "..")
    (filter (λ seg, seg ≠ [] ∧ seg ≠ lit ".") (segments s)).
Proof.
  intros Hdd. apply Forall_forall. intros seg [[? ?] Hin]%list_elem_of_filter.
  repeat split; try assumption.
  - pose proof (split_on_no_sep is_separator s) as Hall.
    rewrite Forall_forall in Hall. apply Hall, Hin.
  - intros ->. apply Hdd, Hin.
Qed.

Lemma normalized_shape (P : path_module) (s t : jsstring) :
  normalizeSegments P s = Ok t →
  t = rejoined s
  ∧ Forall (λ c, c ≠ ch "\") t
  ∧ head t ≠ Some (ch "/")
  ∧ last t ≠ Some (ch "/")
  ∧ (t ≠ [] →
     segments t = filter (λ seg, seg ≠ [] ∧ seg ≠ lit ".") (segments s)
     ∧ Forall (λ seg, seg ≠ [] ∧ seg ≠ lit "." ∧ seg ≠ lit "..") (segments t)).
Proof.
  rewrite normalizeSegments_spec.
  destruct (isAbsolute P s || startsWith s (lit "/") || test driveRe s); [discriminate|].
  destruct (decide (lit ".." ∈ segments s)) as [|Hdd]; [discriminate|].
  intros [= <-]. pose proof (kept_segments s Hdd) as Hkept. unfold rejoined.
  set (kept := filter (λ seg, seg ≠ [] ∧ seg ≠ lit ".") (segments s)) in *.
  assert (Hsep : Forall (Forall (λ c, is_separator c = false)) kept).
  { eapply Forall_impl; [exact Hkept|]. intros ? [? _]. assumption. }
  split; [reflexivity|]. split; [|split; [|split]].
  - apply join_chars.
    + repeat constructor. discriminate.
    + eapply Forall_impl; [exact Hsep|]. intros seg Hseg.
      eapply Forall_impl; [exact Hseg|]. intros c Hc ->. discriminate Hc.
  - destruct kept as [|p kept'] eqn:E; [discriminate|].
    inversion Hkept as [|? ? (Hp & Hne & _) _]; subst.
    destruct p as [|c p]; [congruence|].
    rewrite (join_head _ _ (c :: p) c) by reflexivity.
    intros [= ->]. inversion Hp; subst. discriminate.
  - destruct (decide (kept = [])) as [->|Hne]; [discriminate|].
    destruct (join_last (lit "/") kept) as (p & Hp & ->); [|exact Hne|].
    { eapply Forall_impl; [exact Hkept|]. intros ? (_ & ? & _). assumption. }
    apply last_Some_elem_of in Hp. rewrite Forall_forall in Hkept.
    destruct (Hkept p Hp) as (Hsepp & _). intros Hl%last_Some_elem_of.
    rewrite Forall_forall in Hsepp. specialize (Hsepp _ Hl). discriminate Hsepp.
  - intros Hne. assert (kept ≠ []) by (intros E; rewrite E in Hne; apply Hne; reflexivity).
    assert (Hsplit : segments (join (lit "/") kept) = kept)
      by (unfold segments; apply split_on_join; assumption).
    rewrite Hsplit. split; [reflexivity|]. eapply Forall_impl; [exact Hkept|].
    intros ? (_ & ? & ? & ?). auto.
Qed.

(** X1: a path that [normalizeSegments] returns holds no backslash, does
    not start or end with [/], and, unless it is empty, its segments are
    the segments of the input that are neither empty nor [.], none of which
    is [..]. *)
Theorem X1_normalized_shape (P : path_module) (s t : jsstring) :
  normalizeSegments P s = Ok t →
  Forall (λ c, c ≠ ch "\") t
  ∧ head t ≠ Some (ch "/")
  ∧ last t ≠ Some (ch "/")
  ∧ (t ≠ [] →
     segments t = filter (λ seg, seg ≠ [] ∧ seg ≠ lit ".") (segments s)
     ∧ Forall (λ seg, seg ≠ [] ∧ seg ≠ lit "." ∧ seg ≠ lit "..") (segments t)).
Proof. intros H. apply normalized_shape in H. tauto. Qed.

Lemma X1_witness :
  segments (lit "src/app.js") = [lit "src"; lit "app.js"].
Proof.
  destruct (X1_normalized_shape posix (lit "./src//app.js") (lit "src/app.js"))
    as (_ & _ & _ & Hseg); [vm_compute; reflexivity|].
  destruct Hseg as [Hseg _]; [discriminate|]. rewrite Hseg. vm_compute.
  reflexivity.
Defined.

(** X2: normalizing a normalized path gives it back, unless that path is
    absolute for the host or starts with one of the letters [A] to [Z] and
    a colon. *)
Theorem X2_normalize_again (P : path_module) (s t : jsstring) :
  normalizeSegments P s = Ok t →
  isAbsolute P t = false → test driveRe t = false →
  normalizeSegments P t = Ok t.
Proof.
  intros (Ht & _ & Hhd & _ & Hseg)%normalized_shape Habs Hdrive.
  rewrite normalizeSegments_spec, Habs, Hdrive.
  assert (Hslash : startsWith t (lit "/") = false).
  { destruct (startsWith t (lit "/")) eqn:E; [|reflexivity].
    apply startsWith_slash in E as [rest ->]. exfalso. apply Hhd. reflexivity. }
  rewrite Hslash. cbn [orb].
  destruct (decide (t = [])) as [->|Hne].
  - vm_compute. reflexivity.
  - destruct (Hseg Hne) as [Heq Hall].
    rewrite decide_False.
    + f_equal. unfold rejoined.
      rewrite filter_all.
      * rewrite Heq. symmetry. exact Ht.
      * intros seg Hin. rewrite Forall_forall in Hall.
        destruct (Hall seg Hin) as (? & ? & _). auto.
    + intros Hin. rewrite Forall_forall in Hall. apply Hall in Hin. tauto.
Qed.

Lemma X2_witness :
  normalizeSegments win32 (lit "src/app.js") = Ok (lit "src/app.js").
Proof.
  apply (X2_normalize_again win32 (lit ".\src\\app.js")); vm_compute; reflexivity.
Defined.

(** The two conditions of X2 are needed: behind a [.] segment a drive
    prefix goes through, and the path returned is refused when it is
    normalized again, on both hosts. *)
Example normalize_surfaces_drive_prefix :
  normalizeSegments posix (lit "./C:/x") = Ok (lit "C:/x")
  ∧ is_throw (normalizeSegments posix (lit "C:/x")) = true
  ∧ normalizeSegments win32 (lit "./c:/x") = Ok (lit "c:/x")
  ∧ isAbsolute win32 (lit "c:/x") = true.
Proof. repeat split; vm_compute; reflexivity. Qed.

(** ** The plan *)

Lemma valid_candidate_inv (P : path_module) (forced : bool) (val : json) (it : item) :
  valid_candidate P forced val = Some it →
  ∃ s, val = JStr s ∧ normalizeSegments P s = Ok (path it) ∧ path it ≠ []
       ∧ (item_content it = Some [] ↔ pathKind it = file)
       ∧ (item_content it = None ↔ pathKind it = directory)
       ∧ (forced = true → pathKind it = file)
       ∧ (forced = false → pathKind it = inferPathKind P (path it)).
Proof.
  destruct val as [| | |s| |]; cbn [valid_candidate]; try discriminate.
  destruct (normalizeSegments P s) as [[|c t]|] eqn:Hn; try discriminate.
  intros Hit. exists s. split; [reflexivity|].
  destruct forced; [|destruct (inferPathKind P (c :: t)) eqn:Hk];
    injection Hit as <-; cbn [path item_content pathKind];
    repeat split; try discriminate; try reflexivity; try congruence;
    intros; congruence.
Qed.

Lemma plan_item_candidate (P : path_module) (payload : json) (it : item) :
  it ∈ coerceGeneratedPaths P payload →
  ∃ forced val,
    val ∈ (if forced : bool then (candidates_of payload).2 else (candidates_of payload).1)
    ∧ valid_candidate P forced val = Some it.
Proof.
  rewrite coerceGeneratedPaths_first_wins. intros Hin%first_wins_subset.
  unfold candidates in Hin. apply elem_of_app in Hin as [Hin|Hin];
    apply list_elem_of_omap in Hin as (val & Hval & Hv).
  - exists false, val. auto.
  - exists true, val. auto.
Qed.

(** X3: every path of a plan is the normalized form of a string of the
    response, is not empty, holds no backslash, does not start with [/] and
    has no segment [..], [.] or empty; and an item has the empty string as content
    exactly when it is a file. *)
Theorem X3_plan_paths_normalized (P : path_module) (payload : json) :
  Forall (λ it,
            path it ≠ []
            ∧ (∃ s, (JStr s ∈ (candidates_of payload).1 ∨ JStr s ∈ (candidates_of payload).2)
                    ∧ normalizeSegments P s = Ok (path it))
            ∧ Forall (λ c, c ≠ ch "\") (path it)
            ∧ head (path it) ≠ Some (ch "/")
            ∧ Forall (λ seg, seg ≠ [] ∧ seg ≠ lit "." ∧ seg ≠ lit "..") (segments (path it))
            ∧ (item_content it = Some [] ↔ pathKind it = file)
            ∧ (item_content it = None ↔ pathKind it = directory))
    (coerceGeneratedPaths P payload).
Proof.
  apply Forall_forall. intros it (forced & val & Hval & Hv)%plan_item_candidate.
  apply valid_candidate_inv in Hv as (s & -> & Hn & Hne & Hfile & Hdir & _).
  pose proof (normalized_shape _ _ _ Hn) as (_ & Hbs & Hhd & _ & Hseg).
  split; [exact Hne|]. split.
  { exists s. split; [|exact Hn]. destruct forced; auto. }
  repeat split; try assumption; try apply Hfile; try apply Hdir.
  apply Hseg, Hne.
Qed.

(** ** The kind of a path *)

Lemma join_snoc (sep : jsstring) (l : list jsstring) (p : jsstring) :
  l ≠ [] → join sep (l ++ [p]) = join sep l ++ sep ++ p.
Proof.
  induction l as [|q l IH]; [congruence|]. intros _.
  destruct l as [|r l]; [reflexivity|].
  change (join sep ((q :: r :: l) ++ [p])) with (q ++ sep ++ join sep ((r :: l) ++ [p])).
  rewrite IH by discriminate.
  change (join sep (q :: r :: l)) with (q ++ sep ++ join sep (r :: l)).
  rewrite <- !app_assoc. reflexivity.
Qed.

Lemma take_while_app_stop {A} (p : A → bool) (l : list A) (x : A) (r : list A) :
  Forall (λ y, p y = true) l → p x = false → take_while p (l ++ x :: r) = l.
Proof.
  intros Hl Hx. induction Hl as [|y l Hy _ IH]; cbn [take_while app].
  - rewrite Hx. reflexivity.
  - rewrite Hy, IH. reflexivity.
Qed.

Lemma take_while_all {A} (p : A → bool) (l : list A) :
  Forall (λ y, p y = true) l → take_while p l = l.
Proof.
  induction 1 as [|y l Hy _ IH]; cbn [take_while]; [reflexivity|].
  rewrite Hy, IH. reflexivity.
Qed.

(** The last component of a joined path is its last piece. *)
Lemma last_component_join (sep : N → bool) (c : N) (l : list jsstring) (p : jsstring) :
  sep c = true → p ≠ [] → Forall (λ d, sep d = false) p →
  last_component sep (join [c] (l ++ [p])) = p.
Proof.
  intros Hc Hne Hp. unfold last_component.
  assert (Hrev : Forall (λ d, negb (sep d) = true) (rev p)).
  { apply Forall_forall. intros d Hd%list_elem_of_In%in_rev%list_elem_of_In.
    rewrite Forall_forall in Hp. rewrite (Hp d Hd). reflexivity. }
  assert (Hdrop : ∀ r, drop_while sep (rev p ++ r) = rev p ++ r).
  { intros r. destruct (rev p) as [|d q] eqn:E.
    - apply (f_equal (@rev N)) in E. rewrite rev_involutive in E. cbn in E. congruence.
    - cbn [app drop_while]. inversion Hrev as [|? ? Hd _]; subst.
      destruct (sep d); [discriminate|reflexivity]. }
  destruct (decide (l = [])) as [->|Hl].
  - cbn [app join]. rewrite <- (app_nil_r (rev p)), Hdrop, app_nil_r.
    rewrite take_while_all by exact Hrev. apply rev_involutive.
  - rewrite join_snoc by exact Hl. rewrite !rev_app_distr. cbn [rev app].
    rewrite <- app_assoc, Hdrop. cbn [app].
    rewrite take_while_app_stop; [apply rev_involutive|exact Hrev|].
    rewrite Hc. reflexivity.
Qed.

Lemma includes_dot_elem (s : jsstring) : includes_dot s = true ↔ ch "." ∈ s.
Proof.
  unfold includes_dot. rewrite existsb_exists. split.
  - intros (c & Hin & ->%N.eqb_eq). apply list_elem_of_In, Hin.
  - intros Hin. exists (ch "."). split; [apply list_elem_of_In, Hin|apply N.eqb_refl].
Qed.

Lemma startsWith_dot (s : jsstring) : startsWith s (lit ".") = true ↔ head s = Some (ch ".").
Proof.
  unlit. destruct s as [|c s]; cbn [startsWith head]; [split; discriminate|].
  unfold code_eqb. rewrite andb_true_r, N.eqb_eq. split; congruence.
Qed.

Lemma normalized_last_segment (P : path_module) (s t : jsstring) :
  normalizeSegments P s = Ok t → t ≠ [] →
  ∃ l seg, segments t = l ++ [seg] ∧ t = join (lit "/") (l ++ [seg]) ∧ seg ≠ []
           ∧ Forall (λ c, is_separator c = false) seg.
Proof.
  intros Hn Hne. pose proof Hn as (Ht & _ & _ & _ & Hseg)%normalized_shape.
  destruct (Hseg Hne) as [Heq Hall].
  assert (Hrj : t = join (lit "/") (segments t)) by (rewrite Heq; exact Ht).
  pose proof (split_on_no_sep is_separator t) as Hsep. fold (segments t) in Hsep.
  remember (segments t) as segs eqn:E. clear E Heq.
  assert (Hnn : segs ≠ []) by (intros ->; cbn in Hrj; congruence).
  destruct (exists_last Hnn) as (l & a & ->).
  exists l, a. split; [reflexivity|]. split; [exact Hrj|].
  apply Forall_app in Hall as [_ Ha]. inversion Ha as [|? ? (Hane & _) _]; subst.
  split; [exact Hane|].
  apply Forall_app in Hsep as [_ Hsep]. inversion Hsep; assumption.
Qed.

Lemma file_kind (base : jsstring) (P : path_module) (t : jsstring) :
  basename P t = base →
  inferPathKind P t = file ↔ ch "." ∈ base ∧ head base ≠ Some (ch ".").
Proof.
  intros Hb. unfold inferPathKind. rewrite Hb.
  rewrite <- includes_dot_elem.
  destruct (includes_dot base); cbn [andb].
  - destruct (startsWith base (lit ".")) eqn:Hs; cbn [negb].
    + apply startsWith_dot in Hs. split; [discriminate|]. intros [_ ?]. contradiction.
    + split; [|reflexivity]. intros _. split; [reflexivity|].
      intros Hh%startsWith_dot. congruence.
  - split; [discriminate|]. intros [? _]. discriminate.
Qed.

(** X4: on a POSIX host the kind inferred for a normalized path is read
    off its last segment: it is a file exactly when that segment holds a
    full stop and does not start with one.  On a Windows host the same
    holds of a path that does not start with a drive letter and a colon. *)
Theorem X4_kind_of_last_segment (P : path_module) (s t : jsstring) :
  normalizeSegments P s = Ok t → t ≠ [] →
  P = posix ∨ (P = win32 ∧ ¬ has_drive_prefix t) →
  ∃ seg, last (segments t) = Some seg
         ∧ basename P t = seg
         ∧ (inferPathKind P t = file ↔ ch "." ∈ seg ∧ head seg ≠ Some (ch ".")).
Proof.
  intros Hn Hne HP.
  pose proof Hn as (Hrj & Hbs & _)%normalized_shape.
  destruct (normalized_last_segment P s t Hn Hne) as (l & seg & Hsegs & Ht & Hsne & Hsep).
  exists seg. split; [rewrite Hsegs; apply last_snoc|].
  assert (Hslash : Forall (λ d, is_slash d = false) seg).
  { eapply Forall_impl; [exact Hsep|]. intros d Hd. unfold is_separator in Hd.
    unfold is_slash. destruct (d =? 47)%N; [discriminate|reflexivity]. }
  assert (Hbase : basename P t = seg).
  { destruct HP as [->|[-> Hnd]].
    - cbn [basename posix]. rewrite Ht. apply (last_component_join is_slash (ch "/"));
        [reflexivity|exact Hsne|exact Hslash].
    - assert (Hlc : last_component is_separator t = seg).
      { rewrite Ht. apply (last_component_join is_separator (ch "/"));
          [reflexivity|exact Hsne|exact Hsep]. }
      cbn [basename win32]. destruct t as [|c [|colon rest]]; try exact Hlc.
      destruct (is_drive_letter c && (colon =? 58)%N) eqn:Hd; [|exact Hlc].
      exfalso. apply Hnd. apply andb_true_iff in Hd as [Hc ->%N.eqb_eq].
      exists c, rest. split; [reflexivity|exact Hc]. }
  split; [exact Hbase|]. apply file_kind, Hbase.
Qed.

Lemma X4_witness :
  inferPathKind posix (lit "config/.gitignore") = file ↔
  ch "." ∈ lit ".gitignore" ∧ head (lit ".gitignore") ≠ Some (ch ".").
Proof.
  destruct (X4_kind_of_last_segment posix (lit "./config/.gitignore")
              (lit "config/.gitignore")) as (seg & Hlast & _ & Hkind).
  - vm_compute. reflexivity.
  - discriminate.
  - left. reflexivity.
  - vm_compute in Hlast. injection Hlast as <-. exact Hkind.
Defined.

(** ** The files of a plan *)

Lemma is_file_kind (it : item) : is_file it = true ↔ pathKind it = file.
Proof. unfold is_file. destruct (pathKind it); split; congruence. Qed.

(** X5: [extractFileItemsFromPlan] returns, in the order of the plan and
    each path once, the candidates that are files and whose path no
    earlier candidate has: an entry of [files] whose path an entry of
    [paths] took first as a directory is not among them.  Each one has the
    empty string as content. *)
Theorem X5_files_of_plan (P : path_module) (payload : json) :
  Forall (λ it, pathKind it = file ∧ item_content it = Some [])
    (extractFileItemsFromPlan P payload)
  ∧ NoDup (path <$> extractFileItemsFromPlan P payload)
  ∧ extractFileItemsFromPlan P payload `sublist_of` coerceGeneratedPaths P payload
  ∧ (∀ x, x ∈ extractFileItemsFromPlan P payload ↔
          pathKind x = file
          ∧ ∃ pre post, candidates P payload = pre ++ x :: post
                        ∧ path x ∉ path <$> pre).
Proof.
  unfold extractFileItemsFromPlan. split; [|split; [|split]].
  - apply Forall_forall. intros it [Hk%is_file_kind Hin]%list_elem_of_filter.
    split; [exact Hk|].
    pose proof (X := plan_item_candidate P payload it Hin).
    destruct X as (forced & val & _ & Hv).
    apply valid_candidate_inv in Hv as (_ & _ & _ & _ & Hfile & _). apply Hfile, Hk.
  - apply (sublist_NoDup _ (path <$> coerceGeneratedPaths P payload)).
    + rewrite coerceGeneratedPaths_first_wins. apply first_wins_NoDup.
    + apply fmap_sublist, sublist_filter.
  - apply sublist_filter.
  - intros x. rewrite list_elem_of_filter, is_file_kind, coerceGeneratedPaths_first_wins,
      first_wins_elem. reflexivity.
Qed.

(** A path that [paths] lists with a name that reads as a directory is
    not a file of the plan, whatever [files] says. *)
Example files_entry_hidden :
  extractFileItemsFromPlan posix
    (JObj [(lit "paths", JArr [JStr (lit "LICENSE")]);
           (lit "files", JArr [JStr (lit "LICENSE"); JStr (lit "a.js")])])
  = [Item (lit "a.js") file (Some [])].
Proof. vm_compute. reflexivity. Qed.

(** ** The fallback text *)

Lemma split_on_head (sep : N → bool) (s : jsstring) :
  head (split_on sep s) = Some (take_while (λ c, negb (sep c)) s).
Proof.
  induction s as [|c s IH]; cbn [split_on take_while]; [reflexivity|].
  destruct (sep c); cbn [negb head]; [reflexivity|].
  destruct (split_on sep s) as [|p ps]; [discriminate IH|].
  cbn [head] in *. congruence.
Qed.

Lemma take_while_holds {A} (p : A → bool) (l : list A) :
  Forall (λ x, p x = true) (take_while p l).
Proof.
  induction l as [|x l IH]; cbn [take_while]; [constructor|].
  destruct (p x) eqn:Hx; constructor; assumption.
Qed.

Lemma take_while_prefix {A} (p : A → bool) (l : list A) :
  ∃ rest, l = take_while p l ++ rest.
Proof.
  induction l as [|x l [rest IH]]; cbn [take_while]; [exists []; reflexivity|].
  destruct (p x); [|exists (x :: l); reflexivity].
  exists rest. cbn [app]. congruence.
Qed.

Lemma template_name_facts (prompt : jsstring) :
  templateNameFromPrompt prompt
  = match take 40 (take_while (λ c, negb (c =? 10)%N) prompt) with
    | [] => lit "prompt"
    | name => name
    end
  ∧ templateNameFromPrompt prompt ≠ []
  ∧ length (templateNameFromPrompt prompt) ≤ 40
  ∧ Forall (λ c, c ≠ 10%N) (templateNameFromPrompt prompt)
  ∧ (templateNameFromPrompt prompt = lit "prompt"
     ∨ ∃ rest, prompt = templateNameFromPrompt prompt ++ rest).
Proof.
  unfold templateNameFromPrompt, slice_to.
  rewrite (split_on_head (N.eqb 10) prompt). cbn [default from_option id].
  set (line := take_while (λ c, negb (10 =? c)%N) prompt).
  assert (Hline : take_while (λ c, negb (c =? 10)%N) prompt = line).
  { unfold line. clear. induction prompt as [|c s IH]; cbn [take_while]; [reflexivity|].
    rewrite (N.eqb_sym c 10), IH. reflexivity. }
  rewrite Hline.
  assert (Hnl : Forall (λ c, c ≠ 10%N) (take 40 line)).
  { apply Forall_take. eapply Forall_impl; [apply take_while_holds|].
    intros c Hc ->. discriminate Hc. }
  destruct (take_while_prefix (λ c, negb (10 =? c)%N) prompt) as [rest Hrest].
  fold line in Hrest.
  destruct (take 40 line) as [|c name] eqn:E; cbn [str_or].
  - split; [reflexivity|]. split; [discriminate|]. split; [vm_compute; lia|].
    split; [|left; reflexivity].
    repeat (constructor; [discriminate|]). constructor.
  - split; [reflexivity|]. split; [discriminate|]. rewrite <- E. split.
    + rewrite length_take. lia.
    + split; [rewrite E; exact Hnl|]. right.
      exists (drop 40 line ++ rest). rewrite app_assoc, take_drop. exact Hrest.
Qed.

(** X6: the name [templateNameFromPrompt] gives is the first line of the
    prompt cut to 40 code units, and [prompt] when that is empty: it is
    never empty, never longer than 40 code units and holds no line feed. *)
Theorem X6_template_name (prompt : jsstring) :
  templateNameFromPrompt prompt
  = match take 40 (take_while (λ c, negb (c =? 10)%N) prompt) with
    | [] => lit "prompt"
    | name => name
    end
  ∧ templateNameFromPrompt prompt ≠ []
  ∧ length (templateNameFromPrompt prompt) ≤ 40
  ∧ Forall (λ c, c ≠ 10%N) (templateNameFromPrompt prompt)
  ∧ (templateNameFromPrompt prompt = lit "prompt"
     ∨ ∃ rest, prompt = templateNameFromPrompt prompt ++ rest).
Proof. apply template_name_facts. Qed.

Lemma forallb_Forall {A} (p : A → bool) (l : list A) :
  forallb p l = true → Forall (λ x, p x = true) l.
Proof.
  induction l as [|x l IH]; cbn [forallb]; [constructor|].
  intros [? ?]%andb_true_iff. constructor; auto.
Qed.

Lemma no_line_feed (s : jsstring) :
  Forall (λ c, c ≠ 10%N) s → Forall (λ c, (10 =? c)%N = false) s.
Proof.
  intros Hs. eapply Forall_impl; [exact Hs|]. intros c Hc.
  apply N.eqb_neq. congruence.
Qed.

(** X7: when neither the path nor the first 120 code units of the prompt
    hold a line feed, the fallback text is three comment lines and an empty
    line: every line of it is empty or starts with [//]. *)
Theorem X7_fallback_is_comment (targetPath finalPrompt : jsstring) :
  Forall (λ c, c ≠ 10%N) targetPath →
  Forall (λ c, c ≠ 10%N) (take 120 finalPrompt) →
  split_on (N.eqb 10) (fallback_content targetPath finalPrompt)
  = [lit "// Generated fallback for " ++ targetPath;
     lit "// Template: " ++ templateNameFromPrompt finalPrompt;
     lit "// Prompt snippet: " ++ take 120 finalPrompt ++ lit "...";
     []; []]
  ∧ Forall (λ line, line = [] ∨ startsWith line (lit "//") = true)
      (split_on (N.eqb 10) (fallback_content targetPath finalPrompt)).
Proof.
  intros Hpath Hprompt.
  assert (Hname : Forall (λ c, c ≠ 10%N) (templateNameFromPrompt finalPrompt))
    by apply template_name_facts.
  assert (Hsplit : split_on (N.eqb 10) (fallback_content targetPath finalPrompt)
    = [lit "// Generated fallback for " ++ targetPath;
       lit "// Template: " ++ templateNameFromPrompt finalPrompt;
       lit "// Prompt snippet: " ++ take 120 finalPrompt ++ lit "...";
       []; []]).
  { assert (Hshape : fallback_content targetPath finalPrompt
              = (lit "// Generated fallback for " ++ targetPath)
                ++ 10%N :: (lit "// Template: " ++ templateNameFromPrompt finalPrompt)
                ++ 10%N :: (lit "// Prompt snippet: " ++ take 120 finalPrompt ++ lit "...")
                ++ 10%N :: [] ++ 10%N :: []).
    { unfold fallback_content, slice_to. rewrite <- !app_assoc. reflexivity. }
    rewrite Hshape.
    repeat (rewrite split_on_piece_sep; [f_equal| |reflexivity]);
      try (apply no_line_feed; repeat (apply Forall_app; split); try assumption;
           apply Forall_forall; intros c Hc ->; vm_compute in Hc;
           repeat (apply elem_of_cons in Hc as [Hc|Hc]; [discriminate Hc|]);
           apply elem_of_nil in Hc; exact Hc). }
  split; [exact Hsplit|]. rewrite Hsplit.
  repeat constructor; right; reflexivity.
Qed.

Lemma X7_witness :
  Forall (λ line, line = [] ∨ startsWith line (lit "//") = true)
    (split_on (N.eqb 10) (fallback_content (lit "src/app.js") (lit "Create a login page"))).
Proof.
  apply (X7_fallback_is_comment (lit "src/app.js") (lit "Create a login page"));
    apply Forall_forall; intros c Hc ->; vm_compute in Hc;
    repeat (apply elem_of_cons in Hc as [Hc|Hc]; [discriminate Hc|]);
    apply elem_of_nil in Hc; exact Hc.
Defined.

(** The premise on the prompt is needed: the second line of a prompt is
    written to the file as it is. *)
Example fallback_second_line :
  split_on (N.eqb 10) (fallback_content (lit "a.js") (lit "Title" ++ [10%N] ++ lit "import x"))
  = [lit "// Generated fallback for a.js"; lit "// Template: Title";
     lit "// Prompt snippet: Title"; lit "import x..."; []; []].
Proof. vm_compute. reflexivity. Qed.

(** ** What the groups of a match hold *)

Lemma captures_of_plain (r : regex) (w : jsstring) :
  groups_of r = [] → sure_groups r = [] →
  match r with Grp _ _ => False | _ => True end →
  captures_of r w [].
Proof.
  intros Hg Hs Hr. split; [constructor|]. split.
  - intros i. rewrite Hs. intros []%elem_of_nil.
  - destruct r; try exact I. destruct Hr.
Qed.

Lemma captures_of_seq (r1 r2 : regex) (w1 w2 : jsstring) (new1 new2 : captures) :
  captures_of r1 w1 new1 → captures_of r2 w2 new2 →
  captures_of (Seq r1 r2) (w1 ++ w2) (new2 ++ new1).
Proof.
  intros (F1 & S1 & _) (F2 & S2 & _). split; [|split; [|exact I]].
  - apply Forall_app. split; (eapply Forall_impl; [eassumption|]);
      intros iv (r' & pos & Hin & L); exists r', pos; (split; [|exact L]);
      cbn [groups_of]; apply elem_of_app; auto.
  - intros i. cbn [sure_groups]. intros [Hi|Hi]%elem_of_app.
    + destruct (S1 i Hi) as [v Hv]. exists v. apply elem_of_app. auto.
    + destruct (S2 i Hi) as [v Hv]. exists v. apply elem_of_app. auto.
Qed.

Lemma captures_of_alt (r1 r2 : regex) (w : jsstring) (new : captures) :
  captures_of r1 w new ∨ captures_of r2 w new → captures_of (Alt r1 r2) w new.
Proof.
  intros H. split; [|split; [intros i []%elem_of_nil|exact I]].
  destruct H as [(F & _)|(F & _)]; (eapply Forall_impl; [exact F|]);
    intros iv (r' & pos & Hin & L); exists r', pos; (split; [|exact L]);
    cbn [groups_of]; apply elem_of_app; auto.
Qed.

Lemma captures_of_star_cons (greedy : bool) (r : regex) (w1 w2 : jsstring)
    (new1 new2 : captures) :
  captures_of r w1 new1 → captures_of (Star greedy r) w2 new2 →
  captures_of (Star greedy r) (w1 ++ w2) (new2 ++ new1).
Proof.
  intros (F1 & _) (F2 & _). split; [|split; [intros i []%elem_of_nil|exact I]].
  apply Forall_app. split; [exact F2|].
  eapply Forall_impl; [exact F1|]. intros iv (r' & pos & Hin & L). exists r', pos. auto.
Qed.

Lemma captures_of_grp (i : nat) (r : regex) (w : jsstring) (new : captures) (pos : nat) :
  lang r pos w → captures_of r w new → captures_of (Grp i r) w ((i, w) :: new).
Proof.
  intros L (F & S & _). split; [|split; [|eauto]].
  - constructor.
    + exists r, pos. split; [left|exact L].
    + eapply Forall_impl; [exact F|]. intros iv (r' & pos' & Hin & L').
      exists r', pos'. split; [right; exact Hin|exact L'].
  - intros j. cbn [sure_groups]. intros [->|Hj]%elem_of_cons.
    + exists w. left.
    + destruct (S j Hj) as [v Hv]. exists v. right. exact Hv.
Qed.

(** The matcher, with what it adds to the captures. *)
Lemma rmatch_captures (r : regex) :
  ∀ (x : mstate) (k : cont) (z : mstate),
    rmatch r x k = Some z →
    ∃ w y new, lang r (ms_pos x) w
               ∧ ms_rest x = w ++ ms_rest y
               ∧ ms_pos y = ms_pos x + length w
               ∧ k y = Some z
               ∧ ms_caps y = new ++ ms_caps x
               ∧ captures_of r w new.
Proof.
  induction r as [|p| |r1 IH1 r2 IH2|r1 IH1 r2 IH2|greedy r1 IH1|i r1 IH1];
    intros x k z; cbn [rmatch].
  - intros Hk. exists [], x, []. split; [constructor|]. cbn [app length].
    split; [reflexivity|]. split; [lia|]. split; [exact Hk|]. split; [reflexivity|].
    apply captures_of_plain; auto.
  - destruct (ms_rest x) as [|c s'] eqn:Hrest; [discriminate|].
    destruct (p c) eqn:Hp; [|discriminate]. intros Hk.
    exists [c], (MState (S (ms_pos x)) s' (ms_caps x)), [].
    split; [constructor; exact Hp|]. cbn [app length ms_rest ms_pos ms_caps].
    split; [reflexivity|]. split; [lia|]. split; [exact Hk|]. split; [reflexivity|].
    apply captures_of_plain; auto.
  - destruct (Nat.eqb_spec (ms_pos x) 0) as [Hz|]; [|discriminate]. intros Hk.
    exists [], x, []. rewrite Hz. split; [constructor|]. cbn [app length].
    split; [reflexivity|]. split; [lia|]. split; [exact Hk|]. split; [reflexivity|].
    apply captures_of_plain; auto.
  - intros (w1 & y1 & n1 & L1 & R1 & P1 & (w2 & y & n2 & L2 & R2 & P2 & Hk & C2 & G2)%IH2
            & C1 & G1)%IH1.
    exists (w1 ++ w2), y, (n2 ++ n1).
    split; [constructor; [exact L1|rewrite <- P1; exact L2]|].
    rewrite R1, R2, P2, P1, C2, C1, length_app, <- !app_assoc.
    split; [reflexivity|]. split; [lia|]. split; [exact Hk|]. split; [reflexivity|].
    apply captures_of_seq; assumption.
  - destruct (rmatch r1 x k) as [z'|] eqn:H1.
    + intros [= <-]. apply IH1 in H1 as (w & y & n & L & R & Ps & Hk & C & G).
      exists w, y, n. split; [apply lang_alt_l, L|].
      repeat (split; [assumption|]). apply captures_of_alt. left. exact G.
    + intros (w & y & n & L & R & Ps & Hk & C & G)%IH2. exists w, y, n.
      split; [apply lang_alt_r, L|].
      repeat (split; [assumption|]). apply captures_of_alt. right. exact G.
  - generalize (length (ms_rest x)) as fuel. intros fuel. revert x.
    assert (Hnil : ∀ x, k x = Some z →
              ∃ w y new, lang (Star greedy r1) (ms_pos x) w
                         ∧ ms_rest x = w ++ ms_rest y
                         ∧ ms_pos y = ms_pos x + length w
                         ∧ k y = Some z
                         ∧ ms_caps y = new ++ ms_caps x
                         ∧ captures_of (Star greedy r1) w new).
    { intros x Hk. exists [], x, []. split; [constructor|]. cbn [app length].
      split; [reflexivity|]. split; [lia|]. split; [exact Hk|]. split; [reflexivity|].
      split; [constructor|]. split; [intros i []%elem_of_nil|exact I]. }
    induction fuel as [|fuel IHf]; intros x; cbn [star_loop]; [apply Hnil|].
    assert (Hagain : rmatch r1 x
              (λ y, if ms_pos x <? ms_pos y
                    then star_loop (rmatch r1) greedy k fuel y else None) = Some z →
                     ∃ w y new, lang (Star greedy r1) (ms_pos x) w
                                ∧ ms_rest x = w ++ ms_rest y
                                ∧ ms_pos y = ms_pos x + length w
                                ∧ k y = Some z
                                ∧ ms_caps y = new ++ ms_caps x
                                ∧ captures_of (Star greedy r1) w new).
    { intros (w1 & y1 & n1 & L1 & R1 & P1 & Hy1 & C1 & G1)%IH1.
      destruct (Nat.ltb_spec (ms_pos x) (ms_pos y1)) as [Hlt|]; [|discriminate].
      apply IHf in Hy1 as (w2 & y & n2 & L2 & R2 & P2 & Hk & C2 & G2).
      exists (w1 ++ w2), y, (n2 ++ n1). split.
      - constructor; [|exact L1|rewrite <- P1; exact L2].
        intros ->. cbn in P1. lia.
      - rewrite R1, R2, P2, P1, C2, C1, length_app, <- !app_assoc.
        split; [reflexivity|]. split; [lia|]. split; [exact Hk|].
        split; [reflexivity|]. apply captures_of_star_cons; assumption. }
    destruct greedy.
    + destruct (rmatch r1 x _) as [z'|] eqn:Hr.
      * intros [= <-]. apply Hagain. reflexivity.
      * apply Hnil.
    + destruct (k x) as [z'|] eqn:Hkx.
      * intros [= <-]. apply Hnil, Hkx.
      * exact Hagain.
  - intros (w & y1 & n & L & R & Ps & Hk & C & G)%IH1.
    exists w, (MState (ms_pos y1) (ms_rest y1)
                 ((i, take (ms_pos y1 - ms_pos x) (ms_rest x)) :: ms_caps y1)),
      ((i, w) :: n).
    split; [constructor; exact L|]. cbn [ms_rest ms_pos ms_caps].
    split; [exact R|]. split; [exact Ps|].
    assert (Hw : take (ms_pos y1 - ms_pos x) (ms_rest x) = w).
    { rewrite Ps, R. replace (ms_pos x + length w - ms_pos x) with (length w) by lia.
      apply take_app_length. }
    rewrite Hw in *. split; [exact Hk|]. rewrite C. split; [reflexivity|].
    eapply captures_of_grp; eassumption.
Qed.

Lemma match_at_captures (r : regex) (pos : nat) (s : jsstring) (m : rmatch_result) :
  match_at r pos s = Some m → captures_of r (m_0 m) (m_groups m).
Proof.
  unfold match_at. destruct (rmatch r _ Some) as [y|] eqn:Hm; [|discriminate].
  intros [= <-]. cbn [m_0 m_groups].
  apply rmatch_captures in Hm as (w & y' & new & L & R & Ps & [= ->] & C & G).
  cbn in R, Ps, C. rewrite Ps, R, C, app_nil_r.
  replace (pos + length w - pos) with (length w) by lia.
  rewrite take_app_length. exact G.
Qed.

Lemma search_captures (r : regex) (s : jsstring) :
  ∀ (pos : nat) (m : rmatch_result),
    search r pos s = Some m → captures_of r (m_0 m) (m_groups m).
Proof.
  induction s as [|c s IH]; intros pos m; cbn [search];
    destruct (match_at r pos _) as [m'|] eqn:Hm; try discriminate;
    try (intros [= <-]; eapply match_at_captures, Hm).
  apply IH.
Qed.

Lemma exec_captures (r : regex) (s : jsstring) (i : nat) (m : rmatch_result) :
  exec r s i = Some m → captures_of r (m_0 m) (m_groups m).
Proof.
  unfold exec. destruct (i <=? length s); [|discriminate]. apply search_captures.
Qed.

Lemma group_elem (i : nat) (c : captures) (v : jsstring) :
  group i c = Some v → (i, v) ∈ c.
Proof.
  induction c as [|[j s] c IH]; cbn [group]; [discriminate|].
  destruct (Nat.eqb_spec i j) as [->|_].
  - intros [= ->]. left.
  - intros H. right. apply IH, H.
Qed.

Lemma group_found (i : nat) (c : captures) (v : jsstring) :
  (i, v) ∈ c → is_Some (group i c).
Proof.
  induction c as [|[j s] c IH]; [intros []%elem_of_nil|]. cbn [group].
  destruct (Nat.eqb_spec i j) as [->|Hne]; [eauto|].
  intros [[=]|Hin]%elem_of_cons; [congruence|apply IH, Hin].
Qed.

(** The value of a group of a match is a word of a group of that number. *)
Lemma group_word (r : regex) (s : jsstring) (i0 : nat) (m : rmatch_result)
    (i : nat) (v : jsstring) :
  exec r s i0 = Some m → group i (m_groups m) = Some v →
  ∃ r' pos, (i, r') ∈ groups_of r ∧ lang r' pos v.
Proof.
  intros (F & _)%exec_captures Hv%group_elem.
  rewrite Forall_forall in F. apply (F _ Hv).
Qed.

Lemma group_sure (r : regex) (s : jsstring) (i0 : nat) (m : rmatch_result) (i : nat) :
  exec r s i0 = Some m → i ∈ sure_groups r →
  ∃ v, group i (m_groups m) = Some v ∧ grp i m = v.
Proof.
  intros (_ & S & _)%exec_captures Hi. destruct (S i Hi) as [v Hv].
  destruct (group_found _ _ _ Hv) as [v' Hv']. exists v'.
  split; [exact Hv'|]. unfold grp. rewrite Hv'. reflexivity.
Qed.

(** The words of a class repeated once or more. *)
Lemma lang_plus_class (greedy : bool) (p : N → bool) (pos : nat) (w : jsstring) :
  lang (plus greedy (Chr p)) pos w → w ≠ [] ∧ Forall (λ c, p c = true) w.
Proof.
  unfold plus. intros (w1 & w2 & -> & L1 & L2)%lang_seq_inv.
  inversion L1 as [|? ? c Hc| | | | | | |]; subst.
  split; [discriminate|]. constructor; [exact Hc|].
  eapply lang_star_class, L2.
Qed.

(** A loop over the matches keeps what every round keeps. *)
Lemma exec_loop_invariant {St} (I : St → Prop) (r : regex) (s : jsstring)
    (body : rmatch_result → St → St) :
  (∀ m i st, exec r s i = Some m → I st → I (body m st)) →
  ∀ (fuel i : nat) (st st' : St),
    I st → exec_loop fuel r s i body st = Some st' → I st'.
Proof.
  intros Hbody. induction fuel as [|fuel IH]; intros i st st' Hst; cbn [exec_loop];
    (destruct (exec r s i) as [m|] eqn:Hexec; [|intros [= <-]; exact Hst]);
    (destruct (i <? m_end m); [|discriminate]); [discriminate|].
  apply IH. eapply Hbody; eassumption.
Qed.

(** ** Trimmed strings *)

Lemma trimStart_head (s : jsstring) (c : N) :
  head (trimStart s) = Some c → is_space c = false.
Proof.
  induction s as [|d s IH]; cbn [trimStart]; [discriminate|].
  destruct (is_space d) eqn:Hd; [exact IH|]. intros [= <-]. exact Hd.
Qed.

Lemma trimStart_fixed (s : jsstring) :
  (∀ c, head s = Some c → is_space c = false) → trimStart s = s.
Proof.
  destruct s as [|d s]; [reflexivity|]. intros H. cbn [trimStart].
  rewrite (H d eq_refl). reflexivity.
Qed.

Lemma trimStart_idempotent (s : jsstring) : trimStart (trimStart s) = trimStart s.
Proof. apply trimStart_fixed, trimStart_head. Qed.

Lemma trimStart_suffix (s : jsstring) : ∃ pre, s = pre ++ trimStart s.
Proof.
  induction s as [|d s [pre IH]]; cbn [trimStart]; [exists []; reflexivity|].
  destruct (is_space d); [|exists []; reflexivity].
  exists (d :: pre). cbn [app]. congruence.
Qed.

Lemma trimEnd_prefix (s : jsstring) : ∃ post, s = trimEnd s ++ post.
Proof.
  unfold trimEnd. destruct (trimStart_suffix (rev s)) as [pre Hpre].
  exists (rev pre). rewrite <- rev_app_distr, <- Hpre, rev_involutive. reflexivity.
Qed.

Lemma trimEnd_idempotent (s : jsstring) : trimEnd (trimEnd s) = trimEnd s.
Proof. unfold trimEnd. rewrite rev_involutive, trimStart_idempotent. reflexivity. Qed.

Lemma trim_idempotent (s : jsstring) : trimmed (trim s).
Proof.
  unfold trimmed, trim. set (u := trimStart s).
  assert (Hstart : trimStart (trimEnd u) = trimEnd u).
  { apply trimStart_fixed. intros c Hc. apply (trimStart_head s).
    fold u. destruct (trimEnd_prefix u) as [post Hu].
    destruct (trimEnd u) as [|d t]; [discriminate|]. injection Hc as ->.
    rewrite Hu. reflexivity. }
  rewrite Hstart. apply trimEnd_idempotent.
Qed.

(** ** The names and the tokens the scanners return *)

Lemma none_of_spec (l : list N) (c : N) :
  negb (existsb (N.eqb c) l) = true → c ∉ l.
Proof.
  intros Hc Hin. apply negb_true_iff in Hc.
  assert (existsb (N.eqb c) l = true); [|congruence].
  apply existsb_exists. exists c. split; [apply list_elem_of_In, Hin|apply N.eqb_refl].
Qed.

Lemma set_add_NoDup (x : jsstring) (seen : list jsstring) :
  NoDup seen → NoDup (set_add x seen).
Proof.
  intros Hnd. unfold set_add. destruct (existsb (str_eqb x) seen) eqn:E; [exact Hnd|].
  apply NoDup_app. split; [exact Hnd|]. split; [|apply NoDup_singleton].
  intros y Hy ->%list_elem_of_singleton.
  assert (existsb (str_eqb x) seen = true); [|congruence].
  apply existsb_exists. exists x. split; [apply list_elem_of_In, Hy|apply str_eqb_refl].
Qed.

Lemma set_add_elem (x y : jsstring) (seen : list jsstring) :
  y ∈ set_add x seen → y = x ∨ y ∈ seen.
Proof.
  unfold set_add. destruct (existsb (str_eqb x) seen); [auto|].
  intros [?|?%list_elem_of_singleton]%elem_of_app; auto.
Qed.

Lemma simpleRe_groups :
  groups_of simpleRe = [(1, plus true (none_of (lit "{}:|,")))]
  ∧ sure_groups simpleRe = [1].
Proof. split; reflexivity. Qed.

Lemma simple_name (template : jsstring) (i : nat) (m : rmatch_result) :
  exec simpleRe template i = Some m →
  grp 1 m ≠ [] ∧ Forall (λ c, c ∉ lit "{}:|,") (grp 1 m).
Proof.
  intros Hexec. destruct simpleRe_groups as [Hg Hs].
  destruct (group_sure simpleRe template i m 1 Hexec) as (v & Hv & ->);
    [rewrite Hs; left|].
  destruct (group_word _ _ _ _ _ _ Hexec Hv) as (r' & pos & Hin & L).
  rewrite Hg in Hin. apply list_elem_of_singleton in Hin. injection Hin as ->.
  apply lang_plus_class in L as [Hne Hall]. split; [exact Hne|].
  eapply Forall_impl; [exact Hall|]. intros c. apply none_of_spec.
Qed.

(** X8: the names [parsePlaceholders] returns are distinct; none is empty,
    none holds a brace, a colon, a bar or a comma, and [radio] and [ai] are
    not among them. *)
Theorem X8_simple_names (template : jsstring) (names : list jsstring) :
  parsePlaceholders template = Some names →
  NoDup names
  ∧ Forall (λ n, n ≠ [] ∧ Forall (λ c, c ∉ lit "{}:|,") n
                 ∧ n ≠ lit "radio" ∧ n ≠ lit "ai") names.
Proof.
  unfold parsePlaceholders, while_exec.
  apply (exec_loop_invariant
           (λ seen, NoDup seen
                    ∧ Forall (λ n, n ≠ [] ∧ Forall (λ c, c ∉ lit "{}:|,") n
                                   ∧ n ≠ lit "radio" ∧ n ≠ lit "ai") seen)).
  - intros m i seen Hexec [Hnd Hall].
    destruct (str_eqb (grp 1 m) (lit "radio")) eqn:Hr; cbn [negb andb]; [auto|].
    destruct (str_eqb (grp 1 m) (lit "ai")) eqn:Ha; cbn [negb andb]; [auto|].
    apply str_eqb_neq in Hr, Ha. split; [apply set_add_NoDup, Hnd|].
    apply Forall_forall. intros n [->|Hn]%set_add_elem.
    + destruct (simple_name template i m Hexec) as [Hne Hcl]. auto.
    + rewrite Forall_forall in Hall. apply Hall, Hn.
  - split; constructor.
Qed.

Lemma X8_witness :
  NoDup [lit "name"; lit "file"].
Proof.
  apply (X8_simple_names (lit "Hello {{name}}, file: {{file}} and {{name}} again.")).
  vm_compute. reflexivity.
Defined.

Lemma sort_insert_perm {A} (cmp : A → A → Z) (x : A) (l : list A) :
  sort_insert cmp x l ≡ₚ x :: l.
Proof.
  induction l as [|y l IH]; cbn [sort_insert]; [reflexivity|].
  destruct (0 <? cmp x y)%Z; [|reflexivity].
  rewrite IH. apply Permutation_swap.
Qed.

(** Sorting keeps the elements. *)
Lemma Array_sort_perm {A} (cmp : A → A → Z) (l : list A) : Array_sort cmp l ≡ₚ l.
Proof.
  unfold Array_sort. induction l as [|x l IH]; cbn [fold_right]; [reflexivity|].
  rewrite sort_insert_perm, IH. reflexivity.
Qed.

Lemma split_on_two (sep : N → bool) (s : jsstring) (c : N) :
  c ∈ s → sep c = true → 2 ≤ length (split_on sep s).
Proof.
  induction s as [|d s IH]; [intros []%elem_of_nil|].
  intros Hin Hc. cbn [split_on].
  assert (Hone : 1 ≤ length (split_on sep s)).
  { destruct s; cbn [split_on]; [cbn; lia|].
    destruct (sep n); [cbn; lia|]. destruct (split_on sep s); cbn; lia. }
  destruct (sep d) eqn:Hd; [cbn [length]; lia|].
  apply elem_of_cons in Hin as [->|Hin]; [congruence|].
  specialize (IH Hin Hc). destruct (split_on sep s); cbn [length] in *; lia.
Qed.

Lemma lang_comma_list (x : regex) (pos : nat) (w : jsstring) :
  lang (comma_list x) pos w → ch "," ∈ w.
Proof.
  unfold comma_list, plus. cbn [seqs].
  intros (w1 & ? & -> & _ & (u & ? & -> & (a & ? & -> & _ & (b & ? & -> & Lb & _
          )%lang_seq_inv)%lang_seq_inv & _)%lang_seq_inv)%lang_seq_inv.
  apply lang_one_inv in Lb as ->.
  apply elem_of_app. right. apply elem_of_app. left. apply elem_of_app. right. left.
Qed.

Lemma split_options_spec (opts : jsstring) :
  Forall trimmed (split_options opts)
  ∧ (ch "," ∈ opts → 2 ≤ length (split_options opts)).
Proof.
  unfold split_options. split.
  - apply Forall_forall. intros o (x & -> & _)%list_elem_of_fmap. apply trim_idempotent.
  - intros Hin. rewrite length_map. apply (split_on_two _ _ (ch ",") Hin). reflexivity.
Qed.

(** The words of the patterns of the grammar stand between braces. *)
Lemma braced_words (l : list regex) (pos : nat) (w : jsstring) :
  lang (seqs (open_braces :: l ++ [close_braces])) pos w →
  ∃ u, w = lit "{{" ++ u ++ lit "}}".
Proof.
  assert (Hs : seqs (open_braces :: l ++ [close_braces])
               = Seq open_braces (seqs (l ++ [close_braces]))) by (destruct l; reflexivity).
  rewrite Hs.
  intros (w1 & w2 & -> & ->%lang_open_braces
          & (w3 & w4 & pos' & -> & ->%lang_close_braces)%lang_seqs_last)%lang_seq_inv.
  exists w3. reflexivity.
Qed.

Ltac braced R :=
  match eval unfold R in R with
  | seqs (open_braces :: ?l) =>
      change R with (seqs (open_braces :: removelast l ++ [close_braces]))
  end.

Lemma token_text (re : regex) (l : list regex) (template : jsstring) (i : nat)
    (m : rmatch_result) :
  re = seqs (open_braces :: l ++ [close_braces]) →
  exec re template i = Some m →
  ∃ a u rest, drop a template = m_0 m ++ rest ∧ m_0 m = lit "{{" ++ u ++ lit "}}".
Proof.
  intros -> [L [rest Hd]]%exec_sound. apply braced_words in L as [u Hu].
  exists (m_index m), u, rest. auto.
Qed.

Ltac group_of H :=
  repeat (apply elem_of_cons in H as [H|H];
          [first [discriminate H|injection H as H; exact H]|]);
  apply elem_of_nil in H; destruct H.

Lemma trimmed_default (o : option jsstring) (d : jsstring) :
  trim <$> o = Some d → trimmed d.
Proof. destruct o; [|discriminate]. intros [= <-]. apply trim_idempotent. Qed.

Lemma named_token_wellformed (template : jsstring) (i : nat) (m : rmatch_result) :
  exec namedRe template i = Some m → token_wellformed template (named_token m).
Proof.
  intros Hexec. unfold token_wellformed, named_token. cbn [raw options default_ name type aiPrompt].
  destruct (group_sure namedRe template i m 1 Hexec) as (n & Hn & ->); [left|].
  destruct (group_sure namedRe template i m 2 Hexec) as (o & Ho & ->); [right; left|].
  destruct (group_word _ _ _ _ _ _ Hexec Hn) as (r1 & p1 & Hin1 & L1).
  destruct (group_word _ _ _ _ _ _ Hexec Ho) as (r2 & p2 & Hin2 & L2).
  change (groups_of namedRe)
    with [(1, plus true name_char); (2, comma_list not_brace_bar);
          (3, plus false not_close)] in Hin1, Hin2.
  assert (r1 = plus true name_char) as ->.
  { group_of Hin1. }
  assert (r2 = comma_list not_brace_bar) as ->.
  { group_of Hin2. }
  apply lang_plus_class in L1 as [Hne Hn']. apply lang_comma_list in L2.
  destruct (split_options_spec o) as [Htrim Hlen].
  split; [eapply (token_text namedRe); [|exact Hexec]; braced namedRe; reflexivity|].
  split; [exact Htrim|]. split; [apply trimmed_default|].
  split; [intros ? [= <-]; auto|]. auto.
Qed.

Lemma anon_token_wellformed (template : jsstring) (i : nat) (m : rmatch_result) :
  exec anonRe template i = Some m → token_wellformed template (anon_token m).
Proof.
  intros Hexec. unfold token_wellformed, anon_token. cbn [raw options default_ name type aiPrompt].
  destruct (group_sure anonRe template i m 1 Hexec) as (o & Ho & ->); [left|].
  destruct (group_word _ _ _ _ _ _ Hexec Ho) as (r2 & p2 & Hin2 & L2).
  change (groups_of anonRe)
    with [(1, comma_list not_braces_colon_bar); (2, plus false not_close)] in Hin2.
  assert (r2 = comma_list not_braces_colon_bar) as ->.
  { group_of Hin2. }
  apply lang_comma_list in L2.
  destruct (split_options_spec o) as [Htrim Hlen].
  split; [eapply (token_text anonRe); [|exact Hexec]; braced anonRe; reflexivity|].
  split; [exact Htrim|]. split; [apply trimmed_default|].
  split; [discriminate|]. auto.
Qed.

Lemma radio_token_wellformed (template : jsstring) (i : nat) (m : rmatch_result) :
  exec radioRe template i = Some m → token_wellformed template (radio_token m).
Proof.
  intros Hexec. unfold token_wellformed, radio_token. cbn [raw options default_ name type aiPrompt].
  destruct (group_sure radioRe template i m 1 Hexec) as (o & Ho & ->).
  { change (sure_groups radioRe) with [1]. left. }
  destruct (group_word _ _ _ _ _ _ Hexec Ho) as (r2 & p2 & Hin2 & L2).
  change (groups_of radioRe)
    with [(1, comma_list not_brace_bar); (2, plus false not_close)] in Hin2.
  assert (r2 = comma_list not_brace_bar) as ->.
  { group_of Hin2. }
  apply lang_comma_list in L2.
  destruct (split_options_spec o) as [Htrim Hlen].
  split; [eapply (token_text radioRe); [|exact Hexec]; braced radioRe; reflexivity|].
  split; [exact Htrim|]. split; [apply trimmed_default|].
  split; [discriminate|]. auto.
Qed.

Lemma ai_token_wellformed (template : jsstring) (i : nat) (m : rmatch_result) :
  exec aiRe template i = Some m → token_wellformed template (ai_token m).
Proof.
  intros Hexec. unfold token_wellformed, ai_token. cbn [raw options default_ name type aiPrompt].
  split; [eapply (token_text aiRe); [|exact Hexec]; braced aiRe; reflexivity|].
  split; [repeat constructor; apply trim_idempotent|]. split; [apply trimmed_default|].
  split; [discriminate|]. split; [reflexivity|]. eauto.
Qed.

Lemma pass_wellformed (re : regex) (check : bool) (mk : rmatch_result → token)
    (template : jsstring) (tokens tokens' : list token) :
  (∀ i m, exec re template i = Some m → token_wellformed template (mk m)) →
  Forall (token_wellformed template) tokens →
  pass id re check mk template tokens = Some tokens' →
  Forall (token_wellformed template) tokens'.
Proof.
  intros Hmk Hall. unfold pass, while_exec.
  apply (exec_loop_invariant (Forall (token_wellformed template))); [|exact Hall].
  intros m i st Hexec Hst. destruct (check && _); [exact Hst|].
  apply Forall_app. split; [exact Hst|]. constructor; [|constructor].
  eapply Hmk, Hexec.
Qed.

(** X9: every token [parseChoicePlaceholders] returns is well formed: its
    text stands in the template, between two opening and two closing
    braces; its options and its default are trimmed; a choice and a radio
    token have two options or more, an [ai] token has its prompt as its
    one option; and a name is a word of letters, digits, [_], [.] and
    [-] that is not empty. *)
Theorem X9_tokens_wellformed (template : jsstring) (tokens : list token) :
  parseChoicePlaceholders template = Some tokens →
  Forall (token_wellformed template) tokens.
Proof.
  unfold parseChoicePlaceholders.
  destruct (passes id (λ mk, mk) template) as [l|] eqn:Hp; [|discriminate].
  cbn [mbind option_bind]. intros [= <-]. rewrite Array_sort_perm.
  unfold passes in Hp.
  destruct (pass id namedRe false named_token template []) as [t1|] eqn:H1;
    cbn [mbind option_bind] in Hp; [|discriminate].
  destruct (pass id anonRe true anon_token template t1) as [t2|] eqn:H2;
    cbn [mbind option_bind] in Hp; [|discriminate].
  destruct (pass id radioRe true radio_token template t2) as [t3|] eqn:H3;
    cbn [mbind option_bind] in Hp; [|discriminate].
  assert (Hok1 : Forall (token_wellformed template) t1).
  { eapply pass_wellformed; [|constructor|exact H1].
    intros i m. apply named_token_wellformed. }
  assert (Hok2 : Forall (token_wellformed template) t2).
  { eapply pass_wellformed; [|exact Hok1|exact H2].
    intros i m. apply anon_token_wellformed. }
  assert (Hok3 : Forall (token_wellformed template) t3).
  { eapply pass_wellformed; [|exact Hok2|exact H3].
    intros i m. apply radio_token_wellformed. }
  eapply pass_wellformed; [|exact Hok3|exact Hp].
  intros i m. apply ai_token_wellformed.
Qed.

Lemma X9_witness :
  Forall (token_wellformed (lit "Use {{tool:vite, webpack|vite}} and {{ai|name it}}"))
    [Token (lit "{{tool:vite, webpack|vite}}") (Some (lit "tool"))
       [lit "vite"; lit "webpack"] (Some (lit "vite")) choice None;
     Token (lit "{{ai|name it}}") None [lit "name it"] None ai (Some (lit "name it"))].
Proof.
  apply (X9_tokens_wellformed (lit "Use {{tool:vite, webpack|vite}} and {{ai|name it}}")).
  vm_compute. reflexivity.
Defined.

(** X10: both scanners come to an end on every template: each match
    takes the two opening braces at least, so that the loops over the
    matches stop. *)
Theorem X10_scanners_terminate (template : jsstring) :
  is_Some (parsePlaceholders template) ∧ is_Some (parseChoicePlaceholders template).
Proof.
  destruct (parsePlaceholders_total template) as [names ->].
  destruct (parseChoicePlaceholders_total template) as [tokens ->]. eauto.
Qed.

(** ** What the Simple Filler replaces *)

Lemma captures_of_none (r : regex) (w : jsstring) (new : captures) :
  groups_of r = [] → captures_of r w new → new = [].
Proof.
  intros Hg (F & _). destruct new as [|iv new]; [reflexivity|].
  inversion F as [|? ? (r' & pos & Hin & _) _]; subst.
  rewrite Hg in Hin. apply elem_of_nil in Hin as [].
Qed.

(** What holds of every match at a position holds of the matches of a
    search, of [exec] and of a replacement. *)
Lemma search_all (Q : rmatch_result → Prop) (r : regex) :
  (∀ pos s m, match_at r pos s = Some m → Q m) →
  ∀ s pos m, search r pos s = Some m → Q m.
Proof.
  intros HQ. induction s as [|c s IH]; intros pos m; cbn [search];
    destruct (match_at r pos _) as [m'|] eqn:Hm; try discriminate;
    try (intros [= <-]; eapply HQ, Hm).
  apply IH.
Qed.

Lemma exec_all (Q : rmatch_result → Prop) (r : regex) :
  (∀ pos s m, match_at r pos s = Some m → Q m) →
  ∀ s i m, exec r s i = Some m → Q m.
Proof.
  intros HQ s i m. unfold exec. destruct (i <=? length s); [|discriminate].
  apply search_all, HQ.
Qed.

Lemma replace_matches_all (Q : rmatch_result → Prop) (r : regex) (s : jsstring) :
  (∀ i m, exec r s i = Some m → Q m) →
  ∀ fuel i, Forall Q (replace_matches fuel r s i).
Proof.
  intros HQ. induction fuel as [|fuel IH]; intros i; cbn [replace_matches]; [constructor|].
  destruct (exec r s i) as [m|] eqn:Hexec; [|constructor].
  constructor; [eapply HQ, Hexec|apply IH].
Qed.

(** A match of the Simple Filler's pattern: braces, white space, the name
    its group holds, white space, braces. *)
Lemma fillRe_match_parts (pos : nat) (s : jsstring) (m : rmatch_result) :
  match_at fillRe pos s = Some m →
  ∃ w1 w2, m_0 m = lit "{{" ++ w1 ++ grp 1 m ++ w2 ++ lit "}}"
           ∧ Forall (λ c, is_space c = true) w1
           ∧ Forall (λ c, is_space c = true) w2
           ∧ grp 1 m ≠ []
           ∧ Forall (λ c, is_name_char c = true) (grp 1 m).
Proof.
  unfold match_at. destruct (rmatch fillRe _ Some) as [z|] eqn:Hm; [|discriminate].
  intros [= <-]. cbn [m_0]. unfold grp. cbn [m_groups].
  unfold fillRe in Hm. cbn [seqs] in Hm. rewrite rmatch_seq in Hm.
  apply rmatch_captures in Hm
    as (b1 & y1 & n1 & ->%lang_open_braces & R1 & P1 & Hm & C1 & G1).
  apply captures_of_none in G1 as ->; [|reflexivity].
  rewrite rmatch_seq in Hm.
  apply rmatch_captures in Hm as (w1 & y2 & n2 & L2%lang_star_class & R2 & P2 & Hm & C2 & G2).
  apply captures_of_none in G2 as ->; [|reflexivity].
  rewrite rmatch_seq in Hm.
  apply rmatch_captures in Hm as (n & y3 & n3 & L3 & R3 & P3 & Hm & C3 & G3).
  destruct G3 as (_ & _ & [rest3 ->]).
  inversion L3 as [| | | | | | | |? ? ? ? L3']; subst.
  apply lang_plus_class in L3' as [Hne Hn].
  rewrite rmatch_seq in Hm.
  apply rmatch_captures in Hm as (w2 & y4 & n4 & L4%lang_star_class & R4 & P4 & Hm & C4 & G4).
  apply captures_of_none in G4 as ->; [|reflexivity].
  apply rmatch_captures in Hm
    as (b2 & y5 & n5 & ->%lang_close_braces & R5 & P5 & [= <-] & C5 & G5).
  apply captures_of_none in G5 as ->; [|reflexivity].
  cbn [ms_rest ms_pos ms_caps app] in *.
  rewrite C5, C4, C3. cbn [group Nat.eqb default from_option id].
  exists w1, w2.
  assert (Hlen : ms_pos y5 - pos
                 = length ([ch "{"; ch "{"] ++ w1 ++ n ++ w2 ++ [ch "}"; ch "}"])).
  { rewrite P5, P4, P3, P2, P1, !length_app. cbn [length]. lia. }
  assert (Hs : s = ([ch "{"; ch "{"] ++ w1 ++ n ++ w2 ++ [ch "}"; ch "}"]) ++ ms_rest y5).
  { rewrite R1, R2, R3, R4, R5, <- !app_assoc. reflexivity. }
  split; [|auto]. rewrite Hlen. rewrite Hs at 1. apply take_app_length.
Qed.

(** X13: [fillPlaceholders] goes through the template once: the matches of
    its pattern, one after the other, are tokens of two braces, white
    space, a name of letters, digits, [_], [.] and [-], white space and two
    braces; each is replaced by the value the map holds for the name, and
    by the empty string when the map holds none; the text around the
    matches is kept and the values put in are not read again. *)
Theorem X13_simple_filler (template : jsstring) (values : gmap jsstring jsstring) :
  fillPlaceholders template values
  = splice template 0 (simple_matches template)
      (map (λ m, default [] (values !! grp 1 m)) (simple_matches template))
  ∧ ordered 0 (simple_matches template)
  ∧ Forall (λ m, (∃ w1 w2, m_0 m = lit "{{" ++ w1 ++ grp 1 m ++ w2 ++ lit "}}"
                          ∧ Forall (λ c, is_space c = true) w1
                          ∧ Forall (λ c, is_space c = true) w2
                          ∧ grp 1 m ≠ []
                          ∧ Forall (λ c, is_name_char c = true) (grp 1 m))
                 ∧ ∃ rest, drop (m_index m) template = m_0 m ++ rest)
      (simple_matches template).
Proof.
  split; [apply fillPlaceholders_splice|]. split; [apply replace_matches_ordered|].
  apply Forall_forall. intros m Hm. split.
  - revert m Hm. apply Forall_forall. unfold simple_matches.
    apply replace_matches_all. apply exec_all. apply fillRe_match_parts.
  - apply simple_matches_shape, Hm.
Qed.

(** ** Text without tokens *)

Lemma replace_no_brace {St} (r : regex) (s : jsstring)
    (f : rmatch_result → St → jsstring * St) (st : St) :
  brace_free s → (replace_st (Seq open_braces r) s f st).1 = s.
Proof.
  intros Hfree. unfold replace_st. rewrite replace_matches_no_brace by exact Hfree.
  reflexivity.
Qed.

(** X11: a text without an opening brace goes through both fillers
    unchanged, and both scanners find nothing in it. *)
Theorem X11_plain_text (text : jsstring) (selections : list jsstring)
    (values : gmap jsstring jsstring) :
  brace_free text →
  fillPlaceholders text values = text
  ∧ fillChoicePlaceholders text selections = text
  ∧ parsePlaceholders text = Some []
  ∧ parseChoicePlaceholders text = Some [].
Proof.
  intros Hfree. destruct (no_token_brace_free text Hfree) as (Hc & Hs & _).
  split; [|split; [|split; assumption]].
  - unfold fillPlaceholders, replace. open_re fillRe. apply replace_no_brace, Hfree.
  - unfold fillChoicePlaceholders. destruct selections; [reflexivity|].
    open_re choiceRe. apply replace_no_brace, Hfree.
Qed.

Lemma X11_witness :
  fillPlaceholders (lit "Build a page") {[lit "x" := lit "y"]} = lit "Build a page".
Proof.
  refine (proj1 (X11_plain_text (lit "Build a page") [lit "a"] _ _)).
  apply brace_free_check. vm_compute. reflexivity.
Defined.

(** ** One token in a text *)

#[local] Opaque rmatch.

(** The match of a pattern of the shape of the two patterns for simple
    tokens, braces, white space, a group of a class, white space, braces,
    at the start of a token whose body is the longest run of the class. *)
Lemma token_match (cls : N → bool) (pos : nat) (w1 body w2 rest : jsstring) :
  Forall (λ c, is_space c = true) w1 →
  body ≠ [] → Forall (λ c, cls c = true) body →
  (∀ c, head body = Some c → is_space c = false) →
  Forall (λ c, is_space c = true) w2 →
  (∀ c, head (w2 ++ lit "}}") = Some c → cls c = false) →
  match_at (seqs [open_braces; Star true ws; Grp 1 (plus true (Chr cls));
                  Star true ws; close_braces])
    pos ((lit "{{" ++ w1 ++ body ++ w2 ++ lit "}}") ++ rest)
  = Some (RMatch pos (lit "{{" ++ w1 ++ body ++ w2 ++ lit "}}") [(1, body)]).
Proof.
  intros H1 Hne Hbody Hfirst H2 Hstop.
  destruct body as [|c n]; [congruence|]. inversion Hbody as [|? ? Hc Hn]; subst.
  unfold match_at.
  assert (Hm : rmatch (seqs [open_braces; Star true ws; Grp 1 (plus true (Chr cls));
                             Star true ws; close_braces])
                 (MState pos ((lit "{{" ++ w1 ++ (c :: n) ++ w2 ++ lit "}}") ++ rest) []) Some
               = Some (MState (pos + length (lit "{{" ++ w1 ++ (c :: n) ++ w2 ++ lit "}}"))
                         rest [(1, c :: n)])).
  { unfold open_braces, close_braces, plus, ws. cbn [seqs].
    rewrite <- !app_assoc.
    change (lit "{{" ++ w1 ++ (c :: n) ++ w2 ++ lit "}}" ++ rest)
      with (ch "{" :: ch "{" :: w1 ++ (c :: n) ++ w2 ++ ch "}" :: ch "}" :: rest).
    rewrite !rmatch_seq, !rmatch_one, rmatch_seq.
    apply (star_class_greedy is_space _ _ w1 ((c :: n) ++ w2 ++ ch "}" :: ch "}" :: rest));
      [reflexivity|exact H1| |].
    { intros c' r' [= -> _]. apply Hfirst. reflexivity. }
    cbv beta iota delta [ms_pos ms_rest ms_caps].
    rewrite rmatch_seq, rmatch_grp, rmatch_seq.
    change ((c :: n) ++ w2 ++ ch "}" :: ch "}" :: rest)
      with (c :: n ++ w2 ++ ch "}" :: ch "}" :: rest).
    rewrite (rmatch_chr cls c) by exact Hc.
    apply (star_class_greedy cls _ _ n (w2 ++ ch "}" :: ch "}" :: rest));
      [reflexivity|exact Hn| |].
    { intros c' r' Heq. apply Hstop.
      destruct w2 as [|s2 w2']; cbn [app] in Heq |- *; injection Heq as <- _; reflexivity. }
    cbv beta iota delta [ms_pos ms_rest ms_caps]. rewrite rmatch_seq.
    apply (star_class_greedy is_space _ _ w2 (ch "}" :: ch "}" :: rest));
      [reflexivity|exact H2| |].
    { intros c' r' [= <- _]. reflexivity. }
    cbv beta iota delta [ms_pos ms_rest ms_caps].
    rewrite !rmatch_seq, !rmatch_one.
    f_equal. f_equal.
    - unlit. rewrite !length_app. cbn [length]. lia.
    - match goal with
      | |- context [take ?j _] => replace j with (S (length n)) by lia
      end.
      cbn [take]. rewrite take_app_length. reflexivity. }
  rewrite Hm. cbn [ms_pos ms_caps]. f_equal. f_equal.
  replace (pos + length (lit "{{" ++ w1 ++ (c :: n) ++ w2 ++ lit "}}") - pos)
    with (length (lit "{{" ++ w1 ++ (c :: n) ++ w2 ++ lit "}}")) by lia.
  apply take_app_length.
Qed.

#[local] Transparent rmatch.

Lemma search_skip (r : regex) (pre s : jsstring) :
  brace_free pre →
  ∀ pos, search (Seq open_braces r) pos (pre ++ s)
         = search (Seq open_braces r) (pos + length pre) s.
Proof.
  induction pre as [|c pre IH]; intros Hfree pos; cbn [app length].
  - rewrite Nat.add_0_r. reflexivity.
  - cbn [search]. rewrite match_at_no_brace.
    + rewrite IH; [f_equal; lia|]. intros Hin. apply Hfree. right. exact Hin.
    + cbn. intros [= ->]. apply Hfree. left.
Qed.

(** The matches of a text that holds one token between two texts without
    an opening brace. *)
Lemma one_match (r : regex) (pre word post : jsstring) (caps : captures) :
  brace_free pre → brace_free post → word ≠ [] →
  (∀ pos rest, match_at (Seq open_braces r) pos (word ++ rest)
               = Some (RMatch pos word caps)) →
  exec (Seq open_braces r) (pre ++ word ++ post) 0
  = Some (RMatch (length pre) word caps)
  ∧ exec (Seq open_braces r) (pre ++ word ++ post) (length pre + length word) = None.
Proof.
  intros Hpre Hpost Hne Hm. unfold exec. split.
  - rewrite (proj2 (Nat.leb_le 0 _)) by lia. rewrite drop_0.
    rewrite search_skip by exact Hpre. cbn [Nat.add].
    destruct (word ++ post) as [|c s] eqn:E; [destruct word; [congruence|discriminate]|].
    cbn [search]. rewrite <- E, Hm. reflexivity.
  - rewrite (proj2 (Nat.leb_le _ _)) by (rewrite !length_app; lia).
    rewrite app_assoc, <- length_app, drop_app_length.
    apply search_no_brace, Hpost.
Qed.

Lemma one_replace_match (r : regex) (pre word post : jsstring) (caps : captures) :
  brace_free pre → brace_free post → word ≠ [] →
  (∀ pos rest, match_at (Seq open_braces r) pos (word ++ rest)
               = Some (RMatch pos word caps)) →
  replace_matches (length (pre ++ word ++ post) + 2) (Seq open_braces r)
    (pre ++ word ++ post) 0
  = [RMatch (length pre) word caps].
Proof.
  intros Hpre Hpost Hne Hm.
  destruct (one_match r pre word post caps Hpre Hpost Hne Hm) as [H0 Hend].
  rewrite Nat.add_comm. cbn [Nat.add replace_matches]. rewrite H0.
  unfold m_end. cbn [m_0 m_index].
  rewrite (proj2 (Nat.eqb_neq (length word) 0))
    by (destruct word; [congruence|discriminate]).
  rewrite Hend. reflexivity.
Qed.

Lemma one_loop_match {St} (r : regex) (pre word post : jsstring) (caps : captures)
    (body : rmatch_result → St → St) (st : St) :
  brace_free pre → brace_free post → word ≠ [] →
  (∀ pos rest, match_at (Seq open_braces r) pos (word ++ rest)
               = Some (RMatch pos word caps)) →
  while_exec (Seq open_braces r) (pre ++ word ++ post) body st
  = Some (body (RMatch (length pre) word caps) st).
Proof.
  intros Hpre Hpost Hne Hm.
  destruct (one_match r pre word post caps Hpre Hpost Hne Hm) as [H0 Hend].
  unfold while_exec.
  destruct (length (pre ++ word ++ post)) as [|fuel] eqn:Hlen.
  { rewrite !length_app in Hlen. destruct word; [congruence|cbn in Hlen; lia]. }
  cbn [exec_loop]. rewrite H0. unfold m_end. cbn [m_0 m_index].
  rewrite (proj2 (Nat.ltb_lt _ _)) by (destruct word; [congruence|cbn; lia]).
  destruct fuel; cbn [exec_loop]; rewrite Hend; reflexivity.
Qed.

Lemma simple_class (c : N) :
  is_name_char c = true ∨ is_space c = true →
  negb (existsb (N.eqb c) (lit "{}:|,")) = true.
Proof.
  intros Hc. destruct (existsb (N.eqb c) (lit "{}:|,")) eqn:E; [|reflexivity].
  exfalso. apply existsb_exists in E as (d & Hd & ->%N.eqb_eq).
  destruct Hc as [Hc|Hc];
    repeat (destruct Hd as [<-|Hd]; [vm_compute in Hc; discriminate Hc|]); destruct Hd.
Qed.

(** X12: in a text that holds one simple token, two braces, white space,
    a name, white space, two braces, between two texts without an opening
    brace, [fillPlaceholders] replaces the token by the value of the name,
    and by the empty string when there is none, whereas the name
    [parsePlaceholders] returns is the name with the white space that
    follows it: a value stored under the name that was returned is found by
    the filler only when no white space follows the name. *)
Theorem X12_name_and_key (pre w1 n w2 post : jsstring)
    (values : gmap jsstring jsstring) :
  brace_free pre → brace_free post →
  Forall (λ c, is_space c = true) w1 → Forall (λ c, is_space c = true) w2 →
  n ≠ [] → Forall (λ c, is_name_char c = true) n →
  let template := pre ++ (lit "{{" ++ w1 ++ n ++ w2 ++ lit "}}") ++ post in
  fillPlaceholders template values = pre ++ default [] (values !! n) ++ post
  ∧ parsePlaceholders template
    = Some (if str_eqb (n ++ w2) (lit "radio") || str_eqb (n ++ w2) (lit "ai")
            then [] else [n ++ w2])
  ∧ (w2 ≠ [] → ∀ v, fillPlaceholders template {[n ++ w2 := v]} = pre ++ post).
Proof.
  intros Hpre Hpost H1 H2 Hne Hn template.
  assert (Hhead : ∀ c l, head (n ++ l) = Some c → is_space c = false).
  { intros c l Hc. apply name_not_space. destruct n as [|d n']; [congruence|].
    injection Hc as <-. inversion Hn; assumption. }
  set (word := lit "{{" ++ w1 ++ n ++ w2 ++ lit "}}") in *.
  assert (Hword : word ≠ []) by discriminate.
  assert (Hfill : ∀ pos rest, match_at fillRe pos (word ++ rest)
                              = Some (RMatch pos word [(1, n)])).
  { intros pos rest. apply (token_match is_name_char); try assumption.
    - intros c Hc. apply (Hhead c []). rewrite app_nil_r. exact Hc.
    - intros c Hc. destruct w2 as [|s w2']; cbn in Hc; injection Hc as <-.
      + reflexivity.
      + apply space_not_name. inversion H2; assumption. }
  assert (Hsimple : ∀ pos rest, match_at simpleRe pos (word ++ rest)
                                = Some (RMatch pos word [(1, n ++ w2)])).
  { intros pos rest. unfold word.
    replace (lit "{{" ++ w1 ++ n ++ w2 ++ lit "}}")
      with (lit "{{" ++ w1 ++ (n ++ w2) ++ [] ++ lit "}}")
      by (cbn [app]; rewrite <- app_assoc; reflexivity).
    apply (token_match (λ c, negb (existsb (N.eqb c) (lit "{}:|,")))).
    - exact H1.
    - destruct n; [congruence|discriminate].
    - apply Forall_app. split; (eapply Forall_impl; [eassumption|]);
        intros c Hc; apply simple_class; auto.
    - intros c. apply Hhead.
    - constructor.
    - intros c [= <-]. reflexivity. }
  assert (Hvalue : ∀ vals : gmap jsstring jsstring,
             fillPlaceholders template vals = pre ++ default [] (vals !! n) ++ post).
  { intros vals. rewrite fillPlaceholders_splice. unfold simple_matches, template.
    revert Hfill. open_re fillRe. intros Hfill.
    rewrite (one_replace_match _ pre word post [(1, n)]) by assumption.
    cbn [map splice head tail default from_option id m_index]. unfold m_end.
    cbn [m_index m_0].
    unfold grp. cbn [m_groups group Nat.eqb default from_option id].
    rewrite Nat.sub_0_r, drop_0, take_app_length.
    replace (drop (length pre + length word) (pre ++ word ++ post)) with post
      by (rewrite (app_assoc pre), <- length_app, drop_app_length; reflexivity).
    reflexivity. }
  split; [apply Hvalue|]. split.
  - unfold parsePlaceholders, template. revert Hsimple. open_re simpleRe. intros Hsimple.
    rewrite (one_loop_match _ pre word post [(1, n ++ w2)]) by assumption.
    unfold grp. cbn [m_groups group Nat.eqb default from_option id].
    destruct (str_eqb (n ++ w2) (lit "radio")); cbn [negb andb orb]; [reflexivity|].
    destruct (str_eqb (n ++ w2) (lit "ai")); reflexivity.
  - intros Hw2 v. rewrite Hvalue. rewrite lookup_singleton_ne; [reflexivity|].
    intros Heq. apply Hw2. apply (f_equal length) in Heq.
    rewrite length_app in Heq. destruct w2; [reflexivity|cbn in Heq; lia].
Qed.

Lemma X12_witness :
  parsePlaceholders (lit "Hello {{ name }}!") = Some [lit "name "]
  ∧ fillPlaceholders (lit "Hello {{ name }}!") {[lit "name " := lit "Ann"]} = lit "Hello !".
Proof.
  assert (Hpre : brace_free (lit "Hello ")) by (apply brace_free_check; reflexivity).
  assert (Hpost : brace_free (lit "!")) by (apply brace_free_check; reflexivity).
  assert (Hw : Forall (λ c, is_space c = true) (lit " "))
    by (repeat constructor).
  assert (Hn : Forall (λ c, is_name_char c = true) (lit "name"))
    by (repeat constructor).
  assert (Hne : lit "name" ≠ []) by discriminate.
  pose proof (X12_name_and_key (lit "Hello ") (lit " ") (lit "name") (lit " ") (lit "!")
                {[lit "name " := lit "Ann"]} Hpre Hpost Hw Hw Hne Hn) as (_ & Hscan & Hfill).
  split; [exact Hscan|]. apply Hfill. discriminate.
Defined.
(** ** The client cache *)

Import Sim SimEditor.

Section ClientCache.

Context {World Client : Type} {S : Config.Settings World Client}.

Lemma trimStart_spaces (s : jsstring) :
  Forall (λ c, is_space c = true) s → trimStart s = [].
Proof.
  induction 1 as [|c s Hc _ IH]; [reflexivity|]. cbn [trimStart]. rewrite Hc. exact IH.
Qed.

Lemma trim_spaces (s : jsstring) : Forall (λ c, is_space c = true) s → trim s = [].
Proof. intros Hs. unfold trim. rewrite trimStart_spaces by exact Hs. reflexivity. Qed.

Lemma getGlobalAI_cached (st st' : Config.ai_state World Client) (c : Client) :
  Config.getGlobalAI st = (st', Ok c) →
  Config.setting (lit "apiKey") (Config.ai_world st) ≠ []
  ∧ Config.cachedClient st'
    = Some (Config.Cached c (Config.setting (lit "apiKey") (Config.ai_world st))
              (Config.setting (lit "apiUrl") (Config.ai_world st))).
Proof.
  unfold Config.getGlobalAI, Config.resolveConfig.
  destruct (Config.setting (lit "apiKey") (Config.ai_world st)) as [|k key] eqn:Hkey;
    [discriminate|].
  set (url := Config.setting (lit "apiUrl") (Config.ai_world st)).
  destruct (Config.stale (Config.cachedClient st) (k :: key) url) eqn:Hstale.
  - destruct (Config.new_OpenAI _ _ _) as [w [c'|e]]; intros [= <- <-].
    split; [discriminate|reflexivity].
  - unfold Config.stale in Hstale.
    destruct (Config.cachedClient st) as [[c' key' url']|] eqn:Hc; [|discriminate].
    cbn [Config.apiKey Config.apiUrl] in Hstale.
    apply orb_false_iff in Hstale as [Hk Hu].
    apply negb_false_iff, str_eqb_eq in Hk, Hu. subst key' url'.
    intros [= <- <-]. split; [discriminate|exact Hc].
Qed.

(** X14: once [getGlobalAI] has returned a client, a call in a state with
    the cache it left and with the same two settings, trimmed, returns
    that client again, builds nothing and leaves the state as it is. *)
Theorem X14_client_reused (st st' st2 : Config.ai_state World Client) (c : Client) :
  Config.getGlobalAI st = (st', Ok c) →
  Config.cachedClient st2 = Config.cachedClient st' →
  Config.setting (lit "apiKey") (Config.ai_world st2)
  = Config.setting (lit "apiKey") (Config.ai_world st) →
  Config.setting (lit "apiUrl") (Config.ai_world st2)
  = Config.setting (lit "apiUrl") (Config.ai_world st) →
  Config.getGlobalAI st2 = (st2, Ok c).
Proof.
  intros [Hne Hc]%getGlobalAI_cached Hsame Hkey Hurl.
  unfold Config.getGlobalAI, Config.resolveConfig. rewrite Hkey, Hurl, Hsame, Hc.
  destruct (Config.setting (lit "apiKey") (Config.ai_world st)) as [|k key];
    [congruence|].
  unfold Config.stale. cbn [Config.apiKey Config.apiUrl Config.client].
  rewrite !str_eqb_refl. reflexivity.
Qed.

(** X15: with no key, or with a key of white space only, [getGlobalAI]
    throws the message that names the configuration command; it builds
    no client and leaves the cache as it is, whatever the cache holds. *)
Theorem X15_key_required (st : Config.ai_state World Client) :
  (∀ v, Config.config_get (lit "apiKey") (Config.ai_world st) = Some v →
        Forall (λ c, is_space c = true) v) →
  Config.getGlobalAI st = (st, Throw Config.key_not_set).
Proof.
  intros Hblank. unfold Config.getGlobalAI, Config.resolveConfig.
  assert (Hkey : Config.setting (lit "apiKey") (Config.ai_world st) = []).
  { unfold Config.setting.
    destruct (Config.config_get (lit "apiKey") (Config.ai_world st)) as [v|] eqn:E;
      [|reflexivity].
    apply trim_spaces, Hblank. reflexivity. }
  rewrite Hkey. reflexivity.
Qed.

(** X16: a client that [getGlobalAI] returns belongs to the settings
    of the moment: either the cache held it with the trimmed key and URL
    that are set now, and nothing changes, or the cache was empty or held
    other settings, and the client comes from the constructor, called
    with that key and with that URL, or with no URL when it is empty. *)
Theorem X16_client_of_settings (st st' : Config.ai_state World Client) (c : Client) :
  Config.getGlobalAI st = (st', Ok c) →
  let key := Config.setting (lit "apiKey") (Config.ai_world st) in
  let url := Config.setting (lit "apiUrl") (Config.ai_world st) in
  (Config.cachedClient st = Some (Config.Cached c key url) ∧ st' = st)
  ∨ ((∀ c', Config.cachedClient st ≠ Some (Config.Cached c' key url))
     ∧ Config.new_OpenAI key (if decide (url = []) then None else Some url)
         (Config.ai_world st)
       = (Config.ai_world st', Ok c)).
Proof.
  intros Hget key url. revert Hget.
  unfold Config.getGlobalAI, Config.resolveConfig. fold key. fold url.
  destruct key as [|k key']; [discriminate|].
  destruct (Config.stale (Config.cachedClient st) (k :: key') url) eqn:Hstale.
  - intros Hget. right. split.
    + intros c' Hc. rewrite Hc in Hstale. unfold Config.stale in Hstale.
      cbn [Config.apiKey Config.apiUrl] in Hstale.
      rewrite !str_eqb_refl in Hstale. discriminate.
    + destruct url; cbn [decide] in *;
        destruct (Config.new_OpenAI _ _ _) as [w [c'|e]];
        injection Hget as <- <-; reflexivity.
  - unfold Config.stale in Hstale.
    destruct (Config.cachedClient st) as [[c' key2 url2]|] eqn:Hc; [|discriminate].
    cbn [Config.apiKey Config.apiUrl] in Hstale.
    apply orb_false_iff in Hstale as [Hk Hu].
    apply negb_false_iff, str_eqb_eq in Hk, Hu. subst key2 url2.
    intros [= <- <-]. left. split; reflexivity.
Qed.

End ClientCache.

Lemma X14_witness :
  Config.getGlobalAI (Config.AiState (Some (lit " k1 "))
                        (Some (Config.Cached (lit "k1") (lit "k1") [])))
  = (Config.AiState (Some (lit " k1 ")) (Some (Config.Cached (lit "k1") (lit "k1") [])),
     Ok (lit "k1")).
Proof.
  apply (X14_client_reused (Config.AiState (Some (lit "k1")) None)
           (Config.AiState (Some (lit "k1")) (Some (Config.Cached (lit "k1") (lit "k1") []))));
    reflexivity.
Defined.

Lemma X15_witness :
  Config.getGlobalAI (Config.AiState (Some (lit "  "))
                        (Some (Config.Cached (lit "k1") (lit "k1") [])))
  = (Config.AiState (Some (lit "  ")) (Some (Config.Cached (lit "k1") (lit "k1") [])),
     Throw Config.key_not_set).
Proof.
  apply (X15_key_required (S := SimEditor.sim_settings)).
  intros v [= <-]. repeat constructor.
Defined.

Lemma X16_witness :
  Config.new_OpenAI (lit "k2") None (Some (lit "k2")) = (Some (lit "k2"), Ok (lit "k2")).
Proof.
  destruct (X16_client_of_settings (S := SimEditor.sim_settings)
              (Config.AiState (Some (lit "k2")) (Some (Config.Cached (lit "k1") (lit "k1") [])))
              (Config.AiState (Some (lit "k2")) (Some (Config.Cached (lit "k2") (lit "k2") [])))
              (lit "k2") eq_refl) as [[Hc _]|[_ Hnew]].
  - discriminate Hc.
  - exact Hnew.
Defined.
(** ** The workspace scan *)

Lemma str_compare_flip (a b : jsstring) : str_compare b a = (- str_compare a b)%Z.
Proof.
  revert b. induction a as [|x a IH]; intros [|y b]; cbn [str_compare]; try reflexivity.
  destruct (N.ltb_spec x y), (N.ltb_spec y x); try lia; try reflexivity. apply IH.
Qed.

Lemma str_compare_range (a b : jsstring) : (-1 ≤ str_compare a b ≤ 1)%Z.
Proof.
  revert b. induction a as [|x a IH]; intros [|y b]; cbn [str_compare]; try lia.
  destruct (x <? y)%N; [lia|]. destruct (y <? x)%N; [lia|]. apply IH.
Qed.

Lemma str_compare_trans (a b c : jsstring) :
  (str_compare a b ≤ 0)%Z → (str_compare b c ≤ 0)%Z → (str_compare a c ≤ 0)%Z.
Proof.
  revert b c. induction a as [|x a IH]; intros [|y b] [|z c]; cbn [str_compare]; try lia.
  destruct (N.ltb_spec x y), (N.ltb_spec y x), (N.ltb_spec y z), (N.ltb_spec z y),
    (N.ltb_spec x z), (N.ltb_spec z x); try lia.
  apply IH.
Qed.

Lemma str_compare_eq (a b : jsstring) : str_compare a b = 0%Z ↔ a = b.
Proof.
  revert b. induction a as [|x a IH]; intros [|y b]; cbn [str_compare];
    try (split; [lia|discriminate]); [tauto|].
  destruct (N.ltb_spec x y), (N.ltb_spec y x); try lia;
    try (split; [lia|intros [= -> _]; lia]).
  rewrite IH. assert (x = y) by lia. subst. split; [intros ->; reflexivity|].
  intros [= ->]. reflexivity.
Qed.

Lemma sort_insert_strings (x : jsstring) (l : list jsstring) :
  StronglySorted str_le l → StronglySorted str_le (sort_insert str_compare x l).
Proof.
  induction 1 as [|y l Hs IH Hy]; cbn [sort_insert]; [repeat constructor|].
  destruct (Z.ltb_spec 0 (str_compare x y)) as [Hgt|Hle].
  - constructor; [exact IH|]. rewrite sort_insert_perm. constructor; [|exact Hy].
    unfold str_le. rewrite str_compare_flip. lia.
  - constructor; [constructor; assumption|]. constructor; [exact Hle|].
    eapply Forall_impl; [exact Hy|]. intros z Hz. unfold str_le in *.
    eapply str_compare_trans; eassumption.
Qed.

Lemma Array_sort_strings (l : list jsstring) :
  StronglySorted str_le (Array_sort str_compare l).
Proof.
  unfold Array_sort. induction l as [|x l IH]; cbn [fold_right]; [constructor|].
  apply sort_insert_strings, IH.
Qed.

Lemma set_add_member (x y : jsstring) (seen : list jsstring) :
  y ∈ set_add x seen ↔ y = x ∨ y ∈ seen.
Proof.
  split; [apply set_add_elem|]. unfold set_add.
  destruct (existsb (str_eqb x) seen) eqn:E.
  - intros [->|?]; [|assumption].
    apply existsb_exists in E as (z & Hz%list_elem_of_In & ->%str_eqb_eq). exact Hz.
  - rewrite elem_of_app, list_elem_of_singleton. tauto.
Qed.

Section Scan.

Context {World Uri Doc Client : Type}
        {H : Host World Uri Doc Client} {PL : Planner World Uri Client}.

Lemma scan_files (w : World) (files : list Uri) (dirs paths : list jsstring) :
  NoDup dirs → lit "." ∉ dirs →
  let scanned := fold_left (scan_file w) files (dirs, paths) in
  NoDup scanned.1 ∧ (lit "." ∉ scanned.1)
  ∧ scanned.2 = paths ++ map (λ u, asRelativePath u w) files
  ∧ ∀ d, d ∈ scanned.1 ↔
         d ∈ dirs ∨ (d ≠ lit "." ∧ ∃ u, u ∈ files ∧ d = dirname (asRelativePath u w)).
Proof.
  revert dirs paths. induction files as [|u files IH]; intros dirs paths Hnd Hdot scanned.
  - subst scanned. cbn. rewrite app_nil_r. repeat split; try assumption; [tauto|].
    intros [?|(_ & ? & []%elem_of_nil & _)]. assumption.
  - subst scanned. cbn [fold_left].
    set (dir := dirname (asRelativePath u w)).
    set (dirs' := if str_eqb dir (lit ".") then dirs else set_add dir dirs).
    change (scan_file w (dirs, paths) u) with (dirs', paths ++ [asRelativePath u w]).
    assert (Hnd' : NoDup dirs').
    { subst dirs'. destruct (str_eqb dir (lit ".")); [exact Hnd|].
      apply set_add_NoDup, Hnd. }
    assert (Hdot' : lit "." ∉ dirs').
    { subst dirs'. destruct (str_eqb dir (lit ".")) eqn:E; [exact Hdot|].
      intros [Heq|Hin]%set_add_member; [|contradiction].
      apply str_eqb_neq in E. congruence. }
    destruct (IH dirs' (paths ++ [asRelativePath u w]) Hnd' Hdot')
      as (H1 & H2 & H3 & H4).
    split; [exact H1|]. split; [exact H2|]. split.
    { rewrite H3, <- app_assoc. reflexivity. }
    intros d. rewrite H4. clear H1 H2 H3 H4 IH.
    assert (Hd : d ∈ dirs' ↔ d ∈ dirs ∨ (d ≠ lit "." ∧ d = dir)).
    { subst dirs'. destruct (str_eqb dir (lit ".")) eqn:E.
      - apply str_eqb_eq in E. split; [tauto|]. intros [?|[? ?]]; [assumption|congruence].
      - apply str_eqb_neq in E. rewrite set_add_member. split.
        + intros [->|?]; [right; split; [exact E|reflexivity]|left; assumption].
        + intros [?|[_ ->]]; [right; assumption|left; reflexivity]. }
    rewrite Hd. split.
    + intros [[?|[? ->]]|(? & u' & ? & ?)]; [left; assumption| |].
      * right. split; [assumption|]. exists u. split; [left|reflexivity].
      * right. split; [assumption|]. exists u'. split; [right; assumption|assumption].
    + intros [?|(Hne & u' & [->|Hin]%elem_of_cons & Heq)].
      * left. left. assumption.
      * left. right. split; assumption.
      * right. split; [assumption|]. exists u'. split; assumption.
Qed.

(** X17: [buildExistingPathsSummary] does not throw.  When the scan of
    the workspace throws, the summary is empty.  Otherwise its files are
    the relative paths of the files found, sorted by code units; its
    directories are the directory names of these paths other than [.],
    each once and sorted; and its total is the sum of the two lengths. *)
Theorem X17_workspace_summary (limit : nat) (w : World) :
  ∃ w' s,
    buildExistingPathsSummary limit w = (w', Ok s)
    ∧ ps_total s = length (ps_directories s) + length (ps_files s)
    ∧ StronglySorted str_le (ps_directories s)
    ∧ StronglySorted str_le (ps_files s)
    ∧ NoDup (ps_directories s)
    ∧ (∀ d, d ∈ ps_directories s ↔ d ≠ lit "." ∧ ∃ f, f ∈ ps_files s ∧ d = dirname f)
    ∧ match findFiles limit w with
      | (w1, Ok found) =>
          w' = w1 ∧ ps_files s ≡ₚ map (λ u, asRelativePath u w1) found
      | (w1, Throw _) => w' = w1 ∧ s = PathsSummary [] [] 0
      end.
Proof.
  unfold buildExistingPathsSummary, catch, and_then, read, pure.
  destruct (findFiles limit w) as [w1 [found|e]].
  - destruct (scan_files w1 found [] [] (NoDup_nil_2) (not_elem_of_nil _))
      as (Hnd & Hdot & Hfiles & Hdirs).
    set (scanned := fold_left (scan_file w1) found ([], [])) in *.
    eexists _, _. split; [reflexivity|]. cbn [ps_total ps_directories ps_files].
    split; [reflexivity|]. split; [apply Array_sort_strings|].
    split; [apply Array_sort_strings|].
    split; [rewrite Array_sort_perm; exact Hnd|]. split.
    + intros d. rewrite !Array_sort_perm, Hdirs.
      setoid_rewrite Array_sort_perm. rewrite Hfiles. cbn [app].
      split.
      * intros [[]%elem_of_nil|(Hne & u & Hu & ->)]. split; [exact Hne|].
        eexists. split; [|reflexivity]. apply list_elem_of_fmap. eauto.
      * intros (Hne & f & (u & -> & Hu)%list_elem_of_fmap & ->). right.
        split; [exact Hne|]. eauto.
    + split; [reflexivity|]. rewrite Array_sort_perm, Hfiles. reflexivity.
  - eexists _, _. split; [reflexivity|]. cbn [ps_total ps_directories ps_files length].
    split; [reflexivity|]. split; [constructor|]. split; [constructor|].
    split; [constructor|]. split; [|split; reflexivity].
    intros d. split; [intros []%elem_of_nil|]. intros (_ & f & []%elem_of_nil & _).
Qed.

End Scan.

(** The directory names of the small editor, and the summary of a
    workspace of three files. *)
Example sim_dirname_values :
  sim_dirname (lit "src/b.js") = lit "src"
  ∧ sim_dirname (lit "src/lib/c.js") = lit "src/lib"
  ∧ sim_dirname (lit "a/b/c/d.txt") = lit "a/b/c"
  ∧ sim_dirname (lit "README.md") = lit ".".
Proof. vm_compute. repeat split; reflexivity. Qed.

Example summary_of_small_workspace :
  buildExistingPathsSummary 100
    (SimWorld [lit "src/b.js"; lit "README.md"; lit "src/lib/c.js"; lit "src/a.js"]
       [] [] [] [] [] [])
  = (SimWorld [lit "src/b.js"; lit "README.md"; lit "src/lib/c.js"; lit "src/a.js"]
       [] [] [] [] [] [],
     Ok (PathsSummary [lit "src"; lit "src/lib"]
           [lit "README.md"; lit "src/a.js"; lit "src/b.js"; lit "src/lib/c.js"] 6)).
Proof. vm_compute. reflexivity. Qed.
(** ** The plan request *)

Lemma parse_fallback_text :
  parseJSONResponse (Response (Some fallback_text) None) = Ok fallbackResponse.
Proof. vm_compute. reflexivity. Qed.

Lemma parseJSONResponse_throws (r : response) (e : jsstring) :
  parseJSONResponse r = Throw e → e = lit "Invalid JSON response: " ++ response_text r.
Proof.
  unfold parseJSONResponse, invalid_json_message.
  repeat match goal with
         | |- context [match ?x with _ => _ end] => destruct x
         end; intros [= <-]; reflexivity.
Qed.

Lemma fallback_text_not_empty : fallback_text ≠ [].
Proof. discriminate. Qed.

Section PlanRequest.

Context {World Uri Doc Client : Type}
        {H : Host World Uri Doc Client} {PL : Planner World Uri Client}.

Lemma callAIAPI_cases (model systemPrompt userPrompt : jsstring) (w : World) :
  ∃ w' text,
    callAIAPI model systemPrompt userPrompt w = (w', Ok (Response (Some text) None))
    ∧ text ≠ []
    ∧ ((¬ api_fails model systemPrompt userPrompt w
        ∧ ∃ w1 client w2,
            getGlobalAI w = (w1, Ok client)
            ∧ create_json client model systemPrompt userPrompt w1 = (w2, Ok (Some text))
            ∧ w' = console_log (Some text) w2)
       ∨ (api_fails model systemPrompt userPrompt w ∧ text = fallback_text)).
Proof.
  unfold callAIAPI, api_fails, catch, and_then, total, pure, throw.
  destruct (getGlobalAI w) as [w1 [client|e]] eqn:Hc.
  - destruct (create_json client model systemPrompt userPrompt w1)
      as [w2 [[[|c text]|]|e]] eqn:Hj.
    + eexists _, _. split; [reflexivity|]. split; [apply fallback_text_not_empty|].
      right. split; [exact I|reflexivity].
    + eexists _, _. split; [reflexivity|]. split; [discriminate|]. left.
      split; [tauto|]. exists w1, client, w2. split; [reflexivity|].
      split; [exact Hj|reflexivity].
    + eexists _, _. split; [reflexivity|]. split; [apply fallback_text_not_empty|].
      right. split; [exact I|reflexivity].
    + eexists _, _. split; [reflexivity|]. split; [apply fallback_text_not_empty|].
      right. split; [exact I|reflexivity].
  - eexists _, _. split; [reflexivity|]. split; [apply fallback_text_not_empty|].
    right. split; [exact I|reflexivity].
Qed.

(** X18: [callAIAPI] does not throw and its response always has a text
    that is not empty: the content of the model when there is a client,
    the request returns and the content is not empty, and the text of the
    built-in plan in every other case. *)
Theorem X18_call_never_throws (model systemPrompt userPrompt : jsstring) (w : World) :
  ∃ w' text,
    callAIAPI model systemPrompt userPrompt w = (w', Ok (Response (Some text) None))
    ∧ text ≠ []
    ∧ ((¬ api_fails model systemPrompt userPrompt w
        ∧ ∃ w1 client w2,
            getGlobalAI w = (w1, Ok client)
            ∧ create_json client model systemPrompt userPrompt w1 = (w2, Ok (Some text))
            ∧ w' = console_log (Some text) w2)
       ∨ (api_fails model systemPrompt userPrompt w ∧ text = fallback_text)).
Proof. apply callAIAPI_cases. Qed.

(** X19: when the request fails, for want of a client, by an exception
    or by an empty content, [requestPathPlan] returns the built-in plan
    and no error reaches the caller; the files of that plan are its nine
    file paths, on either host. *)
Theorem X19_plan_on_failure (model instructions : jsstring)
    (existingPathsSummary : paths_summary) (options : option plan_options) (w : World) :
  api_fails model (planSystemPromptOf existingPathsSummary (typeRule options))
    (planUserPromptOf instructions (typeRule options)) w →
  (∃ w', requestPathPlan model instructions existingPathsSummary options w
         = (w', Ok fallbackResponse))
  ∧ map path (extractFileItemsFromPlan posix fallbackResponse) = map lit fallback_files
  ∧ map path (extractFileItemsFromPlan win32 fallbackResponse) = map lit fallback_files.
Proof.
  intros Hfail. split; [|split; vm_compute; reflexivity].
  unfold requestPathPlan, catch, and_then, of_result.
  destruct (callAIAPI_cases model
              (planSystemPromptOf existingPathsSummary (typeRule options))
              (planUserPromptOf instructions (typeRule options)) w)
    as (w' & text & -> & _ & [[Hok _]|[_ ->]]); [contradiction|].
  rewrite parse_fallback_text. eauto.
Qed.

(** X20: an error of [requestPathPlan] is always the one of a content
    that holds no JSON value: its message is [AI API Error: Invalid JSON
    response: ] followed by the content of the model, the request itself
    did not fail, and the world is as the request and the log of the
    content left it. *)
Theorem X20_plan_error (model instructions : jsstring)
    (existingPathsSummary : paths_summary) (options : option plan_options)
    (w w' : World) (e : jsstring) :
  requestPathPlan model instructions existingPathsSummary options w = (w', Throw e) →
  let systemPrompt := planSystemPromptOf existingPathsSummary (typeRule options) in
  let userPrompt := planUserPromptOf instructions (typeRule options) in
  ∃ w1 client w2 text,
    getGlobalAI w = (w1, Ok client)
    ∧ create_json client model systemPrompt userPrompt w1 = (w2, Ok (Some text))
    ∧ w' = console_log (Some text) w2
    ∧ e = lit "AI API Error: Invalid JSON response: " ++ text
    ∧ parseJSONResponse (Response (Some text) None) = Throw (lit "Invalid JSON response: " ++ text).
Proof.
  intros Hthrow systemPrompt userPrompt. revert Hthrow.
  unfold requestPathPlan, catch, and_then, of_result, throw.
  fold systemPrompt. fold userPrompt.
  destruct (callAIAPI_cases model systemPrompt userPrompt w)
    as (w1 & text & -> & Hne & [(_ & w0 & client & w2 & Hc & Hj & ->)|[_ ->]]).
  - destruct (parseJSONResponse (Response (Some text) None)) as [plan|e'] eqn:Hp;
      [discriminate|].
    intros [= <- <-]. pose proof (parseJSONResponse_throws _ _ Hp) as Hmsg.
    assert (Htext : response_text (Response (Some text) None) = text).
    { unfold response_text. cbn [output_text content default from_option id].
      destruct text; [congruence|reflexivity]. }
    rewrite Htext in Hmsg. subst e'.
    exists w0, client, w2, text.
    split; [exact Hc|]. split; [exact Hj|]. split; [reflexivity|].
    split; [reflexivity|exact Hp].
  - rewrite parse_fallback_text. discriminate.
Qed.

(** ** The scaffolding *)






End PlanRequest.

Lemma X19_witness :
  ∃ w', requestPathPlan (lit "gpt-4.1-mini") (lit "a blog") (PathsSummary [] [] 0) None
          (SimWorld [] [] [] [] [] [lit "a blog"] [])
        = (w', Ok fallbackResponse).
Proof.
  refine (proj1 (X19_plan_on_failure (lit "gpt-4.1-mini") (lit "a blog")
                   (PathsSummary [] [] 0) None (SimWorld [] [] [] [] [] [lit "a blog"] []) _)).
  exact I.
Defined.

Lemma X20_witness :
  ∃ w1 client w2 text,
    getGlobalAI empty_world = (w1, Ok client)
    ∧ create_json client (lit "gpt-4.1-mini") [] (lit "not json") w1 = (w2, Ok (Some text))
    ∧ empty_world = console_log (Some text) w2
    ∧ lit "AI API Error: Invalid JSON response: not json"
      = lit "AI API Error: Invalid JSON response: " ++ text
    ∧ parseJSONResponse (Response (Some text) None)
      = Throw (lit "Invalid JSON response: " ++ text).
Proof.
  refine (X20_plan_error (H := sim_host) (PL := sim_planner)
            (lit "gpt-4.1-mini") (lit "not json") (PathsSummary [] [] 0) None
            empty_world empty_world (lit "AI API Error: Invalid JSON response: not json") _).
  vm_compute. reflexivity.
Defined.

(** A run on the small editor: a directory, a file in a folder that cannot
    be created and a second directory; the one failure is the file. *)
Example scaffold_on_small_editor :
  createPathArtifacts (lit "ws")
    [Item (lit "src") directory None; Item (lit "docs/a.md") file (Some []);
     Item (lit "lib") directory None]
    (SimWorld [] [] [lit "ws/docs/a.md/.."] [] [] [] [])
  = (SimWorld [] [] [lit "ws/docs/a.md/.."] [] [] [] [],
     Ok [Failure (lit "docs/a.md") (lit "EACCES")]).
Proof. vm_compute. reflexivity. Qed.
(** ** The paths of a run *)

Lemma validate_path_accepts (P : path_module) (input : jsstring) :
  validate_path P input = None
  ↔ trim input ≠ [] ∧ ∃ p, normalizeSegments P (trim input) = Ok p.
Proof.
  unfold validate_path. destruct (trim input) as [|c t] eqn:Ht.
  - split; [discriminate|]. intros [? _]. congruence.
  - destruct (normalizeSegments P (c :: t)) as [p|e].
    + split; [|reflexivity]. intros _. split; [discriminate|]. eauto.
    + split; [discriminate|]. intros [_ [p [=]]].
Qed.

Lemma join_empty (sep : jsstring) (l : list jsstring) :
  Forall (λ p, p ≠ []) l → join sep l = [] → l = [].
Proof.
  intros Hl. destruct Hl as [|p l Hp Hl]; [reflexivity|].
  destruct l as [|q l]; cbn [join]; [congruence|].
  destruct p; [congruence|discriminate].
Qed.

Lemma filter_none {A} (Q : A → Prop) `{∀ x, Decision (Q x)} (l : list A) :
  filter Q l = [] ↔ Forall (λ x, ¬ Q x) l.
Proof.
  induction l as [|x l IH].
  - split; [constructor|reflexivity].
  - destruct (decide (Q x)) as [Hx|Hx].
    + rewrite filter_cons_True by exact Hx. split; [discriminate|].
      intros Hall. inversion Hall; contradiction.
    + rewrite filter_cons_False by exact Hx. rewrite IH. split.
      * intros Hall. constructor; assumption.
      * intros Hall. inversion Hall; assumption.
Qed.

(** The normalized path is empty exactly when nothing but empty segments
    and [.] segments goes in. *)
Lemma rejoined_empty (s : jsstring) :
  rejoined s = [] ↔ Forall (λ seg, seg = [] ∨ seg = lit ".") (segments s).
Proof.
  unfold rejoined. split.
  - intros Hj. apply join_empty in Hj.
    + apply filter_none in Hj. eapply Forall_impl; [exact Hj|]. intros seg Hseg.
      destruct (decide (seg = [])) as [|Hne]; [left; assumption|].
      destruct (decide (seg = lit ".")) as [|Hnd]; [right; assumption|].
      exfalso. apply Hseg. split; assumption.
    + apply Forall_forall. intros seg [[Hne _] _]%list_elem_of_filter. exact Hne.
  - intros Hall.
    assert (Hnone : filter (λ seg, seg ≠ [] ∧ seg ≠ lit ".") (segments s) = []).
    { apply filter_none. eapply Forall_impl; [exact Hall|].
      intros seg [->| ->] [? ?]; congruence. }
    rewrite Hnone. reflexivity.
Qed.

(** The answer of a full stop between two spaces goes through the
    validation and gives the empty path, on every host on which the path
    [.] is not absolute. *)
Lemma dot_answer (P : path_module) :
  isAbsolute P (lit ".") = false →
  validate_path P (lit " . ") = None ∧ normalizeSegments P (trim (lit " . ")) = Ok [].
Proof.
  intros Habs.
  assert (Hn : normalizeSegments P (lit ".") = Ok []).
  { unfold normalizeSegments. rewrite Habs. vm_compute. reflexivity. }
  assert (Ht : trim (lit " . ") = [46%N]) by (vm_compute; reflexivity).
  assert (Hn' : normalizeSegments P [46%N] = Ok []) by exact Hn.
  unfold validate_path. rewrite Ht. cbv beta iota. rewrite Hn'. split; reflexivity.
Qed.

Section PathPrompt.

Context {World Uri Doc Client : Type}
        {H : Host World Uri Doc Client} {PL : Planner World Uri Client}
        {U : Ui World Uri}.

Lemma promptForPathAdjustment_cases (P : path_module) (initialPath templateName : jsstring)
    (w : World) :
  ∃ w' r,
    promptForPathAdjustment P initialPath templateName w = (w', Ok r)
    ∧ (∀ sel, r = Some sel →
         ∃ v, showInputBox_path templateName initialPath (validate_path P) w
              = (w', Ok (Some v))
              ∧ normalizeSegments P (trim v) = Ok (sel_path sel))
    ∧ (∀ w1 v, showInputBox_path templateName initialPath (validate_path P) w
               = (w1, Ok (Some v)) →
               validate_path P v = None →
               w' = w1 ∧ ∃ p, r = Some (Selection p))
    ∧ (∀ w1, showInputBox_path templateName initialPath (validate_path P) w
             = (w1, Ok None) →
             w' = w1 ∧ r = None).
Proof.
  unfold promptForPathAdjustment, catch, and_then, of_result, total, pure.
  destruct (showInputBox_path templateName initialPath (validate_path P) w)
    as [w1 [[v|]|e]] eqn:Hbox.
  - destruct (normalizeSegments P (trim v)) as [p|e] eqn:Hn.
    + exists w1, (Some (Selection p)). split; [reflexivity|]. split; [|split].
      * intros sel [= <-]. exists v. split; [reflexivity|exact Hn].
      * intros w2 v2 [= <- <-] _. split; [reflexivity|]. eauto.
      * intros w2 [=].
    + eexists _, None. split; [reflexivity|]. split; [|split].
      * intros sel [=].
      * intros w2 v2 [= <- <-] (_ & p & Hp)%validate_path_accepts. congruence.
      * intros w2 [=].
  - exists w1, None. split; [reflexivity|]. split; [|split].
    + intros sel [=].
    + intros w2 v2 [=].
    + intros w2 [= <-]. split; reflexivity.
  - eexists _, None. split; [reflexivity|]. split; [|split].
    + intros sel [=].
    + intros w2 v2 [=].
    + intros w2 [=].
Qed.

(** X22: [promptForPathAdjustment] does not throw.  A path it returns is
    what [normalizeSegments] makes of the trimmed value of the input box:
    the segments of that value that are neither empty nor [.], joined by
    [/].  It holds no backslash, does not start or end with [/] and has
    no segment [.] or [..].  It can be the empty path: that is so exactly
    when every segment of the trimmed value is empty or [.], as for the
    answer of a full stop between two spaces, which the validation of
    the box accepts on a host for which [.] is not absolute; a path that
    is not empty has no empty segment.  A value that the validation
    accepts is never turned down afterwards, and a box that is dismissed
    gives no path and no message. *)
Theorem X22_adjusted_path (P : path_module) (initialPath templateName : jsstring)
    (w : World) :
  ∃ w' r,
    promptForPathAdjustment P initialPath templateName w = (w', Ok r)
    ∧ (∀ sel, r = Some sel →
         ∃ v, showInputBox_path templateName initialPath (validate_path P) w
              = (w', Ok (Some v))
              ∧ normalizeSegments P (trim v) = Ok (sel_path sel)
              ∧ sel_path sel = rejoined (trim v)
              ∧ Forall (λ c, c ≠ ch "\") (sel_path sel)
              ∧ head (sel_path sel) ≠ Some (ch "/")
              ∧ last (sel_path sel) ≠ Some (ch "/")
              ∧ Forall (λ seg, seg ≠ lit "." ∧ seg ≠ lit "..") (segments (sel_path sel))
              ∧ (sel_path sel = []
                 ↔ Forall (λ seg, seg = [] ∨ seg = lit ".") (segments (trim v)))
              ∧ (sel_path sel ≠ [] →
                 Forall (λ seg, seg ≠ []) (segments (sel_path sel))))
    ∧ (∀ w1 v, showInputBox_path templateName initialPath (validate_path P) w
               = (w1, Ok (Some v)) →
               validate_path P v = None →
               w' = w1 ∧ ∃ p, r = Some (Selection p))
    ∧ (∀ w1, showInputBox_path templateName initialPath (validate_path P) w
             = (w1, Ok None) →
             w' = w1 ∧ r = None)
    ∧ (isAbsolute P (lit ".") = false →
       validate_path P (lit " . ") = None
       ∧ normalizeSegments P (trim (lit " . ")) = Ok []).
Proof.
  destruct (promptForPathAdjustment_cases P initialPath templateName w)
    as (w' & r & Hrun & Hsel & Hok & Hnone).
  exists w', r. split; [exact Hrun|]. split; [|split; [assumption|split; [assumption|]]].
  - intros sel Hr. destruct (Hsel sel Hr) as (v & Hbox & Hn). exists v.
    split; [exact Hbox|]. split; [exact Hn|].
    pose proof (normalized_shape _ _ _ Hn) as (Hrj & H1 & H2 & H3 & H4).
    split; [exact Hrj|]. split; [exact H1|]. split; [exact H2|]. split; [exact H3|].
    split; [|split].
    + destruct (sel_path sel) as [|c p] eqn:Hp.
      * repeat constructor; discriminate.
      * destruct H4 as [_ H4]; [discriminate|].
        eapply Forall_impl; [exact H4|]. intros seg (_ & ? & ?). auto.
    + rewrite Hrj. apply rejoined_empty.
    + intros Hne. destruct (H4 Hne) as [_ H5].
      eapply Forall_impl; [exact H5|]. intros seg (? & _). assumption.
  - apply dot_answer.
Qed.

End PathPrompt.

(** ** The paths picked, each once *)

#[local] Abbreviation keyed xs := (map (λ s : selection, (sel_path s, s)) xs).

Lemma selection_eq (a b : selection) : sel_path a = sel_path b → a = b.
Proof. destruct a, b. cbn. congruence. Qed.

Lemma Map_set_keyed (s : selection) (xs : list selection) :
  (s ∈ xs ∧ Map_set (sel_path s) s (keyed xs) = keyed xs)
  ∨ ((s ∉ xs) ∧ Map_set (sel_path s) s (keyed xs) = keyed (xs ++ [s])).
Proof.
  induction xs as [|x xs IH]; cbn [map Map_set app].
  - right. split; [apply not_elem_of_nil|reflexivity].
  - destruct (str_eqb (sel_path x) (sel_path s)) eqn:E.
    + apply str_eqb_eq, selection_eq in E. subst x. left. split; [left|reflexivity].
    + apply str_eqb_neq in E. destruct IH as [[Hin ->]|[Hout ->]].
      * left. split; [right; exact Hin|reflexivity].
      * right. split; [|reflexivity].
        intros [->|?]%elem_of_cons; [congruence|contradiction].
Qed.

Lemma dedupe_fold (l xs : list selection) :
  NoDup xs →
  ∃ new,
    fold_left (λ m it, Map_set (sel_path it) it m) l (keyed xs) = keyed (xs ++ new)
    ∧ new `sublist_of` l
    ∧ NoDup (xs ++ new)
    ∧ (∀ s, s ∈ l → s ∈ xs ++ new)
    ∧ (NoDup (xs ++ l) → new = l).
Proof.
  revert xs. induction l as [|s l IH]; intros xs Hnd.
  - exists []. cbn [fold_left]. rewrite app_nil_r. repeat split; auto.
    intros s []%elem_of_nil.
  - cbn [fold_left]. destruct (Map_set_keyed s xs) as [[Hin ->]|[Hout ->]].
    + destruct (IH xs Hnd) as (new & -> & Hsub & Hnd' & Hall & Hsame).
      exists new. split; [reflexivity|]. split; [apply sublist_cons, Hsub|].
      split; [exact Hnd'|]. split.
      * intros s' [->|?]%elem_of_cons; [apply elem_of_app; left; exact Hin|apply Hall].
        assumption.
      * intros Hd. apply NoDup_app in Hd as (_ & Hd & _). exfalso.
        apply (Hd s Hin). left.
    + assert (Hnd1 : NoDup (xs ++ [s])).
      { apply NoDup_app. split; [exact Hnd|]. split; [|apply NoDup_singleton].
        intros x Hx ->%list_elem_of_singleton. contradiction. }
      destruct (IH (xs ++ [s]) Hnd1) as (new & -> & Hsub & Hnd' & Hall & Hsame).
      exists (s :: new). rewrite <- app_assoc in *. cbn [app] in *.
      split; [reflexivity|]. split; [apply sublist_skip, Hsub|].
      split; [exact Hnd'|]. split.
      * intros s' [->|?]%elem_of_cons; [|apply Hall; assumption].
        apply elem_of_app. right. left.
      * intros Hd. f_equal. apply Hsame, Hd.
Qed.

Lemma map_snd_keyed (xs : list selection) : map snd (keyed xs) = xs.
Proof. rewrite map_map. apply map_id. Qed.

Lemma NoDup_paths (xs : list selection) : NoDup (map sel_path xs) ↔ NoDup xs.
Proof.
  split; [apply NoDup_fmap_1|]. intros Hnd.
  apply (NoDup_fmap_2_strong sel_path); [|exact Hnd].
  intros a b _ _. apply selection_eq.
Qed.

Lemma dedupe_spec (l : list selection) :
  NoDup (map sel_path (dedupe l))
  ∧ dedupe l `sublist_of` l
  ∧ (∀ s, s ∈ dedupe l ↔ s ∈ l)
  ∧ (NoDup (map sel_path l) → dedupe l = l).
Proof.
  unfold dedupe. destruct (dedupe_fold l [] (NoDup_nil_2)) as (new & Hf & Hsub & Hnd & Hall & Hsame).
  change (@nil (jsstring * selection)) with (keyed []). rewrite Hf, map_snd_keyed.
  cbn [app] in *. split; [apply NoDup_paths, Hnd|]. split; [exact Hsub|]. split.
  - intros s. split; [|apply Hall]. intros Hin.
    eapply elem_of_sublist; eassumption.
  - intros Hd%NoDup_paths. apply Hsame, Hd.
Qed.

Lemma dedupe_fold_first (l xs : list selection) :
  fold_left (λ m it, Map_set (sel_path it) it m) l (keyed xs)
  = keyed (xs ++ filter (λ x, sel_path x ∉ map sel_path xs) (dedupe l)).
Proof.
  revert xs. induction l as [|s l IH]; intros xs.
  - cbn. rewrite app_nil_r. reflexivity.
  - assert (Hhead : dedupe (s :: l)
                    = s :: filter (λ x, sel_path x ∉ map sel_path [s]) (dedupe l)).
    { unfold dedupe at 1. cbn [fold_left Map_set].
      change [(sel_path s, s)] with (keyed [s]). rewrite IH, map_snd_keyed. reflexivity. }
    cbn [fold_left]. destruct (Map_set_keyed s xs) as [[Hin ->]|[Hout ->]];
      rewrite IH, Hhead; f_equal.
    + f_equal. rewrite filter_cons_False
        by (intros Hn; apply Hn, list_elem_of_fmap; eauto).
      rewrite list_filter_filter. apply list_filter_iff. intros x. split; [|tauto].
      intros Hx. split; [exact Hx|]. cbn [map]. intros Heq%list_elem_of_singleton.
      apply Hx, list_elem_of_fmap. eauto.
    + rewrite <- app_assoc. f_equal. cbn [app].
      rewrite filter_cons_True.
      2:{ intros (x & Hp & Hx)%list_elem_of_fmap.
          apply selection_eq in Hp. subst x. contradiction. }
      f_equal. rewrite list_filter_filter. apply list_filter_iff. intros x.
      rewrite map_app, not_elem_of_app. cbn [map]. tauto.
Qed.

Lemma dedupe_cons (s : selection) (l : list selection) :
  dedupe (s :: l) = s :: filter (λ x, sel_path x ≠ sel_path s) (dedupe l).
Proof.
  unfold dedupe at 1. cbn [fold_left Map_set].
  change [(sel_path s, s)] with (keyed [s]).
  rewrite dedupe_fold_first, map_snd_keyed. cbn [app]. f_equal.
  apply list_filter_iff. intros x. cbn [map]. rewrite list_elem_of_singleton. tauto.
Qed.

(** X23: the paths that [runPromptExecution] keeps after the path prompts
    are those the prompts returned, each once, in the order in which each
    came first: the first one, then the others that differ from it, in the
    same way; a list without a repeated path is kept as it is. *)
Theorem X23_paths_once (editedSelections : list selection) :
  NoDup (map sel_path (dedupe editedSelections))
  ∧ dedupe editedSelections `sublist_of` editedSelections
  ∧ (∀ s, s ∈ dedupe editedSelections ↔ s ∈ editedSelections)
  ∧ (NoDup (map sel_path editedSelections) → dedupe editedSelections = editedSelections)
  ∧ match editedSelections with
    | [] => dedupe editedSelections = []
    | s :: l => dedupe editedSelections
                = s :: filter (λ x, sel_path x ≠ sel_path s) (dedupe l)
    end.
Proof.
  destruct (dedupe_spec editedSelections) as (H1 & H2 & H3 & H4).
  repeat (split; [assumption|]).
  destruct editedSelections; [reflexivity|apply dedupe_cons].
Qed.

(** On both hosts the answer of a full stop between two spaces is
    accepted and gives the empty path. *)
Example dot_answer_hosts :
  validate_path posix (lit " . ") = None
  ∧ normalizeSegments posix (trim (lit " . ")) = Ok []
  ∧ validate_path win32 (lit " . ") = None
  ∧ normalizeSegments win32 (trim (lit " . ")) = Ok [].
Proof. vm_compute. repeat split; reflexivity. Qed.
(** ** The run of a template *)

Section RunPaths.

Context {World Uri Doc Client : Type}
        {H : Host World Uri Doc Client} {PL : Planner World Uri Client}
        {U : Ui World Uri}.

Lemma adjust_loop_paths (P : path_module) (templateName : jsstring)
    (selected : list jsstring) (acc : list selection) (w : World) :
  ∃ w' r,
    adjust_loop P templateName selected acc w = (w', Ok r)
    ∧ ∀ edited, r = Some edited →
        ∃ new, edited = acc ++ new
               ∧ length new = length selected
               ∧ Forall (λ s, ∃ v, normalizeSegments P (trim v) = Ok (sel_path s)) new.
Proof.
  revert acc w. induction selected as [|chosen rest IH]; intros acc w.
  - exists w, (Some acc). split; [reflexivity|]. intros edited [= <-].
    exists []. rewrite app_nil_r. repeat split. constructor.
  - cbn [adjust_loop]. unfold and_then at 1.
    destruct (promptForPathAdjustment_cases P chosen templateName w)
      as (w1 & r & -> & Hsel & _).
    destruct r as [u|].
    + destruct (IH (acc ++ [u]) w1) as (w' & r' & -> & Hr).
      exists w', r'. split; [reflexivity|]. intros edited Hed.
      destruct (Hr edited Hed) as (new & -> & Hlen & Hall).
      exists (u :: new). rewrite <- app_assoc. split; [reflexivity|].
      split; [cbn; lia|]. constructor; [|exact Hall].
      destruct (Hsel u eq_refl) as (v & _ & Hv). eauto.
    + exists w1, None. split; [reflexivity|]. intros edited [=].
Qed.

(** X24: when [runPromptExecution] reaches the generation loop, the
    paths it hands over are not empty as a list, hold no path twice and
    are each what [normalizeSegments] returned for a trimmed answer of a
    path prompt; the workspace is the first folder that is open and the
    model is not the empty string. *)
Theorem X24_run_paths (P : path_module) (finalPrompt templateName : jsstring)
    (w w1 : World) (g : generation) :
  prepare_generation P finalPrompt templateName w = (w1, Ok (Some g)) →
  g_paths g ≠ []
  ∧ NoDup (g_paths g)
  ∧ Forall (λ p, ∃ v, normalizeSegments P (trim v) = Ok p) (g_paths g)
  ∧ (∃ rest, workspaceFolders w = Some (g_workspace g :: rest))
  ∧ g_model g ≠ []
  ∧ runPromptExecution P finalPrompt templateName w
    = (let '(st, r) :=
         generateFilesFromPrompt (g_workspace g) (g_model g) finalPrompt (g_paths g)
           (g_overwriteAll g) (as_summary (g_summary g)) w1 in
       (world st, r)).
Proof.
  intros Hprep. unfold runPromptExecution, and_then at 1. rewrite Hprep.
  revert Hprep. unfold prepare_generation.
  unfold and_then at 1. unfold read at 1.
  destruct (workspaceFolders w) as [[|workspaceFolder rest]|];
    try (unfold and_then, total, pure; discriminate).
  unfold and_then at 1.
  destruct (buildExistingPathsSummary 100 w) as [wa [existingSummary|e]];
    [|discriminate].
  unfold and_then at 1. unfold total at 1.
  unfold and_then at 1. unfold read at 1.
  unfold and_then at 1.
  destruct (requestPathPlan _ _ _ _ _) as [wb [planPayload|e]]; [|discriminate].
  unfold and_then at 1. unfold total at 1.
  destruct (extractFileItemsFromPlan P planPayload) as [|it generated];
    [unfold and_then, total, pure; discriminate|].
  unfold and_then at 1.
  destruct (pickFiles _ _) as [wc [[[|chosen selected]|]|e]];
    try (unfold and_then, total, pure; discriminate).
  unfold and_then at 1.
  destruct (adjust_loop_paths P templateName (chosen :: selected) [] wc)
    as (wd & r & -> & Hr).
  destruct r as [editedSelections|]; [|discriminate].
  destruct (Hr _ eq_refl) as (new & Hnew & Hlen & Hall). cbn [app] in Hnew. subst new.
  unfold and_then at 1.
  destruct (pickOverwrite wd) as [we [[overwriteAll|]|e]]; try discriminate.
  unfold and_then, read, pure. intros [= <- <-].
  cbn [g_paths g_workspace g_model g_overwriteAll g_summary].
  destruct (dedupe_spec editedSelections) as (Hnd & Hsub & Helem & _).
  split; [|split; [exact Hnd|split; [|split; [eauto|split]]]].
  - destruct editedSelections as [|s l]; [discriminate Hlen|].
    assert (Hin : s ∈ dedupe (s :: l)) by (apply Helem; left).
    intros E. apply (f_equal length) in E. rewrite length_map in E.
    destruct (dedupe (s :: l)); [apply elem_of_nil in Hin; exact Hin|discriminate E].
  - apply Forall_forall. intros p (s & -> & Hs)%list_elem_of_fmap.
    apply Helem in Hs. rewrite Forall_forall in Hall. apply Hall, Hs.
  - unfold str_or. destruct (default [] (config_model we)); discriminate.
  - reflexivity.
Qed.

End RunPaths.

Lemma X24_witness :
  NoDup [lit "src/app.js"; lit "docs/readme.md"].
Proof.
  refine (proj1 (proj2 (X24_run_paths (H := sim_host) (PL := sim_planner) (U := sim_ui)
                          posix sim_plan (lit "t") empty_world empty_world
                          (Generation (lit "ws") (lit "gpt-4.1-mini")
                             [lit "src/app.js"; lit "docs/readme.md"] false
                             (PathsSummary [] [] 0)) _))).
  vm_compute. reflexivity.
Defined.
(** ** The form round *)

Section FormRound.

Context {World Uri Doc Client : Type}
        {H : Host World Uri Doc Client} {PL : Planner World Uri Client}
        {U : Ui World Uri}.

(** X25: [collectPromptValues] is defined on every template, both scans
    coming to an end.  A template in which the scanners find no token is
    returned as it is and no form is opened.  Otherwise the form is
    opened once: an exception of the form is the exception of the
    function and a form that is closed gives [undefined].  From the
    result of the form one selection is made for each token of the
    scanner, in the order of the scanner: the picks of that rank joined
    by a comma and a space, or else the default of the token of that
    rank, or else the empty string.  The Choice Filler then goes through
    the template and gives the selection of rank [i] to its match of rank
    [i], in the order of the template, which is not the order of the
    scanner when the text of a token comes twice; the Simple Filler comes
    last.  When no selection and no value holds an opening brace and
    every [{{] sequence of the template starts in a token of a filler,
    the prompt returned holds no [{{] sequence and no token. *)
Theorem X25_collected_prompt (templateContent : jsstring) :
  ∃ tokens names run,
    parseChoicePlaceholders templateContent = Some tokens
    ∧ parsePlaceholders (fillChoicePlaceholders templateContent (map (λ _, []) tokens))
      = Some names
    ∧ collectPromptValues templateContent = Some run
    ∧ ∀ w,
        (tokens = [] → names = [] → run w = (w, Ok (Some templateContent)))
        ∧ (tokens ≠ [] ∨ names ≠ [] →
           match openPromptForm names tokens templateContent w with
           | (w', Throw e) => run w = (w', Throw e)
           | (w', Ok None) => run w = (w', Ok None)
           | (w', Ok (Some fr)) =>
               ∃ selections,
                 length selections = length tokens
                 ∧ (∀ i t, tokens !! i = Some t →
                      selections !! i
                      = Some (match default [] (choiceSelections fr !! i) with
                              | [] => default [] (default_ t)
                              | picks => join (lit ", ") picks
                              end))
                 ∧ run w
                   = (w', Ok (Some (fillPlaceholders
                                      (splice templateContent 0
                                         (choice_matches templateContent) selections)
                                      (simpleValues fr))))
                 ∧ (Forall brace_free selections →
                    (∀ k v, simpleValues fr !! k = Some v → brace_free v) →
                    doubles_covered templateContent
                      (choice_matches templateContent ++ simple_matches templateContent) →
                    ∀ prompt, run w = (w', Ok (Some prompt)) →
                              no_double prompt ∧ no_token prompt)
           end).
Proof.
  destruct (parseChoicePlaceholders_total templateContent) as [tokens Htok].
  destruct (parsePlaceholders_total
              (fillChoicePlaceholders templateContent (map (λ _, []) tokens)))
    as [names Hnames].
  eexists tokens, names, _.
  split; [exact Htok|]. split; [exact Hnames|]. split.
  { unfold collectPromptValues. rewrite Htok. cbn [mbind option_bind]. rewrite Hnames.
    cbn [mbind option_bind]. reflexivity. }
  intros w. split.
  - intros -> ->. reflexivity.
  - intros Hsome.
    assert (Hform :
      (match tokens, names with
       | [], [] => pure (Some templateContent)
       | _, _ =>
           and_then (openPromptForm names tokens templateContent)
             (λ formResult,
                match formResult with
                | None => pure None
                | Some fr =>
                    pure (Some (fillPlaceholders
                                  (fillChoicePlaceholders templateContent
                                     (imap (choice_selection fr) tokens))
                                  (simpleValues fr)))
                end)
       end) w
      = and_then (openPromptForm names tokens templateContent)
          (λ formResult,
             match formResult with
             | None => pure None
             | Some fr =>
                 pure (Some (fillPlaceholders
                               (fillChoicePlaceholders templateContent
                                  (imap (choice_selection fr) tokens))
                               (simpleValues fr)))
             end) w).
    { destruct tokens, names; try reflexivity. destruct Hsome; congruence. }
    rewrite Hform. clear Hform. unfold and_then, pure.
    destruct (openPromptForm names tokens templateContent w) as [w' [[fr|]|e]];
      try reflexivity.
    exists (imap (choice_selection fr) tokens).
    assert (Hsel : imap (choice_selection fr) tokens ≠ []
                   ∨ choice_matches templateContent = []).
    { destruct tokens as [|t tokens'].
      - right. apply scanner_empty_no_choice_match, Htok.
      - left. discriminate. }
    assert (Hsplice : fillChoicePlaceholders templateContent
                        (imap (choice_selection fr) tokens)
                      = splice templateContent 0 (choice_matches templateContent)
                          (imap (choice_selection fr) tokens)).
    { destruct (decide (imap (choice_selection fr) tokens = [])) as [Hnil|Hne];
        [|apply fillChoicePlaceholders_splice, Hne].
      destruct Hsel as [|Hnone]; [contradiction|]. rewrite Hnil, Hnone. cbn.
      rewrite drop_0. reflexivity. }
    split; [apply length_imap|]. split; [|split].
    + intros i t Hi. rewrite list_lookup_imap, Hi. cbn [fmap option_fmap option_map].
      unfold choice_selection, str_or. f_equal.
      destruct (default [] (choiceSelections fr !! i)) as [|p picks]; [|reflexivity].
      destruct (default [] (default_ t)); reflexivity.
    + rewrite Hsplice. reflexivity.
    + intros Hfree Hvals Hcov prompt [= <-].
      apply (resolve_no_double templateContent (imap (choice_selection fr) tokens)
               (simpleValues fr)); assumption.
Qed.

End FormRound.

(** The two orders: the scanner puts the two tokens of the same text side
    by side, the filler meets the other one between them, and without
    picks the middle token gets the default of the first and the last one
    the default of the middle one. *)
Example selections_in_scanner_order :
  fmap (map default_)
    (parseChoicePlaceholders (lit "Use {{a,b|x}} then {{c,d|y}} then {{a,b|x}}"))
  = Some [Some (lit "x"); Some (lit "x"); Some (lit "y")]
  ∧ ∃ run,
      collectPromptValues (lit "Use {{a,b|x}} then {{c,d|y}} then {{a,b|x}}") = Some run
      ∧ run empty_world = (empty_world, Ok (Some (lit "Use x then x then y"))).
Proof.
  split; [vm_compute; reflexivity|]. eexists. split; [vm_compute; reflexivity|].
  vm_compute. reflexivity.
Qed.
